(** * The in-process caching layer of the inbox backend (src/cacheHelper.js)

  A shallow embedding of the module's two cache kinds:
  - the four namespaced TTL maps held in the global [CACHE] object
    together with the rate-limited sweep [clearExpiredCache];
  - the bounded [LRUCache] class used for e-mail content.

  Conventions.
  - [Date.now()] readings are integers (milliseconds) and are passed to
    every operation as explicit arguments, one argument per call of
    [Date.now()] in the source.
  - A JavaScript [Map] is an insertion-ordered association list with
    unique keys ([JsMap]).
  - [await db.prepare(..).bind(..).all()] either returns a result object
    or throws; the database is a record of response functions and every
    access is appended to a trace kept next to the cache. *)

From Stdlib Require Import String Ascii ZArith List Bool Lia Sorted.
Import ListNotations.
Open Scope string_scope.
Open Scope list_scope.
Open Scope Z_scope.

(** ** Keys of a JavaScript [Map] *)

Class KeyEq (K : Type) := {
key_eqb : K -> K -> bool;
key_eqb_eq : forall a b, key_eqb a b = true <-> a = b
}.

#[export] Instance string_KeyEq : KeyEq string :=
{| key_eqb := String.eqb; key_eqb_eq := String.eqb_eq |}.

#[export] Instance Z_KeyEq : KeyEq Z :=
{| key_eqb := Z.eqb; key_eqb_eq := Z.eqb_eq |}.

Lemma key_eqb_refl {K} `{KeyEq K} (k : K) : key_eqb k k = true.
Proof. now apply key_eqb_eq. Qed.

Lemma key_eqb_neq {K} `{KeyEq K} (a b : K) : key_eqb a b = false <-> a <> b.
Proof.
split.
- intros E Hab. apply key_eqb_eq in Hab. congruence.
- intros N. destruct (key_eqb a b) eqn:E; [|reflexivity].
  apply key_eqb_eq in E. contradiction.
Qed.

(** ** JavaScript [Map]: insertion-ordered, one binding per key *)

Module JsMap.
Section Defs.
Context {K V : Type} `{KeyEq K}.

Definition t := list (K * V).

Definition empty : t := [].

Definition keys (m : t) : list K := map fst m.

(** [m.get(k)]; [None] stands for [undefined]. *)
Fixpoint get (m : t) (k : K) : option V :=
  match m with
  | [] => None
  | (k', v) :: r => if key_eqb k' k then Some v else get r k
  end.

(** [m.has(k)] *)
Definition has (m : t) (k : K) : bool :=
  match get m k with Some _ => true | None => false end.

(** [m.delete(k)] *)
Fixpoint delete (m : t) (k : K) : t :=
  match m with
  | [] => []
  | (k', v) :: r => if key_eqb k' k then delete r k else (k', v) :: delete r k
  end.

(** [m.set(k, v)]: an existing key keeps its position, a new key goes
    to the end. *)
Fixpoint set (m : t) (k : K) (v : V) : t :=
  match m with
  | [] => [(k, v)]
  | (k', v') :: r => if key_eqb k' k then (k', v) :: r else (k', v') :: set r k v
  end.

(** [m.size] *)
Definition size (m : t) : Z := Z.of_nat (List.length m).

(** [m.keys().next().value]; [None] stands for [undefined]. *)
Definition first_key (m : t) : option K :=
  match m with [] => None | (k, _) :: _ => Some k end.

(** Well-formed maps bind each key once. *)
Definition wf (m : t) : Prop := NoDup (keys m).

End Defs.
Arguments t : clear implicits.
End JsMap.

(** ** Strings

    A string is a sequence of code units below 256 (one [ascii] each).
    On that range [String.prototype.trim] strips TAB, LF, VT, FF, CR,
    SPACE and NO-BREAK SPACE, and [String.prototype.toLowerCase] maps
    A..Z and the Latin-1 capitals U+00C0..U+00DE (but not U+00D7). *)

Definition isWhiteSpace (c : ascii) : bool :=
  let n := N_of_ascii c in
  ((9 <=? n) && (n <=? 13) || (n =? 32) || (n =? 160))%N.

Fixpoint trimStart (s : string) : string :=
  match s with
  | EmptyString => EmptyString
  | String c r => if isWhiteSpace c then trimStart r else s
  end.

Fixpoint trimEnd (s : string) : string :=
  match s with
  | EmptyString => EmptyString
  | String c r =>
      match trimEnd r with
      | EmptyString => if isWhiteSpace c then EmptyString else String c EmptyString
      | r' => String c r'
      end
  end.

Definition trim (s : string) : string := trimEnd (trimStart s).

Definition lowerChar (c : ascii) : ascii :=
  let n := N_of_ascii c in
  if ((65 <=? n) && (n <=? 90)
      || (192 <=? n) && (n <=? 222) && negb (n =? 215))%N
  then ascii_of_N (n + 32) else c.

Fixpoint toLowerCase (s : string) : string :=
  match s with
  | EmptyString => EmptyString
  | String c r => String (lowerChar c) (toLowerCase r)
  end.

(** [String(address || '').trim().toLowerCase()], the expression that
    opens the three address operations.  [None] is a [null] or
    [undefined] address. *)
Definition normalized (address : option string) : string :=
  toLowerCase (trim (match address with Some s => s | None => "" end)).

(** A malformed address: [null] or [undefined], empty, or empty once
    trimmed. *)
Definition malformed (address : option string) : Prop :=
  match address with
  | None => True
  | Some s => trim s = ""
  end.

(** [!normalized] *)
Definition isEmpty (s : string) : bool :=
  match s with EmptyString => true | _ => false end.

(** ** Cached values *)

(** A cache entry.  The source calls the payload [data] (table
    structures, quotas), [id] (mailbox ids) or [value] (statistics and
    the LRU cache); the timestamp is always [timestamp]. *)
Record Item (A : Type) := { value : A; timestamp : Z }.
Arguments value {A} _.
Arguments timestamp {A} _.

(** A row of [PRAGMA table_info] and the column record built from it. *)
Record Column := {
  name : string;
  type : string;
  notnull : Z;
  dflt_value : option string
}.

(** [{ used, limit }] *)
Record Quota := { used : Z; limit : Z }.

(** ** The global cache object and its configuration *)

Record CACHE := {
  tableStructures : JsMap.t string (Item (list Column));
  mailboxIds : JsMap.t string (Item (option Z));
  userQuotas : JsMap.t Z (Item Quota);
  systemStats : JsMap.t string (Item Z);
  lastClearTime : Z
}.

Module CACHE_TTL.
Definition tableStructure : Z := 60 * 60 * 1000.
Definition mailboxId : Z := 10 * 60 * 1000.
Definition userQuota : Z := 5 * 60 * 1000.
Definition systemStats : Z := 10 * 60 * 1000.
Definition clearInterval : Z := 30 * 60 * 1000.
End CACHE_TTL.

(** The cache object as the module creates it at load time [now]. *)
Definition initialCACHE (now : Z) : CACHE :=
  {| tableStructures := JsMap.empty; mailboxIds := JsMap.empty;
     userQuotas := JsMap.empty; systemStats := JsMap.empty;
     lastClearTime := now |}.

Definition with_tableStructures (c : CACHE) m : CACHE :=
  {| tableStructures := m; mailboxIds := mailboxIds c;
     userQuotas := userQuotas c; systemStats := systemStats c;
     lastClearTime := lastClearTime c |}.

Definition with_mailboxIds (c : CACHE) m : CACHE :=
  {| tableStructures := tableStructures c; mailboxIds := m;
     userQuotas := userQuotas c; systemStats := systemStats c;
     lastClearTime := lastClearTime c |}.

Definition with_userQuotas (c : CACHE) m : CACHE :=
  {| tableStructures := tableStructures c; mailboxIds := mailboxIds c;
     userQuotas := m; systemStats := systemStats c;
     lastClearTime := lastClearTime c |}.

Definition with_systemStats (c : CACHE) m : CACHE :=
  {| tableStructures := tableStructures c; mailboxIds := mailboxIds c;
     userQuotas := userQuotas c; systemStats := m;
     lastClearTime := lastClearTime c |}.

(** ** The database and the effects of an operation *)

Definition JsError := string.

Inductive outcome (A : Type) : Type :=
| Returned (a : A)
| Thrown (e : JsError).
Arguments Returned {A} a.
Arguments Thrown {A} e.

(** What [await db.prepare(sql).bind(arg).all()] yields for each of the
    module's statements: the [results] field of the answer ([None] when
    the field is missing), or an exception.  Mailbox rows are given by
    their [id], user rows by [mailbox_limit], count rows by [c]; [None]
    is a [null] field. *)
Record DB := {
  pragma_table_info : string -> outcome (option (list Column));
  select_mailbox_id : string -> outcome (option (list (option Z)));
  select_mailbox_limit : Z -> outcome (option (list (option Z)));
  count_user_mailboxes : Z -> outcome (option (list (option Z)))
}.

(** One access to the backing store. *)
Inductive DbCall : Type :=
| PragmaTableInfo (tableName : string)
| SelectMailboxId (address : string)
| SelectMailboxLimit (userId : Z)
| CountUserMailboxes (userId : Z)
| QueryFn (statKey : string).

(** The module state: the cache object, and the trace of accesses to the
    backing store made so far. *)
Record World := { mem : CACHE; dbLog : list DbCall }.

Definition M (A : Type) : Type := World -> outcome A * World.

Definition ret {A} (a : A) : M A := fun w => (Returned a, w).

Definition bind {A B} (m : M A) (k : A -> M B) : M B :=
  fun w =>
    match m w with
    | (Returned a, w') => k a w'
    | (Thrown e, w') => (Thrown e, w')
    end.

(** [try { body } catch (e) { handler }] *)
Definition try_catch {A} (body : M A) (handler : JsError -> M A) : M A :=
  fun w =>
    match body w with
    | (Returned a, w') => (Returned a, w')
    | (Thrown e, w') => handler e w'
    end.

Definition readCACHE : M CACHE := fun w => (Returned (mem w), w).

Definition updateCACHE (f : CACHE -> CACHE) : M unit :=
  fun w => (Returned tt, {| mem := f (mem w); dbLog := dbLog w |}).

(** A looked-up entry that does not pass the test
    [cached && (now - cached.timestamp) < ttl]: absent, or too old. *)
Definition stale {A} (cached : option (Item A)) (now ttl : Z) : Prop :=
  forall e, cached = Some e -> ttl <= now - timestamp e.

(** The state after further accesses to the backing store. *)
Definition logged (w : World) (calls : list DbCall) : World :=
  {| mem := mem w; dbLog := dbLog w ++ calls |}.

(** The state after the cache object was replaced. *)
Definition stored (w : World) (c : CACHE) : World :=
  {| mem := c; dbLog := dbLog w |}.

(** [await] of a backing-store access with the given answer. *)
Definition await {A} (call : DbCall) (answer : outcome A) : M A :=
  fun w => (answer, logged w [call]).

Declare Scope js_scope.
Delimit Scope js_scope with js.
Notation "x <- c1 ;; c2" := (bind c1 (fun x => c2))
  (at level 61, c1 at next level, right associativity) : js_scope.
Notation "c1 ;;; c2" := (bind c1 (fun _ => c2))
  (at level 61, right associativity) : js_scope.
Open Scope js_scope.

(** The map [m] holds value [v], written at time [t0], under key [k]. *)
Definition entryAt {K A} `{KeyEq K} (m : JsMap.t K (Item A)) (k : K) (v : A)
    (t0 : Z) : Prop :=
  JsMap.get m k = Some {| value := v; timestamp := t0 |}.

(** A get-or-load with result [r] treated its key as absent: it gave
    the outcome and made the accesses of the same call on a cache
    without the key ([r_absent]), starting with the access [call]. *)
Definition reloads {A} (r r_absent : outcome A * World) (w : World)
    (call : DbCall) : Prop :=
  fst r = fst r_absent
  /\ dbLog (snd r) = dbLog (snd r_absent)
  /\ exists rest, dbLog (snd r) = dbLog w ++ call :: rest.

(** ** The namespaced TTL caches

    In each getter [now] is the reading of [Date.now()] in the validity
    test and [now'] the later reading that stamps a freshly loaded
    entry. *)

(** [res?.results || []] *)
Definition resultsOrEmpty {A} (results : option (list A)) : list A :=
  match results with Some rows => rows | None => [] end.

(** [r => ({ name: r.name || r?.['name'], type: r.type || r?.['type'],
            notnull: r.notnull ? 1 : 0, dflt_value: r.dflt_value })] *)
Definition toColumn (r : Column) : Column :=
  {| name := name r; type := type r;
     notnull := if notnull r =? 0 then 0 else 1;
     dflt_value := dflt_value r |}.

(** [getCachedTableStructure(db, tableName)]; the catch block logs to
    the console and returns an empty array. *)
Definition getCachedTableStructure (db : DB) (tableName : string)
    (now now' : Z) : M (list Column) :=
  let cacheKey := tableName in
  c <- readCACHE ;;
  let load : M (list Column) :=
    try_catch
      (res <- await (PragmaTableInfo tableName) (pragma_table_info db tableName) ;;
       let cols := map toColumn (resultsOrEmpty res) in
       updateCACHE (fun c => with_tableStructures c
         (JsMap.set (tableStructures c) cacheKey
            {| value := cols; timestamp := now' |})) ;;;
       ret cols)
      (fun e => ret [])
  in
  match JsMap.get (tableStructures c) cacheKey with
  | Some cached =>
      if now - timestamp cached <? CACHE_TTL.tableStructure
      then ret (value cached) else load
  | None => load
  end.

(** [hasColumn(db, tableName, columnName)] *)
Definition hasColumn (db : DB) (tableName columnName : string)
    (now now' : Z) : M bool :=
  cols <- getCachedTableStructure db tableName now now' ;;
  ret (existsb (fun c => String.eqb (name c) columnName) cols).

(** [(res.results && res.results.length) ? res.results[0].id : null] *)
Definition firstId (results : option (list (option Z))) : option Z :=
  match results with
  | Some (row :: _) => row
  | _ => None
  end.

(** [getCachedMailboxId(db, address)] *)
Definition getCachedMailboxId (db : DB) (address : option string)
    (now now' : Z) : M (option Z) :=
  let normalized := normalized address in
  if isEmpty normalized then ret None else
  c <- readCACHE ;;
  let load : M (option Z) :=
    res <- await (SelectMailboxId normalized) (select_mailbox_id db normalized) ;;
    let id := firstId res in
    updateCACHE (fun c => with_mailboxIds c
      (JsMap.set (mailboxIds c) normalized
         {| value := id; timestamp := now' |})) ;;;
    ret id
  in
  match JsMap.get (mailboxIds c) normalized with
  | Some cached =>
      if now - timestamp cached <? CACHE_TTL.mailboxId
      then ret (value cached) else load
  | None => load
  end.

(** [!id] for an id that is a number or [null]. *)
Definition falsyId (id : option Z) : bool :=
  match id with Some n => n =? 0 | None => true end.

(** [updateMailboxIdCache(address, id)] *)
Definition updateMailboxIdCache (address : option string) (id : option Z)
    (now : Z) (c : CACHE) : CACHE :=
  let normalized := normalized address in
  if isEmpty normalized || falsyId id then c else
  with_mailboxIds c
    (JsMap.set (mailboxIds c) normalized {| value := id; timestamp := now |}).

(** [invalidateMailboxCache(address)] *)
Definition invalidateMailboxCache (address : option string) (c : CACHE) : CACHE :=
  let normalized := normalized address in
  with_mailboxIds c (JsMap.delete (mailboxIds c) normalized).

(** [ures?.results?.[0]?.mailbox_limit ?? 10] *)
Definition limitOf (ures : option (list (option Z))) : Z :=
  match ures with
  | Some (Some l :: _) => l
  | _ => 10
  end.

(** [cres?.results?.[0]?.c || 0] *)
Definition usedOf (cres : option (list (option Z))) : Z :=
  match cres with
  | Some (Some n :: _) => n
  | _ => 0
  end.

(** [getCachedUserQuota(db, userId)] *)
Definition getCachedUserQuota (db : DB) (userId : Z)
    (now now' : Z) : M Quota :=
  c <- readCACHE ;;
  let load : M Quota :=
    ures <- await (SelectMailboxLimit userId) (select_mailbox_limit db userId) ;;
    let limit := limitOf ures in
    cres <- await (CountUserMailboxes userId) (count_user_mailboxes db userId) ;;
    let used := usedOf cres in
    let data := {| used := used; limit := limit |} in
    updateCACHE (fun c => with_userQuotas c
      (JsMap.set (userQuotas c) userId
         {| value := data; timestamp := now' |})) ;;;
    ret data
  in
  match JsMap.get (userQuotas c) userId with
  | Some cached =>
      if now - timestamp cached <? CACHE_TTL.userQuota
      then ret (value cached) else load
  | None => load
  end.

(** [invalidateUserQuotaCache(userId)] *)
Definition invalidateUserQuotaCache (userId : Z) (c : CACHE) : CACHE :=
  with_userQuotas c (JsMap.delete (userQuotas c) userId).

(** [getCachedSystemStat(db, statKey, queryFn)] *)
Definition getCachedSystemStat (db : DB) (statKey : string)
    (queryFn : DB -> outcome Z) (now now' : Z) : M Z :=
  c <- readCACHE ;;
  let load : M Z :=
    value <- await (QueryFn statKey) (queryFn db) ;;
    updateCACHE (fun c => with_systemStats c
      (JsMap.set (systemStats c) statKey
         {| value := value; timestamp := now' |})) ;;;
    ret value
  in
  match JsMap.get (systemStats c) statKey with
  | Some cached =>
      if now - timestamp cached <? CACHE_TTL.systemStats
      then ret (value cached) else load
  | None => load
  end.

(** [invalidateSystemStatCache(statKey = null)]: a missing, [null] or
    empty key clears the whole namespace. *)
Definition invalidateSystemStatCache (statKey : option string) (c : CACHE) : CACHE :=
  match statKey with
  | Some k =>
      if isEmpty k then with_systemStats c JsMap.empty
      else with_systemStats c (JsMap.delete (systemStats c) k)
  | None => with_systemStats c JsMap.empty
  end.

(** The body and the whole of one of the loops
    [for (const [key, value] of m.entries())
       if (now - value.timestamp > ttl) m.delete(key)]. *)
Definition sweepBody {K A} `{KeyEq K} (now ttl : Z)
    (acc : JsMap.t K (Item A)) (entry : K * Item A) : JsMap.t K (Item A) :=
  let '(key, value) := entry in
  if now - timestamp value >? ttl then JsMap.delete acc key else acc.

Definition sweepLoop {K A} `{KeyEq K} (m : JsMap.t K (Item A)) (now ttl : Z)
    : JsMap.t K (Item A) :=
  fold_left (sweepBody now ttl) m m.

(** [clearExpiredCache()] *)
Definition clearExpiredCache (now : Z) (c : CACHE) : CACHE :=
  if now - lastClearTime c <? CACHE_TTL.clearInterval then c else
  {| tableStructures := tableStructures c;
     mailboxIds := sweepLoop (mailboxIds c) now CACHE_TTL.mailboxId;
     userQuotas := sweepLoop (userQuotas c) now CACHE_TTL.userQuota;
     systemStats := sweepLoop (systemStats c) now CACHE_TTL.systemStats;
     lastClearTime := now |}.

(** [clearAllCache()] *)
Definition clearAllCache (now : Z) (c : CACHE) : CACHE := initialCACHE now.

(** Every map of the cache object binds each key once. *)
Definition cacheWf (c : CACHE) : Prop :=
  JsMap.wf (tableStructures c) /\ JsMap.wf (mailboxIds c)
  /\ JsMap.wf (userQuotas c) /\ JsMap.wf (systemStats c).

(** A pure cache update seen as an operation on the module state. *)
Definition onCACHE (f : CACHE -> CACHE) (w : World) : World :=
  {| mem := f (mem w); dbLog := dbLog w |}.

(** A call of one of the exported functions of the namespaced caches. *)
Inductive Call : Type :=
| GetCachedTableStructure (db : DB) (tableName : string) (now now' : Z)
| HasColumn (db : DB) (tableName columnName : string) (now now' : Z)
| GetCachedMailboxId (db : DB) (address : option string) (now now' : Z)
| UpdateMailboxIdCache (address : option string) (id : option Z) (now : Z)
| InvalidateMailboxCache (address : option string)
| GetCachedUserQuota (db : DB) (userId : Z) (now now' : Z)
| InvalidateUserQuotaCache (userId : Z)
| GetCachedSystemStat (db : DB) (statKey : string) (queryFn : DB -> outcome Z) (now now' : Z)
| InvalidateSystemStatCache (statKey : option string)
| ClearExpiredCache (now : Z)
| ClearAllCache (now : Z).

(** The state after a call, whatever it returned or threw. *)
Definition exec (call : Call) (w : World) : World :=
  match call with
  | GetCachedTableStructure db t now now' => snd (getCachedTableStructure db t now now' w)
  | HasColumn db t col now now' => snd (hasColumn db t col now now' w)
  | GetCachedMailboxId db a now now' => snd (getCachedMailboxId db a now now' w)
  | UpdateMailboxIdCache a id now => onCACHE (updateMailboxIdCache a id now) w
  | InvalidateMailboxCache a => onCACHE (invalidateMailboxCache a) w
  | GetCachedUserQuota db u now now' => snd (getCachedUserQuota db u now now' w)
  | InvalidateUserQuotaCache u => onCACHE (invalidateUserQuotaCache u) w
  | GetCachedSystemStat db k q now now' => snd (getCachedSystemStat db k q now now' w)
  | InvalidateSystemStatCache k => onCACHE (invalidateSystemStatCache k) w
  | ClearExpiredCache now => onCACHE (clearExpiredCache now) w
  | ClearAllCache now => onCACHE (clearAllCache now) w
  end.

Definition execAll (calls : list Call) (w : World) : World :=
  fold_left (fun w call => exec call w) calls w.

(** ** The bounded LRU cache (class [LRUCache]) *)

Module LRU.
Section Defs.
Context {V : Type}.

Record LRUCache := {
  capacity : Z;
  ttl : Z;
  cache : JsMap.t string (Item V)
}.

(** [new LRUCache(capacity, ttl)] *)
Definition new (capacity ttl : Z) : LRUCache :=
  {| capacity := capacity; ttl := ttl; cache := JsMap.empty |}.

Definition with_cache (c : LRUCache) m : LRUCache :=
  {| capacity := capacity c; ttl := ttl c; cache := m |}.

(** [get(key)]; the result [None] is [null].  [has] and [get] of the
    underlying map agree, so the two tests of the source are one match. *)
Definition get (c : LRUCache) (key : string) (now : Z) : option V * LRUCache :=
  match JsMap.get (cache c) key with
  | None => (None, c)
  | Some item =>
      if now - timestamp item >? ttl c
      then (None, with_cache c (JsMap.delete (cache c) key))
      else (Some (value item),
            with_cache c (JsMap.set (JsMap.delete (cache c) key) key item))
  end.

(** [set(key, value)]; deleting the [undefined] first key of an empty
    map does nothing. *)
Definition set (c : LRUCache) (key : string) (v : V) (now : Z) : LRUCache :=
  let m1 := if JsMap.has (cache c) key
            then JsMap.delete (cache c) key else cache c in
  let m2 := if JsMap.size m1 >=? capacity c
            then match JsMap.first_key m1 with
                 | Some firstKey => JsMap.delete m1 firstKey
                 | None => m1
                 end
            else m1 in
  with_cache c (JsMap.set m2 key {| value := v; timestamp := now |}).

(** The capacity check of [set] alone: the map after the optional
    eviction of the first key. *)
Definition evicted (cap : Z) (m : JsMap.t string (Item V)) : JsMap.t string (Item V) :=
  if JsMap.size m >=? cap
  then match JsMap.first_key m with
       | Some firstKey => JsMap.delete m firstKey
       | None => m
       end
  else m.

(** [delete(key)] *)
Definition delete (c : LRUCache) (key : string) : LRUCache :=
  with_cache c (JsMap.delete (cache c) key).

(** [clear()] *)
Definition clear (c : LRUCache) : LRUCache := with_cache c JsMap.empty.

(** [size()] *)
Definition size (c : LRUCache) : Z := JsMap.size (cache c).

(** The keys from least to most recently inserted in the map. *)
Definition order (c : LRUCache) : list string := JsMap.keys (cache c).

(** A call of [set] or [get]. *)
Inductive Op : Type :=
| OpSet (key : string) (v : V) (now : Z)
| OpGet (key : string) (now : Z).

Definition step (c : LRUCache) (op : Op) : LRUCache :=
  match op with
  | OpSet key v now => set c key v now
  | OpGet key now => snd (get c key now)
  end.

Definition run (c : LRUCache) (ops : list Op) : LRUCache :=
  fold_left step ops c.

(** *** Recency, stated independently of the map order

    A call touches its key when it writes it ([set]) or reads it
    successfully ([get] on a present, unexpired entry).  The touch
    history lists the touched keys, newest first. *)
Definition touched (c : LRUCache) (op : Op) : option string :=
  match op with
  | OpSet key _ _ => Some key
  | OpGet key now =>
      match JsMap.get (cache c) key with
      | Some item => if now - timestamp item >? ttl c then None else Some key
      | None => None
      end
  end.

Fixpoint history (c : LRUCache) (ops : list Op) (past : list string) : list string :=
  match ops with
  | [] => past
  | op :: rest =>
      history (step c op) rest
        (match touched c op with Some k => k :: past | None => past end)
  end.

(** The position in time of the last touch of [k] (first touch is 1),
    or 0 when [k] was never touched. *)
Fixpoint lastTouch (past : list string) (k : string) : nat :=
  match past with
  | [] => 0
  | k' :: older => if String.eqb k' k then S (List.length older) else lastTouch older k
  end.

(** [a] was last touched strictly before [b]. *)
Definition touchedBefore (past : list string) (a b : string) : Prop :=
  (lastTouch past a < lastTouch past b)%nat.

(** The map order agrees with recency: every key was last touched
    before the keys that follow it. *)
Definition byRecency (c : LRUCache) (past : list string) : Prop :=
  StronglySorted (touchedBefore past) (order c).

End Defs.
Arguments LRUCache : clear implicits.
Arguments Op : clear implicits.
End LRU.

(** [emailContentCache = new LRUCache(1000, 3600000)] and its wrappers;
    [emailId] is the decimal or string form the template literal
    produces. *)
Definition emailContentCache {V} : LRU.LRUCache V := LRU.new 1000 3600000.

Definition emailKey (emailId : string) : string := "email_content_" ++ emailId.

Definition cacheEmailContent {V} (emailId : string) (content : V) (now : Z)
    (c : LRU.LRUCache V) : LRU.LRUCache V :=
  LRU.set c (emailKey emailId) content now.

Definition getCachedEmailContent {V} (emailId : string) (now : Z)
    (c : LRU.LRUCache V) : option V * LRU.LRUCache V :=
  LRU.get c (emailKey emailId) now.

Definition invalidateEmailContentCache {V} (emailId : string)
    (c : LRU.LRUCache V) : LRU.LRUCache V :=
  LRU.delete c (emailKey emailId).


(** ** Sample states and databases *)

(** A database whose every statement throws. *)
Definition failingDB (e : JsError) : DB :=
  {| pragma_table_info := fun _ => Thrown e;
     select_mailbox_id := fun _ => Thrown e;
     select_mailbox_limit := fun _ => Thrown e;
     count_user_mailboxes := fun _ => Thrown e |}.

(** A database without tables, mailboxes or users. *)
Definition emptyDB : DB :=
  {| pragma_table_info := fun _ => Returned (Some []);
     select_mailbox_id := fun _ => Returned (Some []);
     select_mailbox_limit := fun _ => Returned (Some []);
     count_user_mailboxes := fun _ => Returned (Some [Some 0]) |}.

(** The module right after it was loaded at time 0. *)
Definition freshWorld : World := {| mem := initialCACHE 0; dbLog := [] |}.

(** A cache loaded at time 0 that holds one entry of age 0 in each of
    the schema and address namespaces. *)
Definition sampleCACHE : CACHE :=
  {| tableStructures := [("users", {| value := []; timestamp := 0 |})];
     mailboxIds := [("a@x.com", {| value := Some 7; timestamp := 0 |})];
     userQuotas := [];
     systemStats := [];
     lastClearTime := 0 |}.

Definition sampleWorld : World := {| mem := sampleCACHE; dbLog := [] |}.

(** The scenario of the LRU cache: capacity 3, TTL 1000 ms; insert
    "1", "2", "3", read "1", insert "4". *)
Definition scenarioOps : list (LRU.Op string) :=
  [LRU.OpSet "1" "one" 0; LRU.OpSet "2" "two" 1; LRU.OpSet "3" "three" 2;
   LRU.OpGet "1" 3; LRU.OpSet "4" "four" 4].

(** ** Calls of the e-mail content cache, and further predicates *)

(** A call of one of the three exported functions of the e-mail content
    cache. *)
Inductive EmailCall (V : Type) : Type :=
| CacheEmailContent (emailId : string) (content : V) (now : Z)
| GetCachedEmailContent (emailId : string) (now : Z)
| InvalidateEmailContentCache (emailId : string).
Arguments CacheEmailContent {V} emailId content now.
Arguments GetCachedEmailContent {V} emailId now.
Arguments InvalidateEmailContentCache {V} emailId.

Definition execEmail {V} (c : LRU.LRUCache V) (call : EmailCall V) : LRU.LRUCache V :=
  match call with
  | CacheEmailContent emailId content now => cacheEmailContent emailId content now c
  | GetCachedEmailContent emailId now => snd (getCachedEmailContent emailId now c)
  | InvalidateEmailContentCache emailId => invalidateEmailContentCache emailId c
  end.

Definition execEmailAll {V} (calls : list (EmailCall V)) (c : LRU.LRUCache V)
    : LRU.LRUCache V :=
  fold_left execEmail calls c.

(** What a getter hands to its caller after it went to the backing
    store: the mapped answer, or the exception of the store. *)
Definition loaded {A B} (answer : outcome A) (f : A -> B) : outcome B :=
  match answer with
  | Returned a => Returned (f a)
  | Thrown e => Thrown e
  end.

(** The quota a user gets from the two answers of the database. *)
Definition quotaOf (ures cres : option (list (option Z))) : Quota :=
  {| used := usedOf cres; limit := limitOf ures |}.


(** A column record as [toColumn] builds it: [notnull] is 0 or 1. *)
Definition flagColumn (col : Column) : Prop := notnull col = 0 \/ notnull col = 1.

(** Every cached table structure consists of such columns. *)
Definition columnsNormalized (c : CACHE) : Prop :=
  forall k e, In (k, e) (tableStructures c) -> Forall flagColumn (value e).

(** The rows of a table of two columns. *)
Definition sampleRows : list Column :=
  [ {| name := "id"; type := "INTEGER"; notnull := 5; dflt_value := None |};
    {| name := "address"; type := "TEXT"; notnull := 0; dflt_value := None |} ].

(** A database with that one table, one mailbox and one user that owns
    three mailboxes under a limit of five. *)
Definition sampleDB : DB :=
  {| pragma_table_info := fun t =>
       if String.eqb t "mailboxes" then Returned (Some sampleRows)
       else Returned (Some []);
     select_mailbox_id := fun a =>
       if String.eqb a "a@x.com" then Returned (Some [Some 7]) else Returned (Some []);
     select_mailbox_limit := fun u =>
       if u =? 1 then Returned (Some [Some 5]) else Returned (Some []);
     count_user_mailboxes := fun u =>
       if u =? 1 then Returned (Some [Some 3]) else Returned (Some [Some 0]) |}.

(** The value a getter serves from a looked-up entry at time [now], if
    any: [cached && (now - cached.timestamp) < ttl ? payload : miss]. *)
Definition served {A} (cached : option (Item A)) (now ttl : Z) : option A :=
  match cached with
  | Some e => if now - timestamp e <? ttl then Some (value e) else None
  | None => None
  end.


(** A sequence of [get] calls, given by their keys and times. *)
Definition readOps {V} (reads : list (string * Z)) : list (LRU.Op V) :=
  map (fun r => LRU.OpGet (fst r) (snd r)) reads.

(** ** Truncation of message bodies (src/email/receiver.js)

    Here a string is the list of its UTF-16 code units and a byte array
    is the list of its bytes, all as numbers.  [TextEncoder] and
    [TextDecoder] are the platform's UTF-8 encoder and decoder; with
    [fatal: false] the decoder replaces malformed input by U+FFFD and
    never throws, so the [catch] branch of the source is never taken. *)

Module Receiver.

Definition isHighSurrogate (u : N) : bool := ((0xD800 <=? u) && (u <=? 0xDBFF))%N.

Definition isLowSurrogate (u : N) : bool := ((0xDC00 <=? u) && (u <=? 0xDFFF))%N.

(** The code points the encoder sees: a surrogate pair is one code
    point, a surrogate on its own is replaced by U+FFFD. *)
Fixpoint scalarValues (s : list N) : list N :=
  match s with
  | [] => []
  | u :: r =>
      if isHighSurrogate u then
        match r with
        | lo :: r' =>
            if isLowSurrogate lo
            then (0x10000 + (u - 0xD800) * 0x400 + (lo - 0xDC00))%N :: scalarValues r'
            else 0xFFFD%N :: scalarValues r
        | [] => [0xFFFD%N]
        end
      else if isLowSurrogate u then 0xFFFD%N :: scalarValues r
      else u :: scalarValues r
  end.

(** The UTF-8 bytes of a code point. *)
Definition utf8Bytes (cp : N) : list N :=
  (if cp <? 0x80 then [cp]
   else if cp <? 0x800 then [0xC0 + cp / 0x40; 0x80 + cp mod 0x40]
   else if cp <? 0x10000
   then [0xE0 + cp / 0x1000; 0x80 + (cp / 0x40) mod 0x40; 0x80 + cp mod 0x40]
   else [0xF0 + cp / 0x40000; 0x80 + (cp / 0x1000) mod 0x40;
         0x80 + (cp / 0x40) mod 0x40; 0x80 + cp mod 0x40])%N.

(** [new TextEncoder().encode(str)] *)
Definition encode (str : list N) : list N := flat_map utf8Bytes (scalarValues str).

(** The state of the UTF-8 decoder between two bytes. *)
Record DecoderState := {
  codePoint : N;
  bytesNeeded : N;
  bytesSeen : N;
  lowerBoundary : N;
  upperBoundary : N
}.

Definition initialState : DecoderState :=
  {| codePoint := 0; bytesNeeded := 0; bytesSeen := 0;
     lowerBoundary := 0x80; upperBoundary := 0xBF |}.

(** What the decoder does with a byte when no sequence is open. *)
Inductive FirstByte : Type :=
| Emit (cp : N)
| Begin (st : DecoderState)
| Invalid.

Definition firstByte (b : N) : FirstByte :=
  (if b <=? 0x7F then Emit b
   else if (0xC2 <=? b) && (b <=? 0xDF)
   then Begin {| codePoint := N.land b 0x1F; bytesNeeded := 1; bytesSeen := 0;
                 lowerBoundary := 0x80; upperBoundary := 0xBF |}
   else if (0xE0 <=? b) && (b <=? 0xEF)
   then Begin {| codePoint := N.land b 0xF; bytesNeeded := 2; bytesSeen := 0;
                 lowerBoundary := if b =? 0xE0 then 0xA0 else 0x80;
                 upperBoundary := if b =? 0xED then 0x9F else 0xBF |}
   else if (0xF0 <=? b) && (b <=? 0xF4)
   then Begin {| codePoint := N.land b 0x7; bytesNeeded := 3; bytesSeen := 0;
                 lowerBoundary := if b =? 0xF0 then 0x90 else 0x80;
                 upperBoundary := if b =? 0xF4 then 0x8F else 0xBF |}
   else Invalid)%N.

(** The code points the decoder emits, U+FFFD for every error; a byte
    that cannot continue the open sequence ends it with an error and
    is then read again as a first byte. *)
Fixpoint decodeCodePoints (bytes : list N) (st : DecoderState) : list N :=
  match bytes with
  | [] => if (bytesNeeded st =? 0)%N then [] else [0xFFFD%N]
  | b :: rest =>
      let fromStart :=
        match firstByte b with
        | Emit cp => cp :: decodeCodePoints rest initialState
        | Begin st' => decodeCodePoints rest st'
        | Invalid => 0xFFFD%N :: decodeCodePoints rest initialState
        end in
      if (bytesNeeded st =? 0)%N then fromStart
      else if ((lowerBoundary st <=? b) && (b <=? upperBoundary st))%N then
        let cp := N.lor (N.shiftl (codePoint st) 6) (N.land b 0x3F) in
        if (bytesSeen st + 1 =? bytesNeeded st)%N
        then cp :: decodeCodePoints rest initialState
        else decodeCodePoints rest
               {| codePoint := cp; bytesNeeded := bytesNeeded st;
                  bytesSeen := bytesSeen st + 1;
                  lowerBoundary := 0x80; upperBoundary := 0xBF |}
      else 0xFFFD%N :: fromStart
  end.

(** A leading byte order mark is dropped ([ignoreBOM] is not set). *)
Definition stripBOM (cps : list N) : list N :=
  match cps with
  | cp :: r => if (cp =? 0xFEFF)%N then r else cps
  | [] => []
  end.

(** The code units of a code point. *)
Definition codeUnits (cp : N) : list N :=
  (if cp <? 0x10000 then [cp]
   else [0xD800 + (cp - 0x10000) / 0x400; 0xDC00 + (cp - 0x10000) mod 0x400])%N.

(** [new TextDecoder('utf-8', { fatal: false }).decode(bytes)] *)
Definition decode (bytes : list N) : list N :=
  flat_map codeUnits (stripBOM (decodeCodePoints bytes initialState)).

(** [a.slice(0, end)] for an array or a string of length [len]: a
    negative [end] counts from the back. *)
Definition slice0 {A} (a : list A) (end_ : Z) : list A :=
  let len := Z.of_nat (List.length a) in
  let stop := if end_ <? 0 then Z.max (len + end_) 0 else Z.min end_ len in
  firstn (Z.to_nat stop) a.

(** [truncateByBytes(str, maxBytes)] *)
Definition truncateByBytes (str : list N) (maxBytes : Z) : list N :=
  match str with
  | [] => []
  | _ =>
      let encoded := encode str in
      if Z.of_nat (List.length encoded) <=? maxBytes then str
      else
        let truncated := slice0 encoded maxBytes in
        decode truncated
  end.

(** A string of ASCII characters. *)
Definition ascii7 (str : list N) : Prop := Forall (fun u => (u < 0x80)%N) str.

(** A code point the encoder can be given: below U+110000 and not a
    surrogate. *)
Definition scalar (cp : N) : Prop :=
  (cp < 0x110000 /\ (cp < 0xD800 \/ 0xDFFF < cp))%N.

(** A well-formed string: code units below 65536, every surrogate part
    of a pair. *)
Fixpoint wellFormed (s : list N) : bool :=
  match s with
  | [] => true
  | u :: r =>
      if isHighSurrogate u then
        match r with
        | lo :: r' => isLowSurrogate lo && wellFormed r'
        | [] => false
        end
      else negb (isLowSurrogate u) && (u <? 0x10000)%N && wellFormed r
  end.

End Receiver.

(** ** The preview of a received message (src/email/receiver.js)

    The two lines of [handleEmailReceive] that compute [preview] from
    the [text] and [html] strings of the message; the rest of the
    function talks to modules that are not part of this file.  Strings
    are lists of UTF-16 code units. *)

Module Preview.

Definition LT : N := 0x3C.

Definition GT : N := 0x3E.

Definition SPACE : N := 0x20.

(** The code units matched by [\s], which are also the ones [trim]
    strips: white space and line terminators. *)
Definition isSpace (u : N) : bool :=
  ((9 <=? u) && (u <=? 13) || (u =? 0x20) || (u =? 0xA0) || (u =? 0x1680)
   || (0x2000 <=? u) && (u <=? 0x200A) || (u =? 0x2028) || (u =? 0x2029)
   || (u =? 0x202F) || (u =? 0x205F) || (u =? 0x3000) || (u =? 0xFEFF))%N.

(** [/<[^>]+>/] matches at a [<] followed by [r]: the next code unit is
    not [>] and a [>] comes later. *)
Definition startsTag (r : list N) : bool :=
  match r with
  | c :: _ => negb (c =? GT)%N && existsb (N.eqb GT) r
  | [] => false
  end.

(** [html.replace(/<[^>]+>/g, ' ')]: [inTag] holds between the [<] of a
    match and its closing [>]. *)
Fixpoint stripTags (inTag : bool) (s : list N) : list N :=
  match s with
  | [] => []
  | c :: r =>
      if inTag then
        if (c =? GT)%N then SPACE :: stripTags false r else stripTags true r
      else if (c =? LT)%N && startsTag r then stripTags true r
      else c :: stripTags false r
  end.

(** [s.replace(/\s+/g, ' ')]: [inRun] holds after a white space code
    unit that was already replaced. *)
Fixpoint collapse (inRun : bool) (s : list N) : list N :=
  match s with
  | [] => []
  | c :: r =>
      if isSpace c then
        if inRun then collapse true r else SPACE :: collapse true r
      else c :: collapse false r
  end.

Fixpoint trimStart (s : list N) : list N :=
  match s with
  | [] => []
  | c :: r => if isSpace c then trimStart r else s
  end.

Fixpoint trimEnd (s : list N) : list N :=
  match s with
  | [] => []
  | c :: r =>
      match trimEnd r with
      | [] => if isSpace c then [] else [c]
      | r' => c :: r'
      end
  end.

(** [s.trim()] *)
Definition trim (s : list N) : list N := trimEnd (trimStart s).

(** [previewBase = (text || html.replace(/<[^>]+>/g, ' '))
                     .replace(/\s+/g, ' ').trim()] and
    [preview = String(previewBase || '').slice(0, 120)]. *)
Definition previewBase (text html : list N) : list N :=
  trim (collapse false
          (match text with
           | [] => stripTags false html
           | _ => text
           end)).

Definition preview (text html : list N) : list N :=
  firstn 120 (previewBase text html).

(** No white space but single spaces, none of them behind another
    ([afterSpace] tells whether a space came just before). *)
Fixpoint tidy (afterSpace : bool) (s : list N) : bool :=
  match s with
  | [] => true
  | c :: r =>
      if isSpace c then (c =? SPACE)%N && negb afterSpace && tidy true r
      else tidy false r
  end.

(** No [<] of the string begins a match of [/<[^>]+>/]. *)
Fixpoint tagFree (s : list N) : bool :=
  match s with
  | [] => true
  | c :: r => negb ((c =? LT)%N && startsTag r) && tagFree r
  end.

End Preview.

(** * Facts about the embedding *)

(** ** JavaScript maps *)

Module JsMapFacts.
Import JsMap.
Section Facts.
Context {K V : Type} `{KeyEq K}.
Implicit Types (m : JsMap.t K V) (k : K) (v : V).

Lemma get_set_same m k v : get (set m k v) k = Some v.
Proof.
  induction m as [|[k' v'] r IH]; simpl.
  - now rewrite key_eqb_refl.
  - destruct (key_eqb k' k) eqn:E; simpl; now rewrite E.
Qed.

Lemma get_set_other m k v k' : k <> k' -> get (set m k v) k' = get m k'.
Proof.
  intros N. induction m as [|[k0 v0] r IH]; simpl.
  - apply key_eqb_neq in N. now rewrite N.
  - destruct (key_eqb k0 k) eqn:E; simpl.
    + apply key_eqb_eq in E. subst k0.
      apply key_eqb_neq in N. now rewrite N.
    + now rewrite IH.
Qed.

Lemma get_delete_same m k : get (delete m k) k = None.
Proof.
  induction m as [|[k' v'] r IH]; simpl; [reflexivity|].
  destruct (key_eqb k' k) eqn:E; simpl; [assumption|now rewrite E].
Qed.

Lemma get_delete_other m k k' : k <> k' -> get (delete m k) k' = get m k'.
Proof.
  intros N. induction m as [|[k0 v0] r IH]; simpl; [reflexivity|].
  destruct (key_eqb k0 k) eqn:E; simpl.
  - apply key_eqb_eq in E. subst k0.
    apply key_eqb_neq in N. now rewrite N.
  - now rewrite IH.
Qed.

Lemma get_None_notin m k : get m k = None <-> ~ In k (keys m).
Proof.
  induction m as [|[k' v'] r IH]; simpl.
  - tauto.
  - destruct (key_eqb k' k) eqn:E.
    + apply key_eqb_eq in E. split; [discriminate|]. intros N. destruct N. now left.
    + apply key_eqb_neq in E. rewrite IH. tauto.
Qed.

Lemma get_Some_in m k v : get m k = Some v -> In (k, v) m.
Proof.
  induction m as [|[k' v'] r IH]; simpl; [discriminate|].
  destruct (key_eqb k' k) eqn:E.
  - apply key_eqb_eq in E. intros [= ->]. left. now subst.
  - intros G. right. now apply IH.
Qed.

Lemma in_get_wf m k v : wf m -> In (k, v) m -> get m k = Some v.
Proof.
  unfold wf. induction m as [|[k' v'] r IH]; simpl; [tauto|].
  intros ND [E|I].
  - injection E as -> ->. now rewrite key_eqb_refl.
  - inversion ND as [|? ? Hn ND']; subst.
    destruct (key_eqb k' k) eqn:E.
    + apply key_eqb_eq in E. subst k'. destruct Hn.
      change k with (fst (k, v)). now apply in_map.
    + now apply IH.
Qed.

Lemma delete_absent m k : get m k = None -> delete m k = m.
Proof.
  induction m as [|[k' v'] r IH]; simpl; [reflexivity|].
  destruct (key_eqb k' k); [discriminate|]. intros G. now rewrite IH.
Qed.

Lemma set_absent m k v : get m k = None -> set m k v = m ++ [(k, v)].
Proof.
  induction m as [|[k' v'] r IH]; simpl; [reflexivity|].
  destruct (key_eqb k' k); [discriminate|]. intros G. now rewrite IH.
Qed.

Lemma keys_delete m k :
  keys (delete m k) = filter (fun k' => negb (key_eqb k' k)) (keys m).
Proof.
  induction m as [|[k' v'] r IH]; simpl; [reflexivity|].
  destruct (key_eqb k' k); simpl; now rewrite IH.
Qed.

Lemma keys_set_absent m k v : get m k = None -> keys (set m k v) = keys m ++ [k].
Proof.
  intros G. rewrite (set_absent _ _ _ G). unfold keys. now rewrite map_app.
Qed.

Lemma keys_set_present m k v : get m k <> None -> keys (set m k v) = keys m.
Proof.
  induction m as [|[k' v'] r IH]; simpl; [congruence|].
  destruct (key_eqb k' k); simpl; [reflexivity|].
  intros G. now rewrite IH.
Qed.

Lemma in_delete m k e : In e (delete m k) <-> In e m /\ fst e <> k.
Proof.
  induction m as [|[k' v'] r IH]; simpl; [tauto|].
  destruct (key_eqb k' k) eqn:E.
  - apply key_eqb_eq in E. subst k'. rewrite IH. split.
    + tauto.
    + intros [[<-|I] N]; [now destruct N|tauto].
  - apply key_eqb_neq in E. simpl. rewrite IH. split.
    + intros [<-|[I N]]; auto.
    + tauto.
Qed.

Lemma length_delete_le m k : (List.length (delete m k) <= List.length m)%nat.
Proof.
  induction m as [|[k' v'] r IH]; simpl; [lia|].
  destruct (key_eqb k' k); simpl; lia.
Qed.

Lemma length_delete_present m k :
  wf m -> get m k <> None -> S (List.length (delete m k)) = List.length m.
Proof.
  unfold wf. induction m as [|[k' v'] r IH]; simpl; [congruence|].
  intros ND G. inversion ND as [|? ? Hn ND']; subst.
  destruct (key_eqb k' k) eqn:E.
  - apply key_eqb_eq in E. subst k'.
    rewrite delete_absent; [reflexivity|]. now apply get_None_notin.
  - simpl. now rewrite IH.
Qed.

Lemma wf_empty : wf (empty : JsMap.t K V).
Proof. constructor. Qed.

Lemma wf_delete m k : wf m -> wf (delete m k).
Proof. unfold wf. rewrite keys_delete. apply NoDup_filter. Qed.

Lemma wf_set m k v : wf m -> wf (set m k v).
Proof.
  unfold wf. intros ND. destruct (get m k) eqn:G.
  - rewrite keys_set_present; [assumption|congruence].
  - rewrite keys_set_absent by assumption.
    apply NoDup_app; [assumption|repeat constructor; intros []|].
    intros x I [<-|[]]. now apply get_None_notin in G.
Qed.

Lemma size_nonneg m : 0 <= size m.
Proof. unfold size. lia. Qed.

End Facts.
End JsMapFacts.

(** ** Sorted key lists *)

Section SortedLists.
Context {A : Type}.
Implicit Types (R : A -> A -> Prop) (l : list A).

Lemma StronglySorted_filter_keep R (f : A -> bool) l :
  StronglySorted R l -> StronglySorted R (filter f l).
Proof.
  induction 1 as [|a l Hs IH Hall]; simpl; [constructor|].
  destruct (f a); [|assumption].
  constructor; [assumption|].
  rewrite Forall_forall in *. intros x Hx.
  apply filter_In in Hx. now apply Hall.
Qed.

Lemma StronglySorted_snoc R l a :
  StronglySorted R l -> Forall (fun x => R x a) l -> StronglySorted R (l ++ [a]).
Proof.
  induction 1 as [|b l Hs IH Hall]; simpl; intros Hlast.
  - repeat constructor.
  - inversion Hlast as [|? ? Hba Hrest]; subst.
    constructor; [now apply IH|].
    apply Forall_app. split; [assumption|now constructor].
Qed.

Lemma StronglySorted_change R R' l :
  (forall x y, In x l -> In y l -> R x y -> R' x y) ->
  StronglySorted R l -> StronglySorted R' l.
Proof.
  intros Himp Hs. induction Hs as [|a l Hs IH Hall]; [constructor|].
  constructor.
  - apply IH. intros x y Hx Hy. apply Himp; now right.
  - rewrite Forall_forall in *. intros x Hx.
    apply Himp; [now left|now right|now apply Hall].
Qed.

Lemma StronglySorted_irrefl_NoDup R l :
  (forall x, ~ R x x) -> StronglySorted R l -> NoDup l.
Proof.
  intros Hirr. induction 1 as [|a l Hs IH Hall]; constructor; [|assumption].
  intros Hin. rewrite Forall_forall in Hall. exact (Hirr a (Hall a Hin)).
Qed.

End SortedLists.

(** ** The LRU cache *)

Module LRUFacts.
Section Facts.
Context {V : Type}.
Implicit Types (c : LRU.LRUCache V) (m : JsMap.t string (Item V))
  (key k : string) (v : V) (now : Z) (past : list string).

Lemma has_delete m key :
  (if JsMap.has m key then JsMap.delete m key else m) = JsMap.delete m key.
Proof.
  unfold JsMap.has. destruct (JsMap.get m key) eqn:G; [reflexivity|].
  symmetry. now apply JsMapFacts.delete_absent.
Qed.

Lemma length_set_le m key (it : Item V) :
  (List.length (JsMap.set m key it) <= S (List.length m))%nat.
Proof.
  induction m as [|[k' v'] r IH]; simpl; [lia|].
  destruct (String.eqb k' key); simpl; lia.
Qed.

Lemma length_delete_lt m key :
  JsMap.get m key <> None ->
  (List.length (JsMap.delete m key) < List.length m)%nat.
Proof.
  induction m as [|[k' v'] r IH]; simpl; [congruence|].
  destruct (String.eqb k' key); simpl.
  - intros _. pose proof (JsMapFacts.length_delete_le r key). lia.
  - intros G. specialize (IH G). lia.
Qed.

Lemma set_unfold c key v now :
  LRU.set c key v now =
  LRU.with_cache c
    (JsMap.set (LRU.evicted (LRU.capacity c) (JsMap.delete (LRU.cache c) key)) key
       {| value := v; timestamp := now |}).
Proof. unfold LRU.set, LRU.evicted. now rewrite has_delete. Qed.

Lemma evicted_get_absent cap m key :
  JsMap.get m key = None -> JsMap.get (LRU.evicted cap m) key = None.
Proof.
  intros G. unfold LRU.evicted.
  destruct (JsMap.size m >=? cap); [|assumption].
  destruct (JsMap.first_key m) as [fk|]; [|assumption].
  destruct (String.eqb fk key) eqn:E.
  - apply String.eqb_eq in E. subst. apply JsMapFacts.get_delete_same.
  - apply String.eqb_neq in E. now rewrite JsMapFacts.get_delete_other.
Qed.

Lemma evicted_size_bound cap m :
  JsMap.size (LRU.evicted cap m) + 1 <= Z.max (Z.max cap 1) (JsMap.size m).
Proof.
  unfold LRU.evicted, JsMap.size.
  destruct (Z.of_nat (List.length m) >=? cap) eqn:E.
  - destruct m as [|[fk it] r]; simpl JsMap.first_key; cbv iota.
    + simpl. lia.
    + simpl JsMap.delete. rewrite (String.eqb_refl fk).
      pose proof (JsMapFacts.length_delete_le r fk). simpl List.length. lia.
  - rewrite Z.geb_leb in E. apply Z.leb_gt in E. lia.
Qed.

Lemma capacity_set c key v now : LRU.capacity (LRU.set c key v now) = LRU.capacity c.
Proof. reflexivity. Qed.

Lemma capacity_step c op : LRU.capacity (LRU.step c op) = LRU.capacity c.
Proof.
  destruct op as [key v now|key now]; simpl; [reflexivity|].
  unfold LRU.get. destruct (JsMap.get (LRU.cache c) key) as [it|]; [|reflexivity].
  now destruct (now - timestamp it >? LRU.ttl c).
Qed.

Lemma ttl_step c op : LRU.ttl (LRU.step c op) = LRU.ttl c.
Proof.
  destruct op as [key v now|key now]; simpl; [reflexivity|].
  unfold LRU.get. destruct (JsMap.get (LRU.cache c) key) as [it|]; [|reflexivity].
  now destruct (now - timestamp it >? LRU.ttl c).
Qed.

Lemma size_set_bound c key v now :
  LRU.size c <= Z.max (LRU.capacity c) 1 ->
  LRU.size (LRU.set c key v now) <= Z.max (LRU.capacity c) 1.
Proof.
  intros Hb. rewrite set_unfold. unfold LRU.size in *. simpl.
  set (m1 := JsMap.delete (LRU.cache c) key).
  pose proof (evicted_size_bound (LRU.capacity c) m1) as He.
  pose proof (length_set_le (LRU.evicted (LRU.capacity c) m1) key
                {| value := v; timestamp := now |}) as Hs.
  pose proof (JsMapFacts.length_delete_le (LRU.cache c) key) as Hd.
  fold m1 in Hd. unfold JsMap.size in *. lia.
Qed.

Lemma size_get_bound c key now :
  LRU.size (snd (LRU.get c key now)) <= LRU.size c.
Proof.
  unfold LRU.get, LRU.size, JsMap.size.
  destruct (JsMap.get (LRU.cache c) key) as [it|] eqn:G; simpl; [|lia].
  assert (Hlt : (List.length (JsMap.delete (LRU.cache c) key)
                 < List.length (LRU.cache c))%nat)
    by (apply length_delete_lt; congruence).
  destruct (now - timestamp it >? LRU.ttl c); simpl.
  - lia.
  - pose proof (length_set_le (JsMap.delete (LRU.cache c) key) key it). lia.
Qed.

Lemma size_step_bound c op :
  LRU.size c <= Z.max (LRU.capacity c) 1 ->
  LRU.size (LRU.step c op) <= Z.max (LRU.capacity c) 1.
Proof.
  destruct op as [key v now|key now]; simpl.
  - apply size_set_bound.
  - pose proof (size_get_bound c key now). lia.
Qed.

Lemma capacity_run ops : forall c, LRU.capacity (LRU.run c ops) = LRU.capacity c.
Proof.
  unfold LRU.run.
  induction ops as [|op ops IH]; intros c; simpl; [reflexivity|].
  now rewrite IH, capacity_step.
Qed.

Lemma size_run_bound ops : forall c,
  LRU.size c <= Z.max (LRU.capacity c) 1 ->
  LRU.size (LRU.run c ops) <= Z.max (LRU.capacity c) 1.
Proof.
  unfold LRU.run.
  induction ops as [|op ops IH]; intros c Hb; simpl; [assumption|].
  rewrite <- (capacity_step c op). apply IH.
  rewrite capacity_step. now apply size_step_bound.
Qed.

End Facts.
End LRUFacts.

(** ** Recency order of the LRU cache *)

Module LRURecency.
Import LRUFacts.
Section Facts.
Context {V : Type}.
Implicit Types (c : LRU.LRUCache V) (m : JsMap.t string (Item V))
  (key k h : string) (v : V) (now : Z) (past : list string).

Lemma lastTouch_le past k : (LRU.lastTouch past k <= List.length past)%nat.
Proof.
  induction past as [|k' older IH]; simpl; [lia|].
  destruct (String.eqb k' k); lia.
Qed.

Lemma lastTouch_newest past k : LRU.lastTouch (k :: past) k = S (List.length past).
Proof. simpl. now rewrite String.eqb_refl. Qed.

Lemma lastTouch_other past k k' :
  k' <> k -> LRU.lastTouch (k :: past) k' = LRU.lastTouch past k'.
Proof.
  intros N. simpl. destruct (String.eqb k k') eqn:E; [|reflexivity].
  apply String.eqb_eq in E. congruence.
Qed.

Lemma touchedBefore_irrefl past k : ~ LRU.touchedBefore past k k.
Proof. unfold LRU.touchedBefore. lia. Qed.

Lemma sorted_touch past (l : list string) k :
  StronglySorted (LRU.touchedBefore past) l -> ~ In k l ->
  StronglySorted (LRU.touchedBefore (k :: past)) (l ++ [k]).
Proof.
  intros Hs Hn. apply StronglySorted_snoc.
  - apply (StronglySorted_change (LRU.touchedBefore past)); [|assumption].
    intros x y Hx Hy. unfold LRU.touchedBefore.
    rewrite !lastTouch_other; [tauto| |]; intros ->; contradiction.
  - apply Forall_forall. intros x Hx. unfold LRU.touchedBefore.
    rewrite lastTouch_newest, lastTouch_other by (intros ->; contradiction).
    pose proof (lastTouch_le past x). lia.
Qed.

Lemma sorted_delete past m key :
  StronglySorted (LRU.touchedBefore past) (JsMap.keys m) ->
  StronglySorted (LRU.touchedBefore past) (JsMap.keys (JsMap.delete m key)).
Proof.
  intros Hs. rewrite JsMapFacts.keys_delete. now apply StronglySorted_filter_keep.
Qed.

Lemma sorted_evicted past cap m :
  StronglySorted (LRU.touchedBefore past) (JsMap.keys m) ->
  StronglySorted (LRU.touchedBefore past) (JsMap.keys (LRU.evicted cap m)).
Proof.
  intros Hs. unfold LRU.evicted.
  destruct (JsMap.size m >=? cap); [|assumption].
  destruct (JsMap.first_key m); [now apply sorted_delete|assumption].
Qed.

Lemma byRecency_set c key v now past :
  LRU.byRecency c past -> LRU.byRecency (LRU.set c key v now) (key :: past).
Proof.
  unfold LRU.byRecency, LRU.order. intros Hs. rewrite set_unfold. simpl.
  assert (G : JsMap.get (LRU.evicted (LRU.capacity c)
                           (JsMap.delete (LRU.cache c) key)) key = None)
    by (apply evicted_get_absent, JsMapFacts.get_delete_same).
  rewrite JsMapFacts.keys_set_absent by exact G.
  apply sorted_touch.
  - now apply sorted_evicted, sorted_delete.
  - now apply JsMapFacts.get_None_notin.
Qed.

Lemma byRecency_step c op past :
  LRU.byRecency c past ->
  LRU.byRecency (LRU.step c op)
    (match LRU.touched c op with Some k => k :: past | None => past end).
Proof.
  intros Hs. destruct op as [key v now|key now]; simpl.
  - now apply byRecency_set.
  - unfold LRU.get. destruct (JsMap.get (LRU.cache c) key) as [it|]; [|assumption].
    destruct (now - timestamp it >? LRU.ttl c); simpl.
    + now apply sorted_delete.
    + unfold LRU.byRecency, LRU.order. simpl.
      rewrite JsMapFacts.keys_set_absent by apply JsMapFacts.get_delete_same.
      apply sorted_touch; [now apply sorted_delete|].
      apply JsMapFacts.get_None_notin, JsMapFacts.get_delete_same.
Qed.

Lemma byRecency_run ops : forall c past,
  LRU.byRecency c past ->
  LRU.byRecency (LRU.run c ops) (LRU.history c ops past).
Proof.
  unfold LRU.run.
  induction ops as [|op ops IH]; intros c past Hs; simpl; [assumption|].
  apply IH. now apply byRecency_step.
Qed.

Lemma byRecency_new cap t : LRU.byRecency (LRU.new cap t : LRU.LRUCache V) [].
Proof. constructor. Qed.

(** Inserting a new key into a full cache removes the first key of the
    map, and that key is the least recently touched one. *)
Lemma set_evicts_oldest c past key v now h :
  LRU.byRecency c past ->
  JsMap.get (LRU.cache c) key = None ->
  LRU.size c >= LRU.capacity c ->
  JsMap.first_key (LRU.cache c) = Some h ->
  LRU.order (LRU.set c key v now) = tl (LRU.order c) ++ [key]
  /\ JsMap.get (LRU.cache (LRU.set c key v now)) h = None
  /\ forall k', In k' (LRU.order c) -> k' <> h -> LRU.touchedBefore past h k'.
Proof.
  unfold LRU.byRecency, LRU.order, LRU.size. intros Hs G Hfull Hfirst.
  rewrite set_unfold. simpl.
  rewrite (JsMapFacts.delete_absent _ _ G).
  destruct (LRU.cache c) as [|[h' it] r] eqn:Ec; [discriminate|].
  simpl in Hfirst. injection Hfirst as ->.
  simpl in Hs. inversion Hs as [|? ? Hs' Hall]; subst.
  assert (Hnd : ~ In h (JsMap.keys r)).
  { intros Hin. rewrite Forall_forall in Hall.
    exact (touchedBefore_irrefl past h (Hall h Hin)). }
  assert (Hev : LRU.evicted (LRU.capacity c) ((h, it) :: r) = r).
  { unfold LRU.evicted.
    replace (JsMap.size ((h, it) :: r) >=? LRU.capacity c) with true
      by (symmetry; rewrite Z.geb_leb; apply Z.leb_le; lia).
    simpl. rewrite String.eqb_refl.
    apply JsMapFacts.delete_absent. now apply JsMapFacts.get_None_notin. }
  rewrite Hev.
  assert (Gr : JsMap.get r key = None).
  { simpl in G. destruct (String.eqb h key); [discriminate|assumption]. }
  assert (Hne : key <> h).
  { intros ->. simpl in G. now rewrite String.eqb_refl in G. }
  split; [|split].
  - simpl. now apply JsMapFacts.keys_set_absent.
  - rewrite JsMapFacts.get_set_other by assumption.
    now apply JsMapFacts.get_None_notin.
  - intros k' Hin Hk. simpl in Hin. destruct Hin as [E|Hin]; [congruence|].
    rewrite Forall_forall in Hall. now apply Hall.
Qed.

End Facts.
End LRURecency.

(** ** The sweep loop *)

Section Sweep.
Context {K A : Type} `{KeyEq K}.
Implicit Types (m acc : JsMap.t K (Item A)) (e : K * Item A).

Lemma sweep_fold_in now ttl (l : list (K * Item A)) : forall acc e,
  In e (fold_left (sweepBody now ttl) l acc) <->
  In e acc /\
  forall e', In e' l -> (now - timestamp (snd e') >? ttl) = true -> fst e <> fst e'.
Proof.
  induction l as [|[k it] l IH]; intros acc e; simpl.
  - tauto.
  - rewrite IH. destruct (now - timestamp it >? ttl) eqn:E.
    + rewrite JsMapFacts.in_delete. split.
      * intros [[Hin Hk] Hl]. split; [assumption|].
        intros e' [<-|He'] Hexp; [assumption|now apply Hl].
      * intros [Hin Hl]. split; [split|]; [assumption| |].
        -- apply (Hl (k, it)); [now left|assumption].
        -- intros e' He'. apply Hl. now right.
    + split.
      * intros [Hin Hl]. split; [assumption|].
        intros e' [<-|He'] Hexp; [simpl in Hexp; congruence|now apply Hl].
      * intros [Hin Hl]. split; [assumption|].
        intros e' He'. apply Hl. now right.
Qed.

Lemma wf_same_key m e e' :
  JsMap.wf m -> In e m -> In e' m -> fst e = fst e' -> e = e'.
Proof.
  intros Hwf He He' Hk. destruct e as [k v], e' as [k' v']. simpl in Hk. subst k'.
  apply (JsMapFacts.in_get_wf _ _ _ Hwf) in He.
  apply (JsMapFacts.in_get_wf _ _ _ Hwf) in He'. congruence.
Qed.

(** The loop removes exactly the entries older than the TTL. *)
Lemma sweepLoop_in m now ttl e :
  JsMap.wf m ->
  (In e (sweepLoop m now ttl) <-> In e m /\ ~ now - timestamp (snd e) > ttl).
Proof.
  intros Hwf. unfold sweepLoop. rewrite sweep_fold_in. split.
  - intros [Hin Hl]. split; [assumption|].
    intros Hgt. apply (Hl e Hin); [|reflexivity].
    apply Z.gtb_lt. lia.
  - intros [Hin Hfresh]. split; [assumption|].
    intros e' He' Hexp Hk.
    rewrite (wf_same_key m e e' Hwf Hin He' Hk) in Hfresh.
    apply Z.gtb_lt in Hexp. lia.
Qed.

Lemma sweep_fold_wf now ttl (l : list (K * Item A)) : forall acc,
  JsMap.wf acc -> JsMap.wf (fold_left (sweepBody now ttl) l acc).
Proof.
  induction l as [|[k it] l IH]; intros acc Hwf; simpl; [assumption|].
  apply IH. destruct (now - timestamp it >? ttl); [|assumption].
  now apply JsMapFacts.wf_delete.
Qed.

Lemma sweepLoop_wf m now ttl : JsMap.wf m -> JsMap.wf (sweepLoop m now ttl).
Proof. apply sweep_fold_wf. Qed.

Lemma sweep_fold_absent now ttl k (l : list (K * Item A)) : forall acc,
  JsMap.get acc k = None -> JsMap.get (fold_left (sweepBody now ttl) l acc) k = None.
Proof.
  induction l as [|[k' it] l IH]; intros acc G; simpl; [assumption|].
  apply IH. destruct (now - timestamp it >? ttl); [|assumption].
  apply JsMapFacts.get_None_notin. rewrite JsMapFacts.keys_delete.
  intros Hin. apply filter_In in Hin. destruct Hin as [Hin _].
  now apply JsMapFacts.get_None_notin in G.
Qed.

Lemma sweepLoop_absent m now ttl k :
  JsMap.get m k = None -> JsMap.get (sweepLoop m now ttl) k = None.
Proof. apply sweep_fold_absent. Qed.

End Sweep.

(** ** The getters of the namespaced caches: hit and miss equations *)

Ltac run_js :=
  cbv beta delta [bind ret readCACHE updateCACHE await try_catch] iota; simpl.

Ltac getter_cases :=
  run_js;
  repeat match goal with
  | |- context [match JsMap.get ?m ?k with _ => _ end] =>
      destruct (JsMap.get m k) as [?cached|] eqn:?G
  | |- context [if ?a <? ?b then _ else _] => destruct (a <? b) eqn:?E
  | |- context [match ?f ?db ?k with Returned _ => _ | Thrown _ => _ end] =>
      destruct (f db k) eqn:?D
  | |- context [match ?f ?db with Returned _ => _ | Thrown _ => _ end] =>
      destruct (f db) eqn:?D
  end; simpl.

Ltac case_fresh G :=
  match goal with
  | |- context [JsMap.get ?m ?k] =>
      destruct (JsMap.get m k) as [cached|] eqn:G
  end.

Section Getters.
Implicit Types (db : DB) (w : World) (now : Z).

Lemma Zltb_false_ge a b : b <= a -> (a <? b) = false.
Proof. intros. apply Z.ltb_ge. lia. Qed.

Lemma Zltb_true_lt a b : a < b -> (a <? b) = true.
Proof. intros. apply Z.ltb_lt. lia. Qed.

Lemma getCachedMailboxId_hit db address now now' w cached :
  isEmpty (normalized address) = false ->
  JsMap.get (mailboxIds (mem w)) (normalized address) = Some cached ->
  now - timestamp cached < CACHE_TTL.mailboxId ->
  getCachedMailboxId db address now now' w = (Returned (value cached), w).
Proof.
  intros Hne G Hlt. unfold getCachedMailboxId. rewrite Hne. run_js.
  rewrite G. now rewrite (Zltb_true_lt _ _ Hlt).
Qed.

Lemma getCachedMailboxId_miss db address now now' w :
  isEmpty (normalized address) = false ->
  stale (JsMap.get (mailboxIds (mem w)) (normalized address)) now CACHE_TTL.mailboxId ->
  getCachedMailboxId db address now now' w =
  match select_mailbox_id db (normalized address) with
  | Returned res =>
      (Returned (firstId res),
       stored (logged w [SelectMailboxId (normalized address)])
         (with_mailboxIds (mem w)
            (JsMap.set (mailboxIds (mem w)) (normalized address)
               {| value := firstId res; timestamp := now' |})))
  | Thrown e => (Thrown e, logged w [SelectMailboxId (normalized address)])
  end.
Proof.
  intros Hne Hold. unfold getCachedMailboxId. rewrite Hne. run_js.
  case_fresh G.
  - rewrite (Zltb_false_ge _ _ (Hold _ eq_refl)).
    now destruct (select_mailbox_id db (normalized address)).
  - now destruct (select_mailbox_id db (normalized address)).
Qed.

Lemma getCachedMailboxId_empty db address now now' w :
  isEmpty (normalized address) = true ->
  getCachedMailboxId db address now now' w = (Returned None, w).
Proof. intros He. unfold getCachedMailboxId. now rewrite He. Qed.

Lemma getCachedTableStructure_hit db tableName now now' w cached :
  JsMap.get (tableStructures (mem w)) tableName = Some cached ->
  now - timestamp cached < CACHE_TTL.tableStructure ->
  getCachedTableStructure db tableName now now' w = (Returned (value cached), w).
Proof.
  intros G Hlt. unfold getCachedTableStructure. run_js.
  rewrite G. now rewrite (Zltb_true_lt _ _ Hlt).
Qed.

Lemma getCachedTableStructure_miss db tableName now now' w :
  stale (JsMap.get (tableStructures (mem w)) tableName) now CACHE_TTL.tableStructure ->
  getCachedTableStructure db tableName now now' w =
  match pragma_table_info db tableName with
  | Returned res =>
      (Returned (map toColumn (resultsOrEmpty res)),
       stored (logged w [PragmaTableInfo tableName])
         (with_tableStructures (mem w)
            (JsMap.set (tableStructures (mem w)) tableName
               {| value := map toColumn (resultsOrEmpty res); timestamp := now' |})))
  | Thrown e => (Returned [], logged w [PragmaTableInfo tableName])
  end.
Proof.
  intros Hold. unfold getCachedTableStructure. run_js.
  case_fresh G.
  - rewrite (Zltb_false_ge _ _ (Hold _ eq_refl)).
    now destruct (pragma_table_info db tableName).
  - now destruct (pragma_table_info db tableName).
Qed.

Lemma getCachedUserQuota_hit db userId now now' w cached :
  JsMap.get (userQuotas (mem w)) userId = Some cached ->
  now - timestamp cached < CACHE_TTL.userQuota ->
  getCachedUserQuota db userId now now' w = (Returned (value cached), w).
Proof.
  intros G Hlt. unfold getCachedUserQuota. run_js.
  rewrite G. now rewrite (Zltb_true_lt _ _ Hlt).
Qed.

Lemma getCachedUserQuota_miss db userId now now' w :
  stale (JsMap.get (userQuotas (mem w)) userId) now CACHE_TTL.userQuota ->
  getCachedUserQuota db userId now now' w =
  match select_mailbox_limit db userId with
  | Returned ures =>
      match count_user_mailboxes db userId with
      | Returned cres =>
          (Returned ({| used := usedOf cres; limit := limitOf ures |}),
           stored (logged (logged w [SelectMailboxLimit userId])
                     [CountUserMailboxes userId])
             (with_userQuotas (mem w)
                (JsMap.set (userQuotas (mem w)) userId
                   {| value := {| used := usedOf cres; limit := limitOf ures |};
                      timestamp := now' |})))
      | Thrown e =>
          (Thrown e,
           logged (logged w [SelectMailboxLimit userId])
             [CountUserMailboxes userId])
      end
  | Thrown e => (Thrown e, logged w [SelectMailboxLimit userId])
  end.
Proof.
  intros Hold. unfold getCachedUserQuota. run_js.
  case_fresh G.
  - rewrite (Zltb_false_ge _ _ (Hold _ eq_refl)).
    destruct (select_mailbox_limit db userId); [|reflexivity].
    now destruct (count_user_mailboxes db userId).
  - destruct (select_mailbox_limit db userId); [|reflexivity].
    now destruct (count_user_mailboxes db userId).
Qed.

Lemma getCachedSystemStat_hit db statKey queryFn now now' w cached :
  JsMap.get (systemStats (mem w)) statKey = Some cached ->
  now - timestamp cached < CACHE_TTL.systemStats ->
  getCachedSystemStat db statKey queryFn now now' w = (Returned (value cached), w).
Proof.
  intros G Hlt. unfold getCachedSystemStat. run_js.
  rewrite G. now rewrite (Zltb_true_lt _ _ Hlt).
Qed.

Lemma getCachedSystemStat_miss db statKey queryFn now now' w :
  stale (JsMap.get (systemStats (mem w)) statKey) now CACHE_TTL.systemStats ->
  getCachedSystemStat db statKey queryFn now now' w =
  match queryFn db with
  | Returned n =>
      (Returned n,
       stored (logged w [QueryFn statKey])
         (with_systemStats (mem w)
            (JsMap.set (systemStats (mem w)) statKey
               {| value := n; timestamp := now' |})))
  | Thrown e => (Thrown e, logged w [QueryFn statKey])
  end.
Proof.
  intros Hold. unfold getCachedSystemStat. run_js.
  case_fresh G.
  - rewrite (Zltb_false_ge _ _ (Hold _ eq_refl)).
    now destruct (queryFn db).
  - now destruct (queryFn db).
Qed.

End Getters.

(** ** Well-formedness of the cache object is preserved *)

Ltac solve_cacheWf :=
  match goal with
  | H : cacheWf _ |- _ => destruct H as (?Ht & ?Hm & ?Hq & ?Hs)
  end;
  unfold cacheWf; simpl;
  repeat split;
  first [ assumption
        | apply JsMapFacts.wf_set; assumption
        | apply JsMapFacts.wf_delete; assumption
        | apply sweepLoop_wf; assumption
        | apply NoDup_nil ].

Lemma cacheWf_initial now : cacheWf (initialCACHE now).
Proof. unfold cacheWf. simpl. repeat split; apply NoDup_nil. Qed.

Lemma cacheWf_getCachedTableStructure db t now now' w :
  cacheWf (mem w) -> cacheWf (mem (snd (getCachedTableStructure db t now now' w))).
Proof. intros Hwf. unfold getCachedTableStructure. getter_cases; solve_cacheWf. Qed.

Lemma cacheWf_getCachedMailboxId db a now now' w :
  cacheWf (mem w) -> cacheWf (mem (snd (getCachedMailboxId db a now now' w))).
Proof.
  intros Hwf. unfold getCachedMailboxId.
  destruct (isEmpty (normalized a)); [assumption|].
  getter_cases; solve_cacheWf.
Qed.

Lemma cacheWf_getCachedUserQuota db u now now' w :
  cacheWf (mem w) -> cacheWf (mem (snd (getCachedUserQuota db u now now' w))).
Proof. intros Hwf. unfold getCachedUserQuota. getter_cases; solve_cacheWf. Qed.

Lemma cacheWf_getCachedSystemStat db k q now now' w :
  cacheWf (mem w) -> cacheWf (mem (snd (getCachedSystemStat db k q now now' w))).
Proof. intros Hwf. unfold getCachedSystemStat. getter_cases; solve_cacheWf. Qed.

Lemma snd_hasColumn db t col now now' w :
  snd (hasColumn db t col now now' w) = snd (getCachedTableStructure db t now now' w).
Proof.
  unfold hasColumn, bind.
  destruct (getCachedTableStructure db t now now' w) as [[cols|e] w']; reflexivity.
Qed.

Lemma exec_cacheWf call w : cacheWf (mem w) -> cacheWf (mem (exec call w)).
Proof.
  intros Hwf. destruct call; simpl.
  - now apply cacheWf_getCachedTableStructure.
  - rewrite snd_hasColumn. now apply cacheWf_getCachedTableStructure.
  - now apply cacheWf_getCachedMailboxId.
  - unfold updateMailboxIdCache.
    destruct (isEmpty (normalized address) || falsyId id); [assumption|solve_cacheWf].
  - unfold invalidateMailboxCache. solve_cacheWf.
  - now apply cacheWf_getCachedUserQuota.
  - unfold invalidateUserQuotaCache. solve_cacheWf.
  - now apply cacheWf_getCachedSystemStat.
  - unfold invalidateSystemStatCache.
    destruct statKey as [k|]; [destruct (isEmpty k)|]; solve_cacheWf.
  - unfold clearExpiredCache.
    destruct (now - lastClearTime (mem w) <? CACHE_TTL.clearInterval);
      [assumption|solve_cacheWf].
  - apply cacheWf_initial.
Qed.

(** Every state the module can reach has well-formed maps. *)
Lemma execAll_cacheWf calls : forall w,
  cacheWf (mem w) -> cacheWf (mem (execAll calls w)).
Proof.
  unfold execAll. induction calls as [|call calls IH]; intros w Hwf; simpl; [assumption|].
  apply IH. now apply exec_cacheWf.
Qed.

(** * The claims *)

(** ** C1: loader failures *)

(** C1, as stated, fails for the schema-columns namespace: when the
    [PRAGMA table_info] read throws, [getCachedTableStructure] returns
    the empty column list instead of the error. *)
Lemma C1_table_structure_masks_failure :
  fst (getCachedTableStructure (failingDB "D1_ERROR") "mailboxes" 0 0 freshWorld)
    = Returned []
  /\ fst (getCachedTableStructure (failingDB "D1_ERROR") "mailboxes" 0 0 freshWorld)
       <> Thrown "D1_ERROR".
Proof. split; [reflexivity|discriminate]. Qed.

(** C1 (amended).  When the backing-store read of a get-or-load throws
    [e] on a miss, the address, quota and statistic getters throw [e]
    unchanged and leave the cache object as it was; the database was
    accessed once (twice when the second quota query is the one that
    throws).  The schema getter also records no cache entry, but it
    catches the error and returns the empty column list. *)
Theorem C1_loader_failure :
  forall (db : DB) (w : World) (now now' : Z) (e : JsError),
    (forall address,
        isEmpty (normalized address) = false ->
        stale (JsMap.get (mailboxIds (mem w)) (normalized address)) now CACHE_TTL.mailboxId ->
        select_mailbox_id db (normalized address) = Thrown e ->
        getCachedMailboxId db address now now' w
        = (Thrown e, logged w [SelectMailboxId (normalized address)]))
    /\ (forall userId,
        stale (JsMap.get (userQuotas (mem w)) userId) now CACHE_TTL.userQuota ->
        select_mailbox_limit db userId = Thrown e ->
        getCachedUserQuota db userId now now' w
        = (Thrown e, logged w [SelectMailboxLimit userId]))
    /\ (forall userId ures,
        stale (JsMap.get (userQuotas (mem w)) userId) now CACHE_TTL.userQuota ->
        select_mailbox_limit db userId = Returned ures ->
        count_user_mailboxes db userId = Thrown e ->
        getCachedUserQuota db userId now now' w
        = (Thrown e, logged (logged w [SelectMailboxLimit userId])
                       [CountUserMailboxes userId]))
    /\ (forall statKey queryFn,
        stale (JsMap.get (systemStats (mem w)) statKey) now CACHE_TTL.systemStats ->
        queryFn db = Thrown e ->
        getCachedSystemStat db statKey queryFn now now' w
        = (Thrown e, logged w [QueryFn statKey]))
    /\ (forall tableName,
        stale (JsMap.get (tableStructures (mem w)) tableName) now CACHE_TTL.tableStructure ->
        pragma_table_info db tableName = Thrown e ->
        getCachedTableStructure db tableName now now' w
        = (Returned [], logged w [PragmaTableInfo tableName])).
Proof.
  intros db w now now' e. repeat split.
  - intros address Hne Hold Hdb.
    now rewrite getCachedMailboxId_miss, Hdb.
  - intros userId Hold Hdb.
    now rewrite getCachedUserQuota_miss, Hdb.
  - intros userId ures Hold Hdb1 Hdb2.
    now rewrite getCachedUserQuota_miss, Hdb1, Hdb2.
  - intros statKey queryFn Hold Hdb.
    now rewrite getCachedSystemStat_miss, Hdb.
  - intros tableName Hold Hdb.
    now rewrite getCachedTableStructure_miss, Hdb.
Qed.

Lemma C1_loader_failure_witness :
  getCachedMailboxId (failingDB "D1_ERROR") (Some "a@x.com") 5 6 freshWorld
    = (Thrown "D1_ERROR", logged freshWorld [SelectMailboxId "a@x.com"])
  /\ getCachedUserQuota (failingDB "D1_ERROR") 1 5 6 freshWorld
    = (Thrown "D1_ERROR", logged freshWorld [SelectMailboxLimit 1])
  /\ getCachedSystemStat (failingDB "D1_ERROR") "total_mailboxes"
       (fun _ => Thrown "D1_ERROR") 5 6 freshWorld
    = (Thrown "D1_ERROR", logged freshWorld [QueryFn "total_mailboxes"])
  /\ getCachedTableStructure (failingDB "D1_ERROR") "mailboxes" 5 6 freshWorld
    = (Returned [], logged freshWorld [PragmaTableInfo "mailboxes"]).
Proof.
  destruct (C1_loader_failure (failingDB "D1_ERROR") freshWorld 5 6 "D1_ERROR")
    as (Hm & Hq & _ & Hs & Ht).
  split; [|split; [|split]].
  - apply (Hm (Some "a@x.com")); [reflexivity|intros x; discriminate|reflexivity].
  - apply (Hq 1); [intros x; discriminate|reflexivity].
  - apply (Hs "total_mailboxes" (fun _ => Thrown "D1_ERROR"));
      [intros x; discriminate|reflexivity].
  - apply (Ht "mailboxes"); [intros x; discriminate|reflexivity].
Defined.

(** ** C2: what a sweep removes *)

(** C2, as stated, fails for the schema-columns namespace: a sweep that
    runs two hours after the cache was loaded leaves the two-hour-old
    table structure in place, although its TTL is one hour. *)
Lemma C2_sweep_skips_table_structures :
  7200000 - lastClearTime sampleCACHE >= CACHE_TTL.clearInterval
  /\ JsMap.get (tableStructures sampleCACHE) "users"
       = Some {| value := []; timestamp := 0 |}
  /\ 7200000 - 0 > CACHE_TTL.tableStructure
  /\ JsMap.get (tableStructures (clearExpiredCache 7200000 sampleCACHE)) "users"
       = Some {| value := []; timestamp := 0 |}.
Proof.
  split; [vm_compute; discriminate|].
  split; [reflexivity|]. split; reflexivity.
Qed.

(** C2 (amended).  When the gate lets a sweep run at time [now], the
    pass covers three namespaces, address-to-identifier, per-user quota
    and named statistic: an entry of one of them survives exactly when
    its age does not exceed that namespace's TTL.  The schema-columns
    namespace is not swept: it is left as it was. *)
Theorem C2_sweep_removes_expired :
  forall (c : CACHE) (now : Z),
    JsMap.wf (mailboxIds c) -> JsMap.wf (userQuotas c) -> JsMap.wf (systemStats c) ->
    now - lastClearTime c >= CACHE_TTL.clearInterval ->
    let c' := clearExpiredCache now c in
    (forall e, In e (mailboxIds c') <->
               In e (mailboxIds c) /\ ~ now - timestamp (snd e) > CACHE_TTL.mailboxId)
    /\ (forall e, In e (userQuotas c') <->
                  In e (userQuotas c) /\ ~ now - timestamp (snd e) > CACHE_TTL.userQuota)
    /\ (forall e, In e (systemStats c') <->
                  In e (systemStats c) /\ ~ now - timestamp (snd e) > CACHE_TTL.systemStats)
    /\ tableStructures c' = tableStructures c
    /\ lastClearTime c' = now.
Proof.
  intros c now Hm Hq Hs Hgate c'. subst c'. unfold clearExpiredCache.
  rewrite Zltb_false_ge by lia. simpl.
  split; [|split; [|split; [|split]]]; try reflexivity;
    intros e; apply sweepLoop_in; assumption.
Qed.

Lemma C2_sweep_removes_expired_witness :
  (forall e, In e (mailboxIds (clearExpiredCache 7200000 sampleCACHE)) <->
             In e (mailboxIds sampleCACHE)
             /\ ~ 7200000 - timestamp (snd e) > CACHE_TTL.mailboxId)
  /\ mailboxIds (clearExpiredCache 7200000 sampleCACHE) = []
  /\ lastClearTime (clearExpiredCache 7200000 sampleCACHE) = 7200000.
Proof.
  assert (Hwf1 : JsMap.wf (mailboxIds sampleCACHE))
    by (apply NoDup_cons; [intros []|apply NoDup_nil]).
  assert (Hwf2 : JsMap.wf (userQuotas sampleCACHE)) by apply NoDup_nil.
  assert (Hwf3 : JsMap.wf (systemStats sampleCACHE)) by apply NoDup_nil.
  assert (Hgate : 7200000 - lastClearTime sampleCACHE >= CACHE_TTL.clearInterval)
    by (vm_compute; discriminate).
  destruct (C2_sweep_removes_expired sampleCACHE 7200000 Hwf1 Hwf2 Hwf3 Hgate)
    as (Hm & _ & _ & _ & Ht).
  split; [exact Hm|split; [reflexivity|exact Ht]].
Defined.

(** ** C3: which entry a key addresses *)

Lemma getCachedTableStructure_frame db tableName now now' w k' :
  k' <> tableName ->
  JsMap.get (tableStructures (mem (snd (getCachedTableStructure db tableName now now' w)))) k'
  = JsMap.get (tableStructures (mem w)) k'.
Proof.
  intros N. unfold getCachedTableStructure. getter_cases;
    try reflexivity; apply JsMapFacts.get_set_other; congruence.
Qed.

Lemma getCachedUserQuota_frame db userId now now' w k' :
  k' <> userId ->
  JsMap.get (userQuotas (mem (snd (getCachedUserQuota db userId now now' w)))) k'
  = JsMap.get (userQuotas (mem w)) k'.
Proof.
  intros N. unfold getCachedUserQuota. getter_cases;
    try reflexivity; apply JsMapFacts.get_set_other; congruence.
Qed.

Lemma getCachedSystemStat_frame db statKey queryFn now now' w k' :
  k' <> statKey ->
  JsMap.get (systemStats (mem (snd (getCachedSystemStat db statKey queryFn now now' w)))) k'
  = JsMap.get (systemStats (mem w)) k'.
Proof.
  intros N. unfold getCachedSystemStat. getter_cases;
    try reflexivity; apply JsMapFacts.get_set_other; congruence.
Qed.

Lemma getCachedMailboxId_frame db address now now' w k' :
  k' <> normalized address ->
  JsMap.get (mailboxIds (mem (snd (getCachedMailboxId db address now now' w)))) k'
  = JsMap.get (mailboxIds (mem w)) k'.
Proof.
  intros N. unfold getCachedMailboxId.
  destruct (isEmpty (normalized address)); [reflexivity|].
  getter_cases; try reflexivity; apply JsMapFacts.get_set_other; congruence.
Qed.

Lemma updateMailboxIdCache_frame address id now c k' :
  k' <> normalized address ->
  JsMap.get (mailboxIds (updateMailboxIdCache address id now c)) k'
  = JsMap.get (mailboxIds c) k'.
Proof.
  intros N. unfold updateMailboxIdCache.
  destruct (isEmpty (normalized address) || falsyId id); [reflexivity|].
  simpl. apply JsMapFacts.get_set_other. congruence.
Qed.

Lemma invalidateMailboxCache_frame address c k' :
  k' <> normalized address ->
  JsMap.get (mailboxIds (invalidateMailboxCache address c)) k'
  = JsMap.get (mailboxIds c) k'.
Proof.
  intros N. unfold invalidateMailboxCache. simpl.
  apply JsMapFacts.get_delete_other. congruence.
Qed.

(** C3, as stated, fails for the address-to-identifier namespace: an
    identifier stored under [" Alice@X.com "] is served to a lookup of
    ["alice@x.com"] without any database access, and is removed by an
    invalidation of ["ALICE@x.com"]. *)
Lemma C3_address_keys_are_normalized :
  let w1 := onCACHE (updateMailboxIdCache (Some " Alice@X.com ") (Some 5) 0) freshWorld in
  " Alice@X.com " <> "alice@x.com"
  /\ getCachedMailboxId (failingDB "no access") (Some "alice@x.com") 1 1 w1
     = (Returned (Some 5), w1)
  /\ mailboxIds (invalidateMailboxCache (Some "ALICE@x.com") (mem w1)) = [].
Proof. split; [discriminate|split; reflexivity]. Qed.

(** C3 (amended).  The schema, quota and statistic getters use the key
    they are given as an exact-match value: without an entry under
    exactly that key they go to the backing store, and they leave the
    entry of every other key as it is.  The three address operations
    normalize the address themselves (trim, then lower-case): two
    addresses with the same normal form address the same entry, and the
    entry of every key other than that normal form is left as it is. *)
Theorem C3_key_matching :
  forall (db : DB) (w : World) (now now' : Z),
    (forall a a', normalized a = normalized a' ->
        getCachedMailboxId db a now now' w = getCachedMailboxId db a' now now' w
        /\ (forall id, updateMailboxIdCache a id now (mem w)
                       = updateMailboxIdCache a' id now (mem w))
        /\ invalidateMailboxCache a (mem w) = invalidateMailboxCache a' (mem w))
    /\ (forall a id k', k' <> normalized a ->
        JsMap.get (mailboxIds (mem (snd (getCachedMailboxId db a now now' w)))) k'
          = JsMap.get (mailboxIds (mem w)) k'
        /\ JsMap.get (mailboxIds (updateMailboxIdCache a id now (mem w))) k'
          = JsMap.get (mailboxIds (mem w)) k'
        /\ JsMap.get (mailboxIds (invalidateMailboxCache a (mem w))) k'
          = JsMap.get (mailboxIds (mem w)) k')
    /\ (forall tableName,
        (JsMap.get (tableStructures (mem w)) tableName = None ->
         dbLog (snd (getCachedTableStructure db tableName now now' w))
           = dbLog w ++ [PragmaTableInfo tableName])
        /\ forall k', k' <> tableName ->
           JsMap.get (tableStructures (mem (snd (getCachedTableStructure db tableName now now' w)))) k'
           = JsMap.get (tableStructures (mem w)) k')
    /\ (forall userId,
        (JsMap.get (userQuotas (mem w)) userId = None ->
         exists rest, dbLog (snd (getCachedUserQuota db userId now now' w))
           = dbLog w ++ SelectMailboxLimit userId :: rest)
        /\ forall k', k' <> userId ->
           JsMap.get (userQuotas (mem (snd (getCachedUserQuota db userId now now' w)))) k'
           = JsMap.get (userQuotas (mem w)) k')
    /\ (forall statKey queryFn,
        (JsMap.get (systemStats (mem w)) statKey = None ->
         dbLog (snd (getCachedSystemStat db statKey queryFn now now' w))
           = dbLog w ++ [QueryFn statKey])
        /\ forall k', k' <> statKey ->
           JsMap.get (systemStats (mem (snd (getCachedSystemStat db statKey queryFn now now' w)))) k'
           = JsMap.get (systemStats (mem w)) k').
Proof.
  intros db w now now'. split; [|split; [|split; [|split]]].
  - intros a a' E. unfold getCachedMailboxId, updateMailboxIdCache, invalidateMailboxCache.
    rewrite E. repeat split.
  - intros a id k' N. split; [|split].
    + now apply getCachedMailboxId_frame.
    + now apply updateMailboxIdCache_frame.
    + now apply invalidateMailboxCache_frame.
  - intros tableName. split; [|intros k' N; now apply getCachedTableStructure_frame].
    intros G. rewrite getCachedTableStructure_miss by (intros e; rewrite G; discriminate).
    now destruct (pragma_table_info db tableName).
  - intros userId. split; [|intros k' N; now apply getCachedUserQuota_frame].
    intros G. rewrite getCachedUserQuota_miss by (intros e; rewrite G; discriminate).
    destruct (select_mailbox_limit db userId); [|now exists []].
    exists [CountUserMailboxes userId].
    destruct (count_user_mailboxes db userId); simpl; now rewrite <- app_assoc.
  - intros statKey queryFn. split; [|intros k' N; now apply getCachedSystemStat_frame].
    intros G. rewrite getCachedSystemStat_miss by (intros e; rewrite G; discriminate).
    now destruct (queryFn db).
Qed.

Lemma C3_key_matching_witness :
  getCachedMailboxId emptyDB (Some " A@X.com ") 1 2 sampleWorld
    = getCachedMailboxId emptyDB (Some "a@x.com") 1 2 sampleWorld
  /\ dbLog (snd (getCachedTableStructure emptyDB "Users" 1 2 sampleWorld))
     = [PragmaTableInfo "Users"]
  /\ JsMap.get (tableStructures (mem (snd (getCachedTableStructure emptyDB "Users" 1 2 sampleWorld)))) "users"
     = Some {| value := []; timestamp := 0 |}.
Proof.
  destruct (C3_key_matching emptyDB sampleWorld 1 2) as (Hn & _ & Ht & _ & _).
  destruct (Hn (Some " A@X.com ") (Some "a@x.com") eq_refl) as (Hg & _ & _).
  destruct (Ht "Users") as (Hmiss & Hframe).
  split; [exact Hg|split].
  - apply Hmiss. reflexivity.
  - rewrite Hframe; [reflexivity|discriminate].
Defined.

(** ** C4: read after set *)

(** C4, as stated, fails for the set of the address-to-identifier
    cache: [updateMailboxIdCache("a@x.com", null)] (and likewise id 0)
    writes nothing, so the lookup that follows still returns the older
    identifier 7, not the value just "set". *)
Lemma C4_update_skips_falsy_id :
  updateMailboxIdCache (Some "a@x.com") None 1 sampleCACHE = sampleCACHE
  /\ updateMailboxIdCache (Some "a@x.com") (Some 0) 1 sampleCACHE = sampleCACHE
  /\ fst (getCachedMailboxId emptyDB (Some "a@x.com") 2 2
            (onCACHE (updateMailboxIdCache (Some "a@x.com") None 1) sampleWorld))
     = Returned (Some 7)
  /\ fst (getCachedMailboxId emptyDB (Some "a@x.com") 2 2
            (onCACHE (updateMailboxIdCache (Some "a@x.com") None 1) sampleWorld))
     <> Returned None.
Proof.
  split; [reflexivity|]. split; [reflexivity|].
  split; [reflexivity|discriminate].
Qed.

(** C4 (amended).  In the bounded LRU store [set(k, v)] at time [t0] is
    an unconditional write: a [get(k)] at any [t1] with
    [t1 - t0 <= ttl] returns [v], for every [k] and [v].  The set of the
    address-to-identifier cache is guarded: it writes, with the fresh
    timestamp, only when the normalized address is non-empty and the id
    is truthy, and then a lookup of that address at any [t1] with
    [t1 - t0 < TTL] returns the id without a database access; with an
    empty normalized address or a falsy id it leaves the cache as it
    is. *)
Theorem C4_get_after_set :
  forall (V : Type) (c : LRU.LRUCache V) (k : string) (v : V)
         (w : World) (db : DB) (address : option string) (id : option Z)
         (t0 t1 t1' : Z),
    (t1 - t0 <= LRU.ttl c ->
     fst (LRU.get (LRU.set c k v t0) k t1) = Some v)
    /\ (isEmpty (normalized address) = false -> falsyId id = false ->
        t1 - t0 < CACHE_TTL.mailboxId ->
        let w0 := onCACHE (updateMailboxIdCache address id t0) w in
        JsMap.get (mailboxIds (mem w0)) (normalized address)
          = Some {| value := id; timestamp := t0 |}
        /\ getCachedMailboxId db address t1 t1' w0 = (Returned id, w0))
    /\ (isEmpty (normalized address) || falsyId id = true ->
        updateMailboxIdCache address id t0 (mem w) = mem w).
Proof.
  intros V c k v w db address id t0 t1 t1'. split; [|split].
  - intros Hage. rewrite LRUFacts.set_unfold. unfold LRU.get. simpl.
    rewrite JsMapFacts.get_set_same. simpl.
    replace (t1 - t0 >? LRU.ttl c) with false; [reflexivity|].
    symmetry. rewrite Z.gtb_ltb. apply Z.ltb_ge. lia.
  - intros Hne Hid Hage w0.
    assert (G : JsMap.get (mailboxIds (mem w0)) (normalized address)
                = Some {| value := id; timestamp := t0 |}).
    { subst w0. unfold onCACHE, updateMailboxIdCache. rewrite Hne, Hid. simpl.
      apply JsMapFacts.get_set_same. }
    split; [exact G|].
    now rewrite (getCachedMailboxId_hit db address t1 t1' w0 _ Hne G).
  - intros Hguard. unfold updateMailboxIdCache. now rewrite Hguard.
Qed.

Lemma C4_get_after_set_witness :
  fst (LRU.get (LRU.set (LRU.new 3 1000) "k" "v" 0) "k" 1000) = Some "v"
  /\ getCachedMailboxId emptyDB (Some " B@x.com") 599999 599999
       (onCACHE (updateMailboxIdCache (Some " B@x.com") (Some 9) 0) sampleWorld)
     = (Returned (Some 9),
        onCACHE (updateMailboxIdCache (Some " B@x.com") (Some 9) 0) sampleWorld)
  /\ updateMailboxIdCache (Some "  ") (Some 9) 0 (mem sampleWorld) = mem sampleWorld.
Proof.
  destruct (C4_get_after_set string (LRU.new 3 1000) "k" "v" sampleWorld emptyDB
              (Some " B@x.com") (Some 9) 0 1000 1000) as (Hlru & _ & _).
  destruct (C4_get_after_set string (LRU.new 3 1000) "k" "v" sampleWorld emptyDB
              (Some " B@x.com") (Some 9) 0 599999 599999) as (_ & Hset & _).
  destruct (C4_get_after_set string (LRU.new 3 1000) "k" "v" sampleWorld emptyDB
              (Some "  ") (Some 9) 0 1 1) as (_ & _ & Hguard).
  split; [|split].
  - apply Hlru. vm_compute. discriminate.
  - apply Hset; reflexivity.
  - apply Hguard. reflexivity.
Defined.

(** ** C5: the capacity bound and the eviction order of the LRU store *)

(** C5, as stated, fails for a capacity below 1: [set] evicts at most
    one key before it inserts, so a store built with capacity 0 holds
    one entry after its first [set]. *)
Lemma C5_capacity_zero_overflows :
  LRU.size (LRU.run (LRU.new 0 1000) [LRU.OpSet "a" "v" 0]) = 1
  /\ ~ LRU.size (LRU.run (LRU.new 0 1000) [LRU.OpSet "a" "v" 0]) <= 0.
Proof. split; [reflexivity|]. vm_compute. intros H. now apply H. Qed.

(** C5 (amended).  After every sequence of [set] and [get] calls on a
    fresh store of capacity [cap], [size() <= max(cap, 1)] holds, hence
    [size() <= cap] for every capacity [cap >= 1].  An insert of a new
    key into a store at capacity removes the first key of the map, and
    that key is the least recently touched one: every other key had its
    last touch, by a [set] or by a successful [get], later.  With
    capacity 3, inserting "1", "2", "3", reading "1" and inserting "4"
    evicts "2" and leaves the order "3", "1", "4". *)
Theorem C5_lru_capacity_and_eviction :
  forall (V : Type) (cap ttl : Z) (ops : list (LRU.Op V)),
    let s := LRU.run (LRU.new cap ttl) ops in
    let past := LRU.history (LRU.new cap ttl) ops [] in
    LRU.size s <= Z.max cap 1
    /\ (1 <= cap -> LRU.size s <= cap)
    /\ (forall key v now oldest,
          JsMap.get (LRU.cache s) key = None ->
          LRU.size s = cap ->
          JsMap.first_key (LRU.cache s) = Some oldest ->
          LRU.order (LRU.set s key v now) = tl (LRU.order s) ++ [key]
          /\ JsMap.get (LRU.cache (LRU.set s key v now)) oldest = None
          /\ forall k', In k' (LRU.order s) -> k' <> oldest ->
                        LRU.touchedBefore past oldest k')
    /\ LRU.order (LRU.run (LRU.new 3 1000) scenarioOps) = ["3"; "1"; "4"]
    /\ JsMap.get (LRU.cache (LRU.run (LRU.new 3 1000) scenarioOps)) "2" = None.
Proof.
  intros V cap ttl ops s past.
  assert (Hsize : LRU.size s <= Z.max cap 1).
  { subst s. apply (LRUFacts.size_run_bound ops (LRU.new cap ttl)).
    change (0 <= Z.max cap 1). lia. }
  split; [exact Hsize|]. split; [lia|]. split; [|split; reflexivity].
  intros key v now oldest Habsent Hfull Hfirst.
  apply LRURecency.set_evicts_oldest; try assumption.
  - subst s past. apply LRURecency.byRecency_run, LRURecency.byRecency_new.
  - rewrite Hfull. subst s. rewrite LRUFacts.capacity_run. simpl. lia.
Qed.

Lemma C5_lru_capacity_and_eviction_witness :
  LRU.size (LRU.run (LRU.new 3 1000) scenarioOps) <= 3
  /\ LRU.order (LRU.set (LRU.run (LRU.new 3 1000) scenarioOps) "5" "five" 5)
     = ["1"; "4"; "5"]
  /\ LRU.touchedBefore (LRU.history (LRU.new 3 1000) scenarioOps []) "3" "1"
  /\ LRU.touchedBefore (LRU.history (LRU.new 3 1000) scenarioOps []) "3" "4".
Proof.
  destruct (C5_lru_capacity_and_eviction string 3 1000 scenarioOps)
    as (_ & Hcap & Hevict & _ & _).
  destruct (Hevict "5" "five" 5 "3" eq_refl eq_refl eq_refl) as (Hord & _ & Hold).
  split; [apply Hcap; lia|]. split; [exact Hord|]. split.
  - apply (Hold "1"); [right; left; reflexivity|discriminate].
  - apply (Hold "4"); [right; right; left; reflexivity|discriminate].
Defined.

(** ** C6: the sweep gate *)

Lemma clearExpiredCache_closed now c :
  now - lastClearTime c < CACHE_TTL.clearInterval -> clearExpiredCache now c = c.
Proof. intros Hlt. unfold clearExpiredCache. now rewrite Zltb_true_lt. Qed.

Lemma clearExpiredCache_open now c :
  now - lastClearTime c >= CACHE_TTL.clearInterval ->
  clearExpiredCache now c =
  {| tableStructures := tableStructures c;
     mailboxIds := sweepLoop (mailboxIds c) now CACHE_TTL.mailboxId;
     userQuotas := sweepLoop (userQuotas c) now CACHE_TTL.userQuota;
     systemStats := sweepLoop (systemStats c) now CACHE_TTL.systemStats;
     lastClearTime := now |}.
Proof. intros Hge. unfold clearExpiredCache. now rewrite Zltb_false_ge by lia. Qed.

(** C6, as stated, fails when the first of the two invocations was
    itself held back by the gate.  The cache was loaded at time 0; an
    invocation at 20 min does nothing, and the invocation at 40 min,
    less than the 30 min interval after the first one, runs the sweep:
    it stamps [lastClearTime] and removes the expired identifier. *)
Lemma C6_second_invocation_sweeps :
  let c1 := clearExpiredCache 1200000 sampleCACHE in
  2400000 - 1200000 < CACHE_TTL.clearInterval
  /\ clearExpiredCache 2400000 c1 <> c1
  /\ lastClearTime (clearExpiredCache 2400000 c1) = 2400000
  /\ mailboxIds c1 = [("a@x.com", {| value := Some 7; timestamp := 0 |})]
  /\ mailboxIds (clearExpiredCache 2400000 c1) = [].
Proof.
  split; [reflexivity|]. split; [discriminate|].
  split; [reflexivity|]. split; reflexivity.
Qed.

(** C6 (amended).  The gate measures from the last sweep that ran, not
    from the last invocation.  Of two invocations at times [t1] and
    [t2] with [t2 - t1 < minInterval] at most one runs the sweep, and
    when the first one ran it (so that [lastClearTime = t1]) the second
    is a no-op; more generally an invocation at [t2] with
    [t2 - lastClearTime < minInterval] is a no-op.  An invocation at
    [t3] with [t3 - lastClearTime >= minInterval] sets [lastClearTime]
    to [t3] and runs the three sweep loops. *)
Theorem C6_sweep_gate :
  forall (c : CACHE) (t1 t2 t3 : Z),
    let c1 := clearExpiredCache t1 c in
    (t2 - t1 < CACHE_TTL.clearInterval ->
       (c1 = c \/ clearExpiredCache t2 c1 = c1)
       /\ (t1 - lastClearTime c >= CACHE_TTL.clearInterval ->
           lastClearTime c1 = t1 /\ clearExpiredCache t2 c1 = c1))
    /\ (t2 - lastClearTime c < CACHE_TTL.clearInterval ->
        clearExpiredCache t2 c = c)
    /\ (t3 - lastClearTime c >= CACHE_TTL.clearInterval ->
        lastClearTime (clearExpiredCache t3 c) = t3
        /\ mailboxIds (clearExpiredCache t3 c)
           = sweepLoop (mailboxIds c) t3 CACHE_TTL.mailboxId
        /\ userQuotas (clearExpiredCache t3 c)
           = sweepLoop (userQuotas c) t3 CACHE_TTL.userQuota
        /\ systemStats (clearExpiredCache t3 c)
           = sweepLoop (systemStats c) t3 CACHE_TTL.systemStats).
Proof.
  intros c t1 t2 t3 c1. split; [|split].
  - intros Hclose.
    assert (Hran : t1 - lastClearTime c >= CACHE_TTL.clearInterval ->
                   lastClearTime c1 = t1 /\ clearExpiredCache t2 c1 = c1).
    { intros Hge. subst c1. rewrite (clearExpiredCache_open t1 c Hge).
      split; [reflexivity|]. now apply clearExpiredCache_closed. }
    split; [|exact Hran].
    destruct (Z_lt_ge_dec (t1 - lastClearTime c) CACHE_TTL.clearInterval) as [Hlt|Hge].
    + left. now apply clearExpiredCache_closed.
    + right. now apply Hran.
  - apply clearExpiredCache_closed.
  - intros Hge. rewrite (clearExpiredCache_open t3 c Hge). repeat split.
Qed.

Lemma C6_sweep_gate_witness :
  let c1 := clearExpiredCache 1800000 sampleCACHE in
  lastClearTime c1 = 1800000
  /\ clearExpiredCache 3599999 c1 = c1
  /\ clearExpiredCache 1799999 sampleCACHE = sampleCACHE
  /\ lastClearTime (clearExpiredCache 3600000 c1) = 3600000.
Proof.
  intros c1.
  destruct (C6_sweep_gate sampleCACHE 1800000 3599999 1800000) as (Hpair & _ & _).
  destruct (C6_sweep_gate sampleCACHE 1800000 1799999 1800000) as (_ & Hnoop & _).
  destruct (C6_sweep_gate c1 0 0 3600000) as (_ & _ & Hagain).
  assert (Hclose : 3599999 - 1800000 < CACHE_TTL.clearInterval) by reflexivity.
  assert (Hopen : 1800000 - lastClearTime sampleCACHE >= CACHE_TTL.clearInterval)
    by (vm_compute; discriminate).
  destruct (Hpair Hclose) as (_ & Hran). destruct (Hran Hopen) as (Hstamp & Hsecond).
  split; [exact Hstamp|]. split; [exact Hsecond|]. split.
  - apply Hnoop. reflexivity.
  - apply Hagain. vm_compute. discriminate.
Defined.

(** ** C7: the TTL window *)

Lemma stale_expired {A} (cached : option (Item A)) (v : A) (t0 now ttl : Z) :
  cached = Some {| value := v; timestamp := t0 |} -> now - t0 >= ttl ->
  stale cached now ttl.
Proof. intros -> Hge e [= <-]. simpl. lia. Qed.

Lemma stale_absent {A} (now ttl : Z) : stale (@None (Item A)) now ttl.
Proof. intros e. discriminate. Qed.

Lemma reloads_mailbox db address now now' w v t0 :
  isEmpty (normalized address) = false ->
  entryAt (mailboxIds (mem w)) (normalized address) v t0 ->
  now - t0 >= CACHE_TTL.mailboxId ->
  reloads (getCachedMailboxId db address now now' w)
    (getCachedMailboxId db address now now'
       (stored w (with_mailboxIds (mem w)
          (JsMap.delete (mailboxIds (mem w)) (normalized address)))))
    w (SelectMailboxId (normalized address)).
Proof.
  intros Hne G Hge. unfold reloads.
  rewrite !getCachedMailboxId_miss; try assumption.
  - destruct (select_mailbox_id db (normalized address)); simpl;
      (split; [reflexivity|split; [reflexivity|now exists []]]).
  - simpl. rewrite JsMapFacts.get_delete_same. apply stale_absent.
  - now apply (stale_expired _ v t0).
Qed.

Lemma reloads_table db tableName now now' w v t0 :
  entryAt (tableStructures (mem w)) tableName v t0 ->
  now - t0 >= CACHE_TTL.tableStructure ->
  reloads (getCachedTableStructure db tableName now now' w)
    (getCachedTableStructure db tableName now now'
       (stored w (with_tableStructures (mem w)
          (JsMap.delete (tableStructures (mem w)) tableName))))
    w (PragmaTableInfo tableName).
Proof.
  intros G Hge. unfold reloads.
  rewrite !getCachedTableStructure_miss.
  - destruct (pragma_table_info db tableName); simpl;
      (split; [reflexivity|split; [reflexivity|now exists []]]).
  - simpl. rewrite JsMapFacts.get_delete_same. apply stale_absent.
  - now apply (stale_expired _ v t0).
Qed.

Lemma reloads_quota db userId now now' w v t0 :
  entryAt (userQuotas (mem w)) userId v t0 ->
  now - t0 >= CACHE_TTL.userQuota ->
  reloads (getCachedUserQuota db userId now now' w)
    (getCachedUserQuota db userId now now'
       (stored w (with_userQuotas (mem w)
          (JsMap.delete (userQuotas (mem w)) userId))))
    w (SelectMailboxLimit userId).
Proof.
  intros G Hge. unfold reloads.
  rewrite !getCachedUserQuota_miss.
  - destruct (select_mailbox_limit db userId); simpl;
      [|split; [reflexivity|split; [reflexivity|now exists []]]].
    destruct (count_user_mailboxes db userId); simpl;
      (split; [reflexivity|split; [reflexivity|]]);
      exists [CountUserMailboxes userId]; now rewrite <- app_assoc.
  - simpl. rewrite JsMapFacts.get_delete_same. apply stale_absent.
  - now apply (stale_expired _ v t0).
Qed.

Lemma reloads_stat db statKey queryFn now now' w v t0 :
  entryAt (systemStats (mem w)) statKey v t0 ->
  now - t0 >= CACHE_TTL.systemStats ->
  reloads (getCachedSystemStat db statKey queryFn now now' w)
    (getCachedSystemStat db statKey queryFn now now'
       (stored w (with_systemStats (mem w)
          (JsMap.delete (systemStats (mem w)) statKey))))
    w (QueryFn statKey).
Proof.
  intros G Hge. unfold reloads.
  rewrite !getCachedSystemStat_miss.
  - destruct (queryFn db); simpl;
      (split; [reflexivity|split; [reflexivity|now exists []]]).
  - simpl. rewrite JsMapFacts.get_delete_same. apply stale_absent.
  - now apply (stale_expired _ v t0).
Qed.

Lemma load_writes_mailbox db address now now' w res :
  isEmpty (normalized address) = false ->
  stale (JsMap.get (mailboxIds (mem w)) (normalized address)) now CACHE_TTL.mailboxId ->
  select_mailbox_id db (normalized address) = Returned res ->
  fst (getCachedMailboxId db address now now' w) = Returned (firstId res)
  /\ entryAt (mailboxIds (mem (snd (getCachedMailboxId db address now now' w))))
       (normalized address) (firstId res) now'.
Proof.
  intros Hne Hold Hdb. rewrite getCachedMailboxId_miss, Hdb by assumption.
  split; [reflexivity|]. apply JsMapFacts.get_set_same.
Qed.

Lemma load_writes_table db tableName now now' w res :
  stale (JsMap.get (tableStructures (mem w)) tableName) now CACHE_TTL.tableStructure ->
  pragma_table_info db tableName = Returned res ->
  fst (getCachedTableStructure db tableName now now' w)
    = Returned (map toColumn (resultsOrEmpty res))
  /\ entryAt (tableStructures (mem (snd (getCachedTableStructure db tableName now now' w))))
       tableName (map toColumn (resultsOrEmpty res)) now'.
Proof.
  intros Hold Hdb. rewrite getCachedTableStructure_miss, Hdb by assumption.
  split; [reflexivity|]. apply JsMapFacts.get_set_same.
Qed.

Lemma load_writes_quota db userId now now' w ures cres :
  stale (JsMap.get (userQuotas (mem w)) userId) now CACHE_TTL.userQuota ->
  select_mailbox_limit db userId = Returned ures ->
  count_user_mailboxes db userId = Returned cres ->
  fst (getCachedUserQuota db userId now now' w)
    = Returned {| used := usedOf cres; limit := limitOf ures |}
  /\ entryAt (userQuotas (mem (snd (getCachedUserQuota db userId now now' w))))
       userId {| used := usedOf cres; limit := limitOf ures |} now'.
Proof.
  intros Hold Hdb1 Hdb2. rewrite getCachedUserQuota_miss, Hdb1, Hdb2 by assumption.
  split; [reflexivity|]. apply JsMapFacts.get_set_same.
Qed.

Lemma load_writes_stat db statKey queryFn now now' w n :
  stale (JsMap.get (systemStats (mem w)) statKey) now CACHE_TTL.systemStats ->
  queryFn db = Returned n ->
  fst (getCachedSystemStat db statKey queryFn now now' w) = Returned n
  /\ entryAt (systemStats (mem (snd (getCachedSystemStat db statKey queryFn now now' w))))
       statKey n now'.
Proof.
  intros Hold Hdb. rewrite getCachedSystemStat_miss, Hdb by assumption.
  split; [reflexivity|]. apply JsMapFacts.get_set_same.
Qed.

Lemma update_writes_mailbox address id now c :
  isEmpty (normalized address) = false -> falsyId id = false ->
  entryAt (mailboxIds (updateMailboxIdCache address id now c))
    (normalized address) id now.
Proof.
  intros Hne Hid. unfold updateMailboxIdCache. rewrite Hne, Hid. simpl.
  apply JsMapFacts.get_set_same.
Qed.

(** C7.  In each of the four namespaces, with TTL [T]: a successful
    load, and the address set when it writes, store the value with the
    time [t0] of the write; an entry written at [t0] is returned by the
    getter, with no access to the backing store, at every [t1] with
    [t1 - t0 < T]; and at every [t1] with [t1 - t0 >= T], the boundary
    [t1 - t0 = T] included, the getter treats the key as absent and
    goes to the backing store again. *)
Theorem C7_ttl_window :
  forall (db : DB) (w : World) (t0 t1 t1' : Z),
    (* address to identifier *)
    (forall address,
        isEmpty (normalized address) = false ->
        (forall ta res,
            stale (JsMap.get (mailboxIds (mem w)) (normalized address)) ta CACHE_TTL.mailboxId ->
            select_mailbox_id db (normalized address) = Returned res ->
            entryAt (mailboxIds (mem (snd (getCachedMailboxId db address ta t0 w))))
              (normalized address) (firstId res) t0)
        /\ (forall id, falsyId id = false ->
            entryAt (mailboxIds (updateMailboxIdCache address id t0 (mem w)))
              (normalized address) id t0)
        /\ (forall v, entryAt (mailboxIds (mem w)) (normalized address) v t0 ->
            (t1 - t0 < CACHE_TTL.mailboxId ->
             getCachedMailboxId db address t1 t1' w = (Returned v, w))
            /\ (t1 - t0 >= CACHE_TTL.mailboxId ->
                reloads (getCachedMailboxId db address t1 t1' w)
                  (getCachedMailboxId db address t1 t1'
                     (stored w (with_mailboxIds (mem w)
                        (JsMap.delete (mailboxIds (mem w)) (normalized address)))))
                  w (SelectMailboxId (normalized address)))))
    (* schema columns *)
    /\ (forall tableName,
        (forall ta res,
            stale (JsMap.get (tableStructures (mem w)) tableName) ta CACHE_TTL.tableStructure ->
            pragma_table_info db tableName = Returned res ->
            entryAt (tableStructures (mem (snd (getCachedTableStructure db tableName ta t0 w))))
              tableName (map toColumn (resultsOrEmpty res)) t0)
        /\ (forall v, entryAt (tableStructures (mem w)) tableName v t0 ->
            (t1 - t0 < CACHE_TTL.tableStructure ->
             getCachedTableStructure db tableName t1 t1' w = (Returned v, w))
            /\ (t1 - t0 >= CACHE_TTL.tableStructure ->
                reloads (getCachedTableStructure db tableName t1 t1' w)
                  (getCachedTableStructure db tableName t1 t1'
                     (stored w (with_tableStructures (mem w)
                        (JsMap.delete (tableStructures (mem w)) tableName))))
                  w (PragmaTableInfo tableName))))
    (* per-user quota *)
    /\ (forall userId,
        (forall ta ures cres,
            stale (JsMap.get (userQuotas (mem w)) userId) ta CACHE_TTL.userQuota ->
            select_mailbox_limit db userId = Returned ures ->
            count_user_mailboxes db userId = Returned cres ->
            entryAt (userQuotas (mem (snd (getCachedUserQuota db userId ta t0 w))))
              userId {| used := usedOf cres; limit := limitOf ures |} t0)
        /\ (forall v, entryAt (userQuotas (mem w)) userId v t0 ->
            (t1 - t0 < CACHE_TTL.userQuota ->
             getCachedUserQuota db userId t1 t1' w = (Returned v, w))
            /\ (t1 - t0 >= CACHE_TTL.userQuota ->
                reloads (getCachedUserQuota db userId t1 t1' w)
                  (getCachedUserQuota db userId t1 t1'
                     (stored w (with_userQuotas (mem w)
                        (JsMap.delete (userQuotas (mem w)) userId))))
                  w (SelectMailboxLimit userId))))
    (* named statistic *)
    /\ (forall statKey queryFn,
        (forall ta n,
            stale (JsMap.get (systemStats (mem w)) statKey) ta CACHE_TTL.systemStats ->
            queryFn db = Returned n ->
            entryAt (systemStats (mem (snd (getCachedSystemStat db statKey queryFn ta t0 w))))
              statKey n t0)
        /\ (forall v, entryAt (systemStats (mem w)) statKey v t0 ->
            (t1 - t0 < CACHE_TTL.systemStats ->
             getCachedSystemStat db statKey queryFn t1 t1' w = (Returned v, w))
            /\ (t1 - t0 >= CACHE_TTL.systemStats ->
                reloads (getCachedSystemStat db statKey queryFn t1 t1' w)
                  (getCachedSystemStat db statKey queryFn t1 t1'
                     (stored w (with_systemStats (mem w)
                        (JsMap.delete (systemStats (mem w)) statKey))))
                  w (QueryFn statKey)))).
Proof.
  intros db w t0 t1 t1'. split; [|split; [|split]].
  - intros address Hne. split; [|split].
    + intros ta res Hold Hdb. now apply load_writes_mailbox.
    + intros id Hid. now apply update_writes_mailbox.
    + intros v G. split.
      * intros Hlt. now rewrite (getCachedMailboxId_hit db address t1 t1' w _ Hne G).
      * intros Hge. now apply (reloads_mailbox db address t1 t1' w v t0).
  - intros tableName. split.
    + intros ta res Hold Hdb. now apply load_writes_table.
    + intros v G. split.
      * intros Hlt. now rewrite (getCachedTableStructure_hit db tableName t1 t1' w _ G).
      * intros Hge. now apply (reloads_table db tableName t1 t1' w v t0).
  - intros userId. split.
    + intros ta ures cres Hold Hdb1 Hdb2. now apply load_writes_quota.
    + intros v G. split.
      * intros Hlt. now rewrite (getCachedUserQuota_hit db userId t1 t1' w _ G).
      * intros Hge. now apply (reloads_quota db userId t1 t1' w v t0).
  - intros statKey queryFn. split.
    + intros ta n Hold Hdb. now apply load_writes_stat.
    + intros v G. split.
      * intros Hlt. now rewrite (getCachedSystemStat_hit db statKey queryFn t1 t1' w _ G).
      * intros Hge. now apply (reloads_stat db statKey queryFn t1 t1' w v t0).
Qed.

Lemma C7_ttl_window_witness :
  getCachedMailboxId emptyDB (Some "a@x.com") 599999 600005 sampleWorld
    = (Returned (Some 7), sampleWorld)
  /\ reloads (getCachedMailboxId emptyDB (Some "a@x.com") 600000 600005 sampleWorld)
       (getCachedMailboxId emptyDB (Some "a@x.com") 600000 600005
          (stored sampleWorld (with_mailboxIds (mem sampleWorld)
             (JsMap.delete (mailboxIds (mem sampleWorld)) "a@x.com"))))
       sampleWorld (SelectMailboxId "a@x.com")
  /\ getCachedTableStructure emptyDB "users" 3599999 3600005 sampleWorld
    = (Returned [], sampleWorld)
  /\ entryAt (userQuotas (mem (snd (getCachedUserQuota emptyDB 4 1 0 sampleWorld))))
       4 {| used := 0; limit := 10 |} 0.
Proof.
  destruct (C7_ttl_window emptyDB sampleWorld 0 599999 600005) as (Hm & Ht0 & Hq & _).
  destruct (C7_ttl_window emptyDB sampleWorld 0 600000 600005) as (Hm' & _ & _ & _).
  destruct (C7_ttl_window emptyDB sampleWorld 0 3599999 3600005) as (_ & Ht & _ & _).
  destruct (Hm (Some "a@x.com") eq_refl) as (_ & _ & Hread).
  destruct (Hm' (Some "a@x.com") eq_refl) as (_ & _ & Hread').
  destruct (Hread (Some 7) eq_refl) as (Hhit & _).
  destruct (Hread' (Some 7) eq_refl) as (_ & Hreload).
  destruct (Ht "users") as (_ & Htread).
  destruct (Htread [] eq_refl) as (Hthit & _).
  destruct (Hq 4) as (Hqload & _).
  split; [apply Hhit; reflexivity|].
  split; [apply Hreload; vm_compute; discriminate|].
  split; [apply Hthit; reflexivity|].
  apply (Hqload 1 (Some []) (Some [Some 0])); [intros e; discriminate| |]; reflexivity.
Defined.

(** ** C8: negative results *)

(** C8.  When a first [getCachedMailboxId] of an address misses the
    cache and the database answers "not found" (no row, or a [null]
    id), the [null] is returned and stored like any identifier, stamped
    with the time [t1'] of the write; a second lookup of the address at
    any [t2] with [t2 - t1' < TTL] returns [null] again and leaves the
    state, the trace of database accesses included, as it is, whatever
    the database would answer. *)
Theorem C8_negative_result_cached :
  forall (db db' : DB) (w : World) (address : option string)
         (res : option (list (option Z))) (t1 t1' t2 t2' : Z),
    isEmpty (normalized address) = false ->
    stale (JsMap.get (mailboxIds (mem w)) (normalized address)) t1 CACHE_TTL.mailboxId ->
    select_mailbox_id db (normalized address) = Returned res ->
    firstId res = None ->
    t2 - t1' < CACHE_TTL.mailboxId ->
    let r1 := getCachedMailboxId db address t1 t1' w in
    fst r1 = Returned None
    /\ dbLog (snd r1) = dbLog w ++ [SelectMailboxId (normalized address)]
    /\ entryAt (mailboxIds (mem (snd r1))) (normalized address) None t1'
    /\ getCachedMailboxId db' address t2 t2' (snd r1) = (Returned None, snd r1).
Proof.
  intros db db' w address res t1 t1' t2 t2' Hne Hold Hdb Hnone Hlt r1.
  destruct (load_writes_mailbox db address t1 t1' w res Hne Hold Hdb) as (Hres & Hentry).
  fold r1 in Hres, Hentry. rewrite Hnone in Hres, Hentry.
  split; [exact Hres|]. split; [|split; [exact Hentry|]].
  - subst r1. now rewrite getCachedMailboxId_miss, Hdb by assumption.
  - now rewrite (getCachedMailboxId_hit db' address t2 t2' (snd r1) _ Hne Hentry).
Qed.

Lemma C8_negative_result_cached_witness :
  let r1 := getCachedMailboxId emptyDB (Some "Nobody@x.com") 10 12 freshWorld in
  fst r1 = Returned None
  /\ dbLog (snd r1) = [SelectMailboxId "nobody@x.com"]
  /\ entryAt (mailboxIds (mem (snd r1))) "nobody@x.com" None 12
  /\ getCachedMailboxId (failingDB "no access") (Some "Nobody@x.com") 600011 600011 (snd r1)
     = (Returned None, snd r1).
Proof.
  apply (C8_negative_result_cached emptyDB (failingDB "no access") freshWorld
           (Some "Nobody@x.com") (Some []) 10 12 600011 600011);
    [reflexivity|intros e; discriminate|reflexivity|reflexivity|reflexivity].
Defined.

(** ** C9: malformed addresses *)

Lemma toLowerCase_empty s : toLowerCase s = "" <-> s = "".
Proof. destruct s; simpl; split; (reflexivity || discriminate). Qed.

Lemma isEmpty_true s : isEmpty s = true <-> s = "".
Proof. destruct s; simpl; split; (reflexivity || discriminate). Qed.

Lemma malformed_normalized address :
  malformed address <-> isEmpty (normalized address) = true.
Proof.
  rewrite isEmpty_true. unfold normalized, malformed.
  rewrite toLowerCase_empty. destruct address as [s|]; [reflexivity|].
  split; reflexivity.
Qed.

Lemma get_delete_absent {K V} `{KeyEq K} (m : JsMap.t K V) k k' :
  JsMap.get m k' = None -> JsMap.get (JsMap.delete m k) k' = None.
Proof.
  intros G. apply JsMapFacts.get_None_notin. rewrite JsMapFacts.keys_delete.
  intros Hin. apply filter_In in Hin. destruct Hin as [Hin _].
  now apply JsMapFacts.get_None_notin in G.
Qed.

Lemma mailboxIds_getCachedTableStructure db t now now' w :
  mailboxIds (mem (snd (getCachedTableStructure db t now now' w))) = mailboxIds (mem w).
Proof. unfold getCachedTableStructure. getter_cases; reflexivity. Qed.

Lemma mailboxIds_getCachedUserQuota db u now now' w :
  mailboxIds (mem (snd (getCachedUserQuota db u now now' w))) = mailboxIds (mem w).
Proof. unfold getCachedUserQuota. getter_cases; reflexivity. Qed.

Lemma mailboxIds_getCachedSystemStat db k q now now' w :
  mailboxIds (mem (snd (getCachedSystemStat db k q now now' w))) = mailboxIds (mem w).
Proof. unfold getCachedSystemStat. getter_cases; reflexivity. Qed.

(** No call creates an entry under the empty key of the address map. *)
Lemma exec_no_empty_key call w :
  JsMap.get (mailboxIds (mem w)) "" = None ->
  JsMap.get (mailboxIds (mem (exec call w))) "" = None.
Proof.
  intros G. destruct call; simpl.
  - now rewrite mailboxIds_getCachedTableStructure.
  - now rewrite snd_hasColumn, mailboxIds_getCachedTableStructure.
  - destruct (isEmpty (normalized address)) eqn:E.
    + now rewrite getCachedMailboxId_empty.
    + rewrite getCachedMailboxId_frame; [assumption|].
      intros Hk. rewrite <- Hk in E. discriminate.
  - destruct (isEmpty (normalized address)) eqn:E.
    + unfold updateMailboxIdCache. now rewrite E.
    + rewrite updateMailboxIdCache_frame; [assumption|].
      intros Hk. rewrite <- Hk in E. discriminate.
  - now apply get_delete_absent.
  - now rewrite mailboxIds_getCachedUserQuota.
  - assumption.
  - now rewrite mailboxIds_getCachedSystemStat.
  - destruct statKey as [k|]; simpl; [destruct (isEmpty k)|]; assumption.
  - unfold clearExpiredCache.
    destruct (now - lastClearTime (mem w) <? CACHE_TTL.clearInterval); [assumption|].
    simpl. now apply sweepLoop_absent.
  - reflexivity.
Qed.

Lemma execAll_no_empty_key calls : forall w,
  JsMap.get (mailboxIds (mem w)) "" = None ->
  JsMap.get (mailboxIds (mem (execAll calls w))) "" = None.
Proof.
  unfold execAll. induction calls as [|call calls IH]; intros w G; simpl; [assumption|].
  apply IH. now apply exec_no_empty_key.
Qed.

(** C9.  For a malformed address ([null], empty, or empty once trimmed)
    [getCachedMailboxId] returns [null] at once: the cache object and
    the trace of database accesses are left as they are.  No sequence
    of calls of the module's functions, from the freshly loaded module
    or from any state without such an entry, creates an entry keyed on
    the empty string in the address map. *)
Theorem C9_malformed_address :
  forall (db : DB) (address : option string) (now now' loaded : Z) (w : World)
         (calls : list Call),
    (malformed address ->
     getCachedMailboxId db address now now' w = (Returned None, w))
    /\ (JsMap.get (mailboxIds (mem w)) "" = None ->
        JsMap.get (mailboxIds (mem (execAll calls w))) "" = None)
    /\ JsMap.get (mailboxIds (mem (execAll calls
                    {| mem := initialCACHE loaded; dbLog := [] |}))) "" = None.
Proof.
  intros db address now now' loaded w calls. split; [|split].
  - intros Hbad. apply getCachedMailboxId_empty. now apply malformed_normalized.
  - apply execAll_no_empty_key.
  - now apply execAll_no_empty_key.
Qed.

Lemma C9_malformed_address_witness :
  getCachedMailboxId (failingDB "no access") None 1 2 sampleWorld
    = (Returned None, sampleWorld)
  /\ getCachedMailboxId (failingDB "no access") (Some "") 1 2 sampleWorld
    = (Returned None, sampleWorld)
  /\ getCachedMailboxId (failingDB "no access") (Some "  ") 1 2 sampleWorld
    = (Returned None, sampleWorld)
  /\ JsMap.get (mailboxIds (mem (execAll
       [UpdateMailboxIdCache (Some " ") (Some 3) 1;
        GetCachedMailboxId emptyDB None 2 3;
        GetCachedMailboxId emptyDB (Some "B@x.com") 4 5]
       sampleWorld))) "" = None.
Proof.
  split; [|split; [|split]].
  - apply (C9_malformed_address (failingDB "no access") None 1 2 0 sampleWorld []).
    exact I.
  - apply (C9_malformed_address (failingDB "no access") (Some "") 1 2 0 sampleWorld []).
    reflexivity.
  - apply (C9_malformed_address (failingDB "no access") (Some "  ") 1 2 0 sampleWorld []).
    reflexivity.
  - destruct (C9_malformed_address emptyDB None 1 2 0 sampleWorld
                [UpdateMailboxIdCache (Some " ") (Some 3) 1;
                 GetCachedMailboxId emptyDB None 2 3;
                 GetCachedMailboxId emptyDB (Some "B@x.com") 4 5])
      as (_ & Hkeep & _).
    apply Hkeep. reflexivity.
Defined.

(** ** C10: overwriting a key of a full LRU store *)

(** Every store reached from a fresh one binds each key once. *)
Lemma lru_run_wf {V} (cap ttl : Z) (ops : list (LRU.Op V)) :
  JsMap.wf (LRU.cache (LRU.run (LRU.new cap ttl) ops)).
Proof.
  apply (StronglySorted_irrefl_NoDup
           (LRU.touchedBefore (LRU.history (LRU.new cap ttl) ops []))).
  - apply LRURecency.touchedBefore_irrefl.
  - apply (LRURecency.byRecency_run ops (LRU.new cap ttl) []).
    apply LRURecency.byRecency_new.
Qed.

Lemma evicted_below_capacity {V} cap (m : JsMap.t string (Item V)) :
  JsMap.size m < cap -> LRU.evicted cap m = m.
Proof.
  intros Hlt. unfold LRU.evicted.
  replace (JsMap.size m >=? cap) with false; [reflexivity|].
  symmetry. rewrite Z.geb_leb. apply Z.leb_gt. lia.
Qed.

(** C10.  In a store that is exactly at capacity, [set] on a key that
    is present evicts nothing: the key gets the new value with the
    fresh timestamp and moves to the most recent end of the order,
    every other key keeps its entry and its place, and [size()] is
    unchanged. *)
Theorem C10_overwrite_at_capacity :
  forall (V : Type) (c : LRU.LRUCache V) (key : string) (v : V) (now : Z)
         (old : Item V),
    JsMap.wf (LRU.cache c) ->
    LRU.size c = LRU.capacity c ->
    JsMap.get (LRU.cache c) key = Some old ->
    let c' := LRU.set c key v now in
    LRU.size c' = LRU.size c
    /\ JsMap.get (LRU.cache c') key = Some {| value := v; timestamp := now |}
    /\ (forall k', k' <> key ->
          JsMap.get (LRU.cache c') k' = JsMap.get (LRU.cache c) k')
    /\ LRU.order c'
       = filter (fun k' => negb (String.eqb k' key)) (LRU.order c) ++ [key]
    /\ LRU.capacity c' = LRU.capacity c.
Proof.
  intros V c key v now old Hwf Hfull G c'. subst c'.
  rewrite LRUFacts.set_unfold.
  assert (Hlen : S (List.length (JsMap.delete (LRU.cache c) key))
                 = List.length (LRU.cache c))
    by (apply JsMapFacts.length_delete_present; [assumption|congruence]).
  rewrite evicted_below_capacity
    by (unfold LRU.size, JsMap.size in *; lia).
  assert (Gd : JsMap.get (JsMap.delete (LRU.cache c) key) key = None)
    by apply JsMapFacts.get_delete_same.
  unfold LRU.size, LRU.order. simpl.
  split; [|split; [|split; [|split]]].
  - rewrite (JsMapFacts.set_absent _ _ _ Gd). unfold JsMap.size.
    rewrite length_app. simpl. lia.
  - apply JsMapFacts.get_set_same.
  - intros k' N.
    rewrite JsMapFacts.get_set_other, JsMapFacts.get_delete_other; congruence.
  - rewrite (JsMapFacts.keys_set_absent _ _ _ Gd). now rewrite JsMapFacts.keys_delete.
  - reflexivity.
Qed.

Lemma C10_overwrite_at_capacity_witness :
  let c := LRU.run (LRU.new 3 1000) [LRU.OpSet "1" "one" 0; LRU.OpSet "2" "two" 1;
                                     LRU.OpSet "3" "three" 2] in
  LRU.size (LRU.set c "1" "uno" 3) = 3
  /\ JsMap.get (LRU.cache (LRU.set c "1" "uno" 3)) "1"
     = Some {| value := "uno"; timestamp := 3 |}
  /\ JsMap.get (LRU.cache (LRU.set c "1" "uno" 3)) "2"
     = Some {| value := "two"; timestamp := 1 |}
  /\ LRU.order (LRU.set c "1" "uno" 3) = ["2"; "3"; "1"].
Proof.
  intros c.
  assert (Hwf : JsMap.wf (LRU.cache c)).
  { unfold JsMap.wf. simpl.
    repeat (apply NoDup_cons; [simpl; intuition discriminate|]). apply NoDup_nil. }
  destruct (C10_overwrite_at_capacity string c "1" "uno" 3
              {| value := "one"; timestamp := 0 |} Hwf eq_refl eq_refl)
    as (Hsize & Hkey & Hothers & Horder & _).
  split; [exact Hsize|]. split; [exact Hkey|]. split; [|exact Horder].
  rewrite Hothers; [reflexivity|discriminate].
Defined.

(** * Further properties of the module *)

(** ** Invalidation *)

Lemma delete_delete {K V} `{KeyEq K} (m : JsMap.t K V) k :
  JsMap.delete (JsMap.delete m k) k = JsMap.delete m k.
Proof. apply JsMapFacts.delete_absent, JsMapFacts.get_delete_same. Qed.

(** X1.  After [invalidateMailboxCache] of any spelling of an address,
    the next [getCachedMailboxId] of that address goes to the database,
    whatever the age of the entry was: it makes exactly one access and
    hands on what the database answers.  Invalidating twice is the same
    as invalidating once. *)
Theorem X1_invalidate_mailbox_reloads :
  forall (db : DB) (w : World) (address address' : option string) (now now' : Z),
    normalized address' = normalized address ->
    isEmpty (normalized address) = false ->
    let w0 := onCACHE (invalidateMailboxCache address') w in
    let r := getCachedMailboxId db address now now' w0 in
    fst r = loaded (select_mailbox_id db (normalized address)) firstId
    /\ dbLog (snd r) = dbLog w ++ [SelectMailboxId (normalized address)]
    /\ invalidateMailboxCache address' (mem w0) = mem w0.
Proof.
  intros db w address address' now now' Hsame Hne w0 r.
  assert (Hmiss : stale (JsMap.get (mailboxIds (mem w0)) (normalized address))
                    now CACHE_TTL.mailboxId).
  { subst w0. unfold onCACHE, invalidateMailboxCache. simpl. rewrite Hsame.
    rewrite JsMapFacts.get_delete_same. apply stale_absent. }
  subst r. rewrite (getCachedMailboxId_miss db address now now' w0 Hne Hmiss).
  split; [|split].
  - now destruct (select_mailbox_id db (normalized address)).
  - now destruct (select_mailbox_id db (normalized address)).
  - subst w0. unfold onCACHE, invalidateMailboxCache. simpl. now rewrite delete_delete.
Qed.

Lemma X1_invalidate_mailbox_reloads_witness :
  fst (getCachedMailboxId sampleDB (Some "a@x.com") 1 2
         (onCACHE (invalidateMailboxCache (Some " A@X.com ")) sampleWorld))
    = Returned (Some 7)
  /\ dbLog (snd (getCachedMailboxId sampleDB (Some "a@x.com") 1 2
         (onCACHE (invalidateMailboxCache (Some " A@X.com ")) sampleWorld)))
    = [SelectMailboxId "a@x.com"].
Proof.
  destruct (X1_invalidate_mailbox_reloads sampleDB sampleWorld (Some "a@x.com")
              (Some " A@X.com ") 1 2 eq_refl eq_refl) as (Hres & Hlog & _).
  split; [exact Hres|exact Hlog].
Defined.

(** X2.  After [invalidateUserQuotaCache(userId)] the next
    [getCachedUserQuota(userId)] reads the limit and the count from the
    database again and returns the quota built from them; the entries
    of the other users are left as they are. *)
Theorem X2_invalidate_quota_reloads :
  forall (db : DB) (w : World) (userId : Z) (now now' : Z)
         (ures cres : option (list (option Z))),
    select_mailbox_limit db userId = Returned ures ->
    count_user_mailboxes db userId = Returned cres ->
    let w0 := onCACHE (invalidateUserQuotaCache userId) w in
    let r := getCachedUserQuota db userId now now' w0 in
    fst r = Returned (quotaOf ures cres)
    /\ dbLog (snd r)
       = dbLog w ++ [SelectMailboxLimit userId; CountUserMailboxes userId]
    /\ entryAt (userQuotas (mem (snd r))) userId (quotaOf ures cres) now'
    /\ forall other, other <> userId ->
         JsMap.get (userQuotas (mem w0)) other = JsMap.get (userQuotas (mem w)) other.
Proof.
  intros db w userId now now' ures cres Hdb1 Hdb2 w0 r.
  assert (Hmiss : stale (JsMap.get (userQuotas (mem w0)) userId) now CACHE_TTL.userQuota).
  { subst w0. unfold onCACHE, invalidateUserQuotaCache. simpl.
    rewrite JsMapFacts.get_delete_same. apply stale_absent. }
  subst r. rewrite (getCachedUserQuota_miss db userId now now' w0 Hmiss), Hdb1, Hdb2.
  split; [reflexivity|]. split; [|split].
  - simpl. now rewrite <- app_assoc.
  - apply JsMapFacts.get_set_same.
  - intros other N. subst w0. unfold onCACHE, invalidateUserQuotaCache. simpl.
    apply JsMapFacts.get_delete_other. congruence.
Qed.

Lemma X2_invalidate_quota_reloads_witness :
  fst (getCachedUserQuota sampleDB 1 10 11
         (onCACHE (invalidateUserQuotaCache 1) sampleWorld))
    = Returned {| used := 3; limit := 5 |}
  /\ dbLog (snd (getCachedUserQuota sampleDB 1 10 11
         (onCACHE (invalidateUserQuotaCache 1) sampleWorld)))
    = [SelectMailboxLimit 1; CountUserMailboxes 1].
Proof.
  destruct (X2_invalidate_quota_reloads sampleDB sampleWorld 1 10 11
              (Some [Some 5]) (Some [Some 3]) eq_refl eq_refl) as (Hres & Hlog & _).
  split; [exact Hres|exact Hlog].
Defined.

(** X3.  [invalidateSystemStatCache(key)] with a non-empty key removes
    that statistic only: the next [getCachedSystemStat(key)] calls the
    query function again and hands on its outcome, other statistics
    keep their entries.  Without a key, with [null] or with the empty
    string it empties the whole statistic namespace, so the next
    lookup of any statistic calls its query function.  No form of the
    call touches the other three namespaces. *)
Theorem X3_invalidate_stat :
  forall (db : DB) (w : World) (key : string) (queryFn : DB -> outcome Z)
         (statKey : option string) (now now' : Z),
    (isEmpty key = false ->
     let w0 := onCACHE (invalidateSystemStatCache (Some key)) w in
     fst (getCachedSystemStat db key queryFn now now' w0) = queryFn db
     /\ dbLog (snd (getCachedSystemStat db key queryFn now now' w0))
        = dbLog w ++ [QueryFn key]
     /\ forall other, other <> key ->
          JsMap.get (systemStats (mem w0)) other = JsMap.get (systemStats (mem w)) other)
    /\ (statKey = None \/ statKey = Some "" ->
        let w0 := onCACHE (invalidateSystemStatCache statKey) w in
        systemStats (mem w0) = []
        /\ fst (getCachedSystemStat db key queryFn now now' w0) = queryFn db
        /\ dbLog (snd (getCachedSystemStat db key queryFn now now' w0))
           = dbLog w ++ [QueryFn key])
    /\ (let c' := invalidateSystemStatCache statKey (mem w) in
        tableStructures c' = tableStructures (mem w)
        /\ mailboxIds c' = mailboxIds (mem w)
        /\ userQuotas c' = userQuotas (mem w)
        /\ lastClearTime c' = lastClearTime (mem w)).
Proof.
  intros db w key queryFn statKey now now'. split; [|split].
  - intros Hne w0.
    assert (Hmiss : stale (JsMap.get (systemStats (mem w0)) key) now CACHE_TTL.systemStats).
    { subst w0. unfold onCACHE, invalidateSystemStatCache. rewrite Hne. simpl.
      rewrite JsMapFacts.get_delete_same. apply stale_absent. }
    rewrite (getCachedSystemStat_miss db key queryFn now now' w0 Hmiss).
    split; [|split].
    + now destruct (queryFn db).
    + now destruct (queryFn db).
    + intros other N. subst w0. unfold onCACHE, invalidateSystemStatCache.
      rewrite Hne. simpl. apply JsMapFacts.get_delete_other. congruence.
  - intros Hall w0.
    assert (Hempty : systemStats (mem w0) = []).
    { subst w0. destruct Hall as [-> | ->]; reflexivity. }
    assert (Hmiss : stale (JsMap.get (systemStats (mem w0)) key) now CACHE_TTL.systemStats).
    { rewrite Hempty. apply stale_absent. }
    rewrite (getCachedSystemStat_miss db key queryFn now now' w0 Hmiss).
    split; [exact Hempty|].
    assert (Hlog : dbLog w0 = dbLog w) by reflexivity.
    split; destruct (queryFn db); simpl; now rewrite ?Hlog.
  - unfold invalidateSystemStatCache.
    destruct statKey as [k|]; [destruct (isEmpty k)|]; repeat split.
Qed.

Lemma X3_invalidate_stat_witness :
  let w := {| mem := with_systemStats sampleCACHE
                       [("total_mailboxes", {| value := 4; timestamp := 0 |});
                        ("total_messages", {| value := 9; timestamp := 0 |})];
              dbLog := [] |} in
  JsMap.get (systemStats (mem (onCACHE (invalidateSystemStatCache (Some "total_mailboxes")) w)))
    "total_messages" = Some {| value := 9; timestamp := 0 |}
  /\ fst (getCachedSystemStat sampleDB "total_mailboxes" (fun _ => Returned 6) 1 2
            (onCACHE (invalidateSystemStatCache (Some "total_mailboxes")) w))
     = Returned 6
  /\ systemStats (mem (onCACHE (invalidateSystemStatCache (Some "")) w)) = [].
Proof.
  intros w.
  destruct (X3_invalidate_stat sampleDB w "total_mailboxes" (fun _ => Returned 6)
              (Some "") 1 2) as (Hone & Hall & _).
  destruct (Hone eq_refl) as (Hres & _ & Hframe).
  destruct (Hall (or_intror eq_refl)) as (Hempty & _ & _).
  split; [|split; [exact Hres|exact Hempty]].
  rewrite Hframe; [reflexivity|discriminate].
Defined.

(** X4.  After [clearAllCache()] every lookup goes to the backing
    store, in all four namespaces, and a sweep request that comes less
    than the sweep interval later does nothing. *)
Theorem X4_clear_all :
  forall (db : DB) (w : World) (cleared : Z) (address : option string)
         (tableName : string) (userId : Z) (statKey : string)
         (queryFn : DB -> outcome Z) (now now' : Z),
    let w0 := onCACHE (clearAllCache cleared) w in
    (isEmpty (normalized address) = false ->
     dbLog (snd (getCachedMailboxId db address now now' w0))
     = dbLog w ++ [SelectMailboxId (normalized address)])
    /\ dbLog (snd (getCachedTableStructure db tableName now now' w0))
       = dbLog w ++ [PragmaTableInfo tableName]
    /\ (exists rest, dbLog (snd (getCachedUserQuota db userId now now' w0))
                     = dbLog w ++ SelectMailboxLimit userId :: rest)
    /\ dbLog (snd (getCachedSystemStat db statKey queryFn now now' w0))
       = dbLog w ++ [QueryFn statKey]
    /\ (now - cleared < CACHE_TTL.clearInterval ->
        clearExpiredCache now (mem w0) = mem w0).
Proof.
  intros db w cleared address tableName userId statKey queryFn now now' w0.
  split; [|split; [|split; [|split]]].
  - intros Hne. rewrite getCachedMailboxId_miss by (assumption || apply stale_absent).
    now destruct (select_mailbox_id db (normalized address)).
  - rewrite getCachedTableStructure_miss by apply stale_absent.
    now destruct (pragma_table_info db tableName).
  - rewrite getCachedUserQuota_miss by apply stale_absent.
    destruct (select_mailbox_limit db userId); [|now exists []].
    exists [CountUserMailboxes userId].
    destruct (count_user_mailboxes db userId); simpl; now rewrite <- app_assoc.
  - rewrite getCachedSystemStat_miss by apply stale_absent.
    now destruct (queryFn db).
  - intros Hlt. now apply clearExpiredCache_closed.
Qed.

Lemma X4_clear_all_witness :
  dbLog (snd (getCachedMailboxId sampleDB (Some "a@x.com") 5 6
                (onCACHE (clearAllCache 4) sampleWorld)))
    = [SelectMailboxId "a@x.com"]
  /\ clearExpiredCache 1800003 (mem (onCACHE (clearAllCache 4) sampleWorld))
     = mem (onCACHE (clearAllCache 4) sampleWorld).
Proof.
  destruct (X4_clear_all sampleDB sampleWorld 4 (Some "a@x.com") "users" 1
              "total" (fun _ => Returned 0) 5 6) as (Hm & _ & _ & _ & _).
  destruct (X4_clear_all sampleDB sampleWorld 4 (Some "a@x.com") "users" 1
              "total" (fun _ => Returned 0) 1800003 6) as (_ & _ & _ & _ & Hgate).
  split; [apply Hm; reflexivity|apply Hgate; reflexivity].
Defined.

(** ** Table structures and [hasColumn] *)

Lemma hasColumn_unfold db t col now now' w :
  hasColumn db t col now now' w =
  match getCachedTableStructure db t now now' w with
  | (Returned cols, w') =>
      (Returned (existsb (fun c => String.eqb (name c) col) cols), w')
  | (Thrown e, w') => (Thrown e, w')
  end.
Proof. reflexivity. Qed.

Lemma existsb_toColumn col (rows : list Column) :
  existsb (fun c => String.eqb (name c) col) (map toColumn rows) = true
  <-> exists r, In r rows /\ name r = col.
Proof.
  rewrite existsb_exists. split.
  - intros (c & Hin & Hname). apply in_map_iff in Hin. destruct Hin as (r & <- & Hr).
    exists r. split; [assumption|]. now apply String.eqb_eq in Hname.
  - intros (r & Hr & Hname). exists (toColumn r). split.
    + now apply in_map.
    + simpl. now apply String.eqb_eq.
Qed.

(** X5.  On a cache miss [hasColumn] answers from the database: when
    [PRAGMA table_info] throws it returns [false] (it never throws) and
    caches nothing; when the read succeeds it returns [true] exactly
    when one of the rows carries the column name, compared
    case-sensitively. *)
Theorem X5_hasColumn_on_miss :
  forall (db : DB) (w : World) (tableName columnName : string) (now now' : Z),
    stale (JsMap.get (tableStructures (mem w)) tableName) now CACHE_TTL.tableStructure ->
    (forall e, pragma_table_info db tableName = Thrown e ->
       hasColumn db tableName columnName now now' w
       = (Returned false, logged w [PragmaTableInfo tableName]))
    /\ (forall res, pragma_table_info db tableName = Returned res ->
        exists b, fst (hasColumn db tableName columnName now now' w) = Returned b
                  /\ (b = true <->
                      exists r, In r (resultsOrEmpty res) /\ name r = columnName)).
Proof.
  intros db w tableName columnName now now' Hmiss. split.
  - intros e Hdb. rewrite hasColumn_unfold, getCachedTableStructure_miss, Hdb by assumption.
    reflexivity.
  - intros res Hdb. rewrite hasColumn_unfold, getCachedTableStructure_miss, Hdb by assumption.
    eexists. split; [reflexivity|]. apply existsb_toColumn.
Qed.

Lemma X5_hasColumn_on_miss_witness :
  hasColumn (failingDB "D1_ERROR") "mailboxes" "address" 1 2 freshWorld
    = (Returned false, logged freshWorld [PragmaTableInfo "mailboxes"])
  /\ fst (hasColumn sampleDB "mailboxes" "address" 1 2 freshWorld) = Returned true
  /\ fst (hasColumn sampleDB "mailboxes" "Address" 1 2 freshWorld) = Returned false.
Proof.
  assert (Hmiss : stale (JsMap.get (tableStructures (mem freshWorld)) "mailboxes")
                    1 CACHE_TTL.tableStructure) by (intros e; discriminate).
  destruct (X5_hasColumn_on_miss (failingDB "D1_ERROR") freshWorld "mailboxes" "address"
              1 2 Hmiss) as (Hfail & _).
  split; [now apply (Hfail "D1_ERROR")|]. split; reflexivity.
Defined.

(** X6.  Once a table structure was read successfully and stamped at
    [t0], every [hasColumn] on that table at a time [t1] with
    [t1 - t0 < 1 h] is answered from the cache, for any column and
    whatever the database would do: no access is made, the state is
    left as it is, and the answer is [true] exactly for the names of
    the rows that were read.  A table without rows is cached like any
    other. *)
Theorem X6_hasColumn_from_cache :
  forall (db db' : DB) (w : World) (tableName columnName columnName' : string)
         (res : option (list Column)) (ta t0 t1 t1' : Z),
    stale (JsMap.get (tableStructures (mem w)) tableName) ta CACHE_TTL.tableStructure ->
    pragma_table_info db tableName = Returned res ->
    t1 - t0 < CACHE_TTL.tableStructure ->
    let w1 := snd (hasColumn db tableName columnName ta t0 w) in
    exists b, hasColumn db' tableName columnName' t1 t1' w1 = (Returned b, w1)
              /\ (b = true <->
                  exists r, In r (resultsOrEmpty res) /\ name r = columnName').
Proof.
  intros db db' w tableName columnName columnName' res ta t0 t1 t1' Hmiss Hdb Hlt w1.
  destruct (load_writes_table db tableName ta t0 w res Hmiss Hdb) as (_ & Hentry).
  assert (Hw1 : w1 = snd (getCachedTableStructure db tableName ta t0 w)).
  { subst w1. rewrite hasColumn_unfold.
    now destruct (getCachedTableStructure db tableName ta t0 w) as [[cols|e] w']. }
  rewrite <- Hw1 in Hentry.
  rewrite hasColumn_unfold.
  rewrite (getCachedTableStructure_hit db' tableName t1 t1' w1 _ Hentry) by exact Hlt.
  eexists. split; [reflexivity|]. apply existsb_toColumn.
Qed.

Lemma X6_hasColumn_from_cache_witness :
  let w1 := snd (hasColumn sampleDB "mailboxes" "id" 1 2 freshWorld) in
  exists b, hasColumn (failingDB "no access") "mailboxes" "address" 3600001 3600001 w1
            = (Returned b, w1)
            /\ (b = true <->
                exists r, In r (resultsOrEmpty (Some sampleRows)) /\ name r = "address").
Proof.
  apply (X6_hasColumn_from_cache sampleDB (failingDB "no access") freshWorld
           "mailboxes" "id" "address" (Some sampleRows) 1 2 3600001 3600001);
    [intros e; discriminate|reflexivity|reflexivity].
Defined.

Lemma in_set_inv {K V} `{KeyEq K} (m : JsMap.t K V) k0 v0 k v :
  In (k, v) (JsMap.set m k0 v0) -> (k = k0 /\ v = v0) \/ In (k, v) m.
Proof.
  induction m as [|[k1 v1] r IH]; simpl.
  - intros [[= <- <-]|[]]. now left.
  - destruct (key_eqb k1 k0) eqn:E; simpl.
    + apply key_eqb_eq in E. subst k1.
      intros [[= <- <-]|Hin]; [now left|right; now right].
    + intros [Heq|Hin]; [right; now left|].
      destruct (IH Hin) as [Hnew|Hold]; [now left|right; now right].
Qed.

Lemma flagColumn_toColumn rows : Forall flagColumn (map toColumn rows).
Proof.
  induction rows as [|r rows IH]; simpl; constructor; [|assumption].
  unfold flagColumn, toColumn. simpl. destruct (notnull r =? 0); auto.
Qed.

Lemma tableStructures_getCachedMailboxId db a now now' w :
  tableStructures (mem (snd (getCachedMailboxId db a now now' w)))
  = tableStructures (mem w).
Proof.
  unfold getCachedMailboxId. destruct (isEmpty (normalized a)); [reflexivity|].
  getter_cases; reflexivity.
Qed.

Lemma tableStructures_getCachedUserQuota db u now now' w :
  tableStructures (mem (snd (getCachedUserQuota db u now now' w)))
  = tableStructures (mem w).
Proof. unfold getCachedUserQuota. getter_cases; reflexivity. Qed.

Lemma tableStructures_getCachedSystemStat db k q now now' w :
  tableStructures (mem (snd (getCachedSystemStat db k q now now' w)))
  = tableStructures (mem w).
Proof. unfold getCachedSystemStat. getter_cases; reflexivity. Qed.

Lemma columnsNormalized_getCachedTableStructure db t now now' w :
  columnsNormalized (mem w) ->
  columnsNormalized (mem (snd (getCachedTableStructure db t now now' w))).
Proof.
  intros Hinv. unfold getCachedTableStructure. getter_cases; try assumption;
    intros k e Hin; apply in_set_inv in Hin;
    (destruct Hin as [[_ ->]|Hin]; [apply flagColumn_toColumn|exact (Hinv k e Hin)]).
Qed.

Lemma exec_columnsNormalized call w :
  columnsNormalized (mem w) -> columnsNormalized (mem (exec call w)).
Proof.
  intros Hinv. destruct call; simpl.
  - now apply columnsNormalized_getCachedTableStructure.
  - rewrite snd_hasColumn. now apply columnsNormalized_getCachedTableStructure.
  - unfold columnsNormalized. now rewrite tableStructures_getCachedMailboxId.
  - unfold updateMailboxIdCache.
    destruct (isEmpty (normalized address) || falsyId id); assumption.
  - assumption.
  - unfold columnsNormalized. now rewrite tableStructures_getCachedUserQuota.
  - assumption.
  - unfold columnsNormalized. now rewrite tableStructures_getCachedSystemStat.
  - unfold invalidateSystemStatCache.
    destruct statKey as [k|]; [destruct (isEmpty k)|]; assumption.
  - unfold clearExpiredCache.
    destruct (now - lastClearTime (mem w) <? CACHE_TTL.clearInterval); assumption.
  - intros k e [].
Qed.

Lemma execAll_columnsNormalized calls : forall w,
  columnsNormalized (mem w) -> columnsNormalized (mem (execAll calls w)).
Proof.
  unfold execAll. induction calls as [|call calls IH]; intros w Hinv; simpl; [assumption|].
  apply IH. now apply exec_columnsNormalized.
Qed.

(** X7.  In every state the module reaches from its load, whatever
    calls were made and whatever the database holds,
    [getCachedTableStructure] returns columns whose [notnull] flag is 0
    or 1, from the cache as well as from a fresh read, and it never
    throws. *)
Theorem X7_columns_have_flags :
  forall (calls : list Call) (loaded : Z) (db : DB) (tableName : string)
         (now now' : Z),
    exists cols,
      fst (getCachedTableStructure db tableName now now'
             (execAll calls {| mem := initialCACHE loaded; dbLog := [] |}))
      = Returned cols
      /\ Forall flagColumn cols.
Proof.
  intros calls loaded db tableName now now'.
  set (w := execAll calls {| mem := initialCACHE loaded; dbLog := [] |}).
  assert (Hinv : columnsNormalized (mem w)).
  { subst w. apply execAll_columnsNormalized. intros k e []. }
  unfold getCachedTableStructure. run_js.
  destruct (JsMap.get (tableStructures (mem w)) tableName) as [cached|] eqn:G.
  - destruct (now - timestamp cached <? CACHE_TTL.tableStructure).
    + exists (value cached). split; [reflexivity|].
      apply (Hinv tableName). now apply JsMapFacts.get_Some_in.
    + destruct (pragma_table_info db tableName) as [res|e]; simpl.
      * eexists. split; [reflexivity|apply flagColumn_toColumn].
      * exists []. split; [reflexivity|constructor].
  - destruct (pragma_table_info db tableName) as [res|e]; simpl.
    + eexists. split; [reflexivity|apply flagColumn_toColumn].
    + exists []. split; [reflexivity|constructor].
Qed.

(** ** Sweeps and lookups *)

Lemma served_None_stale {A} (cached : option (Item A)) now ttl :
  served cached now ttl = None -> stale cached now ttl.
Proof.
  unfold served. intros Hs e ->.
  destruct (now - timestamp e <? ttl) eqn:E; [discriminate|].
  apply Z.ltb_ge in E. lia.
Qed.

Lemma served_Some_hit {A} (cached : option (Item A)) now ttl v :
  served cached now ttl = Some v ->
  exists e, cached = Some e /\ value e = v /\ now - timestamp e < ttl.
Proof.
  unfold served. destruct cached as [e|]; [|discriminate].
  destruct (now - timestamp e <? ttl) eqn:E; [|discriminate].
  intros [= <-]. exists e. apply Z.ltb_lt in E. auto.
Qed.

(** Each getter sees the cache only through the value served for its
    key. *)
Lemma getCachedMailboxId_view db a now now' w1 w2 :
  dbLog w1 = dbLog w2 ->
  served (JsMap.get (mailboxIds (mem w1)) (normalized a)) now CACHE_TTL.mailboxId
  = served (JsMap.get (mailboxIds (mem w2)) (normalized a)) now CACHE_TTL.mailboxId ->
  fst (getCachedMailboxId db a now now' w1) = fst (getCachedMailboxId db a now now' w2)
  /\ dbLog (snd (getCachedMailboxId db a now now' w1))
     = dbLog (snd (getCachedMailboxId db a now now' w2)).
Proof.
  intros Hlog Hview. destruct (isEmpty (normalized a)) eqn:Hne.
  - rewrite !getCachedMailboxId_empty by assumption. now split.
  - destruct (served (JsMap.get (mailboxIds (mem w2)) (normalized a)) now
                CACHE_TTL.mailboxId) as [v|] eqn:S2.
    + apply served_Some_hit in Hview. destruct Hview as (e1 & G1 & <- & H1).
      apply served_Some_hit in S2. destruct S2 as (e2 & G2 & Hv & H2).
      rewrite (getCachedMailboxId_hit db a now now' w1 e1 Hne G1 H1).
      rewrite (getCachedMailboxId_hit db a now now' w2 e2 Hne G2 H2).
      simpl. rewrite Hv. now split.
    + rewrite !getCachedMailboxId_miss by (assumption || now apply served_None_stale).
      destruct (select_mailbox_id db (normalized a)); simpl; rewrite Hlog; now split.
Qed.

Lemma getCachedUserQuota_view db u now now' w1 w2 :
  dbLog w1 = dbLog w2 ->
  served (JsMap.get (userQuotas (mem w1)) u) now CACHE_TTL.userQuota
  = served (JsMap.get (userQuotas (mem w2)) u) now CACHE_TTL.userQuota ->
  fst (getCachedUserQuota db u now now' w1) = fst (getCachedUserQuota db u now now' w2)
  /\ dbLog (snd (getCachedUserQuota db u now now' w1))
     = dbLog (snd (getCachedUserQuota db u now now' w2)).
Proof.
  intros Hlog Hview.
  destruct (served (JsMap.get (userQuotas (mem w2)) u) now CACHE_TTL.userQuota)
    as [v|] eqn:S2.
  - apply served_Some_hit in Hview. destruct Hview as (e1 & G1 & <- & H1).
    apply served_Some_hit in S2. destruct S2 as (e2 & G2 & Hv & H2).
    rewrite (getCachedUserQuota_hit db u now now' w1 e1 G1 H1).
    rewrite (getCachedUserQuota_hit db u now now' w2 e2 G2 H2).
    simpl. rewrite Hv. now split.
  - rewrite !getCachedUserQuota_miss by now apply served_None_stale.
    destruct (select_mailbox_limit db u); simpl; [|rewrite Hlog; now split].
    destruct (count_user_mailboxes db u); simpl; rewrite Hlog; now split.
Qed.

Lemma getCachedSystemStat_view db k q now now' w1 w2 :
  dbLog w1 = dbLog w2 ->
  served (JsMap.get (systemStats (mem w1)) k) now CACHE_TTL.systemStats
  = served (JsMap.get (systemStats (mem w2)) k) now CACHE_TTL.systemStats ->
  fst (getCachedSystemStat db k q now now' w1) = fst (getCachedSystemStat db k q now now' w2)
  /\ dbLog (snd (getCachedSystemStat db k q now now' w1))
     = dbLog (snd (getCachedSystemStat db k q now now' w2)).
Proof.
  intros Hlog Hview.
  destruct (served (JsMap.get (systemStats (mem w2)) k) now CACHE_TTL.systemStats)
    as [v|] eqn:S2.
  - apply served_Some_hit in Hview. destruct Hview as (e1 & G1 & <- & H1).
    apply served_Some_hit in S2. destruct S2 as (e2 & G2 & Hv & H2).
    rewrite (getCachedSystemStat_hit db k q now now' w1 e1 G1 H1).
    rewrite (getCachedSystemStat_hit db k q now now' w2 e2 G2 H2).
    simpl. rewrite Hv. now split.
  - rewrite !getCachedSystemStat_miss by now apply served_None_stale.
    destruct (q db); simpl; rewrite Hlog; now split.
Qed.

(** What a lookup finds after the sweep loop. *)
Lemma sweepLoop_get {K A} `{KeyEq K} (m : JsMap.t K (Item A)) now ttl k :
  JsMap.wf m ->
  JsMap.get (sweepLoop m now ttl) k =
  match JsMap.get m k with
  | Some e => if now - timestamp e >? ttl then None else Some e
  | None => None
  end.
Proof.
  intros Hwf. destruct (JsMap.get m k) as [e|] eqn:G.
  - apply JsMapFacts.get_Some_in in G.
    destruct (now - timestamp e >? ttl) eqn:E.
    + apply JsMapFacts.get_None_notin. intros Hin.
      apply in_map_iff in Hin. destruct Hin as ([k' e'] & Hk & Hin). simpl in Hk. subst k'.
      apply (sweepLoop_in m now ttl (k, e') Hwf) in Hin. destruct Hin as (Hin & Hfresh).
      assert (He : (k, e') = (k, e)) by (apply (wf_same_key m); auto).
      injection He as ->. simpl in Hfresh. apply Z.gtb_lt in E. lia.
    + apply JsMapFacts.in_get_wf; [now apply sweepLoop_wf|].
      apply (sweepLoop_in m now ttl (k, e) Hwf). split; [assumption|].
      simpl. rewrite Z.gtb_ltb in E. apply Z.ltb_ge in E. lia.
  - now apply sweepLoop_absent.
Qed.

Lemma sweepLoop_served {K A} `{KeyEq K} (m : JsMap.t K (Item A)) swept now ttl k :
  JsMap.wf m -> swept <= now ->
  served (JsMap.get (sweepLoop m swept ttl) k) now ttl = served (JsMap.get m k) now ttl.
Proof.
  intros Hwf Hle. rewrite sweepLoop_get by assumption.
  destruct (JsMap.get m k) as [e|]; [|reflexivity].
  destruct (swept - timestamp e >? ttl) eqn:E; [|reflexivity].
  apply Z.gtb_lt in E. simpl.
  now rewrite Zltb_false_ge by lia.
Qed.

(** X8.  A sweep is invisible to lookups: for a cache whose maps bind
    each key once, a lookup made at or after the time of a
    [clearExpiredCache()] call returns the same outcome and makes the
    same database accesses as it would have made without that call, in
    the address, quota and statistic namespaces alike (whether the gate
    let the sweep run or not). *)
Theorem X8_sweep_invisible_to_lookups :
  forall (db : DB) (w : World) (swept now now' : Z) (address : option string)
         (userId : Z) (statKey : string) (queryFn : DB -> outcome Z),
    cacheWf (mem w) ->
    swept <= now ->
    let w' := onCACHE (clearExpiredCache swept) w in
    (fst (getCachedMailboxId db address now now' w')
       = fst (getCachedMailboxId db address now now' w)
     /\ dbLog (snd (getCachedMailboxId db address now now' w'))
        = dbLog (snd (getCachedMailboxId db address now now' w)))
    /\ (fst (getCachedUserQuota db userId now now' w')
          = fst (getCachedUserQuota db userId now now' w)
        /\ dbLog (snd (getCachedUserQuota db userId now now' w'))
           = dbLog (snd (getCachedUserQuota db userId now now' w)))
    /\ (fst (getCachedSystemStat db statKey queryFn now now' w')
          = fst (getCachedSystemStat db statKey queryFn now now' w)
        /\ dbLog (snd (getCachedSystemStat db statKey queryFn now now' w'))
           = dbLog (snd (getCachedSystemStat db statKey queryFn now now' w))).
Proof.
  intros db w swept now now' address userId statKey queryFn (Ht & Hm & Hq & Hs) Hle w'.
  subst w'. unfold onCACHE, clearExpiredCache.
  destruct (swept - lastClearTime (mem w) <? CACHE_TTL.clearInterval).
  - destruct w as [c l]. simpl. repeat split.
  - split; [|split].
    + apply getCachedMailboxId_view; [reflexivity|]. simpl. now apply sweepLoop_served.
    + apply getCachedUserQuota_view; [reflexivity|]. simpl. now apply sweepLoop_served.
    + apply getCachedSystemStat_view; [reflexivity|]. simpl. now apply sweepLoop_served.
Qed.

Lemma X8_sweep_invisible_to_lookups_witness :
  fst (getCachedMailboxId sampleDB (Some "a@x.com") 7200001 7200002
         (onCACHE (clearExpiredCache 7200000) sampleWorld))
    = fst (getCachedMailboxId sampleDB (Some "a@x.com") 7200001 7200002 sampleWorld)
  /\ mailboxIds (mem (onCACHE (clearExpiredCache 7200000) sampleWorld)) = []
  /\ mailboxIds (mem sampleWorld)
     = [("a@x.com", {| value := Some 7; timestamp := 0 |})].
Proof.
  assert (Hwf : cacheWf (mem sampleWorld)).
  { unfold cacheWf. simpl. repeat split;
      repeat (apply NoDup_cons; [intros []|]); apply NoDup_nil. }
  assert (Hle : 7200000 <= 7200001) by lia.
  destruct (X8_sweep_invisible_to_lookups sampleDB sampleWorld 7200000 7200001 7200002
              (Some "a@x.com") 1 "total" (fun _ => Returned 0) Hwf Hle)
    as ((Hres & _) & _ & _).
  split; [exact Hres|split; reflexivity].
Defined.

(** ** Normal forms of addresses *)

Lemma lowerChar_idem c : lowerChar (lowerChar c) = lowerChar c.
Proof. destruct c as [[] [] [] [] [] [] [] []]; reflexivity. Qed.

Lemma isWhiteSpace_lowerChar c : isWhiteSpace (lowerChar c) = isWhiteSpace c.
Proof. destruct c as [[] [] [] [] [] [] [] []]; reflexivity. Qed.

Lemma toLowerCase_idem s : toLowerCase (toLowerCase s) = toLowerCase s.
Proof. induction s as [|c r IH]; simpl; [reflexivity|]. now rewrite lowerChar_idem, IH. Qed.

Lemma trimStart_toLowerCase s : trimStart (toLowerCase s) = toLowerCase (trimStart s).
Proof.
  induction s as [|c r IH]; simpl; [reflexivity|].
  rewrite isWhiteSpace_lowerChar. now destruct (isWhiteSpace c).
Qed.

Lemma trimEnd_toLowerCase s : trimEnd (toLowerCase s) = toLowerCase (trimEnd s).
Proof.
  induction s as [|c r IH]; simpl; [reflexivity|].
  rewrite IH, isWhiteSpace_lowerChar.
  destruct (trimEnd r); simpl; [now destruct (isWhiteSpace c)|reflexivity].
Qed.

Lemma trim_toLowerCase s : trim (toLowerCase s) = toLowerCase (trim s).
Proof. unfold trim. now rewrite trimStart_toLowerCase, trimEnd_toLowerCase. Qed.

Lemma trimEnd_idem s : trimEnd (trimEnd s) = trimEnd s.
Proof.
  induction s as [|c r IH]; simpl; [reflexivity|].
  destruct (trimEnd r) as [|c' r'] eqn:E.
  - destruct (isWhiteSpace c) eqn:W; simpl; [reflexivity|now rewrite W].
  - change (trimEnd (String c (String c' r'))) with
      (match trimEnd (String c' r') with
       | EmptyString => if isWhiteSpace c then EmptyString else String c EmptyString
       | r'' => String c r''
       end).
    now rewrite IH.
Qed.

Lemma trimStart_head s :
  trimStart s = "" \/ exists c r, trimStart s = String c r /\ isWhiteSpace c = false.
Proof.
  induction s as [|c r IH]; simpl; [now left|].
  destruct (isWhiteSpace c) eqn:W; [assumption|].
  right. now exists c, r.
Qed.

Lemma trimStart_trimEnd_clean c r :
  isWhiteSpace c = false ->
  trimStart (trimEnd (String c r)) = trimEnd (String c r).
Proof.
  intros W. simpl. destruct (trimEnd r); rewrite ?W; simpl; now rewrite ?W.
Qed.

Lemma trim_idem s : trim (trim s) = trim s.
Proof.
  unfold trim. destruct (trimStart_head s) as [E|(c & r & E & W)]; rewrite E.
  - reflexivity.
  - rewrite (trimStart_trimEnd_clean c r W). apply trimEnd_idem.
Qed.

Lemma normalized_idem address : normalized (Some (normalized address)) = normalized address.
Proof.
  unfold normalized. now rewrite trim_toLowerCase, trim_idem, toLowerCase_idem.
Qed.

(** X9.  The normal form under which the address operations store and
    look up is a fixed point of the normalization (trimming and
    lower-casing it again changes nothing), so an operation called with
    the stored key itself behaves exactly as with the address it came
    from. *)
Theorem X9_normal_form_is_fixed_point :
  forall (db : DB) (w : World) (address : option string) (id : option Z)
         (now now' : Z),
    normalized (Some (normalized address)) = normalized address
    /\ getCachedMailboxId db (Some (normalized address)) now now' w
       = getCachedMailboxId db address now now' w
    /\ updateMailboxIdCache (Some (normalized address)) id now (mem w)
       = updateMailboxIdCache address id now (mem w)
    /\ invalidateMailboxCache (Some (normalized address)) (mem w)
       = invalidateMailboxCache address (mem w).
Proof.
  intros db w address id now now'.
  pose proof (normalized_idem address) as Hidem.
  split; [exact Hidem|].
  unfold getCachedMailboxId, updateMailboxIdCache, invalidateMailboxCache.
  rewrite Hidem. repeat split.
Qed.









(** ** The keys of the address map *)









(** ** Reads of the LRU store *)

Lemma lru_get_unfold {V} (c : LRU.LRUCache V) key now :
  LRU.get c key now =
  match JsMap.get (LRU.cache c) key with
  | None => (None, c)
  | Some item =>
      if now - timestamp item >? LRU.ttl c
      then (None, LRU.with_cache c (JsMap.delete (LRU.cache c) key))
      else (Some (value item),
            LRU.with_cache c (JsMap.set (JsMap.delete (LRU.cache c) key) key item))
  end.
Proof. reflexivity. Qed.

Lemma Zgtb_true a b : a > b -> (a >? b) = true.
Proof. intros. apply Z.gtb_lt. lia. Qed.

Lemma Zgtb_false a b : a <= b -> (a >? b) = false.
Proof. intros. rewrite Z.gtb_ltb. apply Z.ltb_ge. lia. Qed.

(** X12.  A [get] of an entry older than the TTL returns [null] and
    removes the entry: the key is gone, [size()] drops by one, and the
    other keys keep their entries and their order. *)
Theorem X12_lru_expired_read_evicts :
  forall (V : Type) (c : LRU.LRUCache V) (key : string) (item : Item V) (now : Z),
    JsMap.wf (LRU.cache c) ->
    JsMap.get (LRU.cache c) key = Some item ->
    now - timestamp item > LRU.ttl c ->
    let r := LRU.get c key now in
    fst r = None
    /\ JsMap.get (LRU.cache (snd r)) key = None
    /\ LRU.size (snd r) = LRU.size c - 1
    /\ (forall k', k' <> key ->
          JsMap.get (LRU.cache (snd r)) k' = JsMap.get (LRU.cache c) k')
    /\ LRU.order (snd r)
       = filter (fun k' => negb (String.eqb k' key)) (LRU.order c).
Proof.
  intros V c key item now Hwf G Hold r. subst r.
  rewrite lru_get_unfold, G, (Zgtb_true _ _ Hold). simpl.
  split; [reflexivity|]. split; [apply JsMapFacts.get_delete_same|].
  split; [|split].
  - unfold LRU.size, JsMap.size. simpl.
    assert (Hlen : S (List.length (JsMap.delete (LRU.cache c) key))
                   = List.length (LRU.cache c))
      by (apply JsMapFacts.length_delete_present; [assumption|congruence]).
    lia.
  - intros k' N. apply JsMapFacts.get_delete_other. congruence.
  - unfold LRU.order. simpl. now rewrite JsMapFacts.keys_delete.
Qed.

Lemma X12_lru_expired_read_evicts_witness :
  let c := LRU.run (LRU.new 3 1000) [LRU.OpSet "1" "one" 0; LRU.OpSet "2" "two" 500] in
  fst (LRU.get c "1" 1001) = None
  /\ LRU.size (snd (LRU.get c "1" 1001)) = 1
  /\ LRU.order (snd (LRU.get c "1" 1001)) = ["2"].
Proof.
  intros c.
  assert (Hwf : JsMap.wf (LRU.cache c)).
  { unfold JsMap.wf. simpl.
    repeat (apply NoDup_cons; [simpl; intuition discriminate|]). apply NoDup_nil. }
  destruct (X12_lru_expired_read_evicts string c "1" {| value := "one"; timestamp := 0 |}
              1001 Hwf eq_refl eq_refl) as (Hres & _ & Hsize & _ & Horder).
  split; [exact Hres|]. split; [exact Hsize|exact Horder].
Defined.

(** X13.  A successful [get] changes nothing but the order: it returns
    the stored value, keeps the entry with its original timestamp,
    leaves every entry and [size()] as they were, and moves the key to
    the most recent end. *)
Theorem X13_lru_hit_only_reorders :
  forall (V : Type) (c : LRU.LRUCache V) (key : string) (item : Item V) (now : Z),
    JsMap.wf (LRU.cache c) ->
    JsMap.get (LRU.cache c) key = Some item ->
    now - timestamp item <= LRU.ttl c ->
    let r := LRU.get c key now in
    fst r = Some (value item)
    /\ (forall k', JsMap.get (LRU.cache (snd r)) k' = JsMap.get (LRU.cache c) k')
    /\ LRU.size (snd r) = LRU.size c
    /\ LRU.order (snd r)
       = filter (fun k' => negb (String.eqb k' key)) (LRU.order c) ++ [key].
Proof.
  intros V c key item now Hwf G Hfresh r. subst r.
  rewrite lru_get_unfold, G, (Zgtb_false _ _ Hfresh). simpl.
  assert (Gd : JsMap.get (JsMap.delete (LRU.cache c) key) key = None)
    by apply JsMapFacts.get_delete_same.
  split; [reflexivity|]. split; [|split].
  - intros k'. destruct (String.eqb key k') eqn:E.
    + apply String.eqb_eq in E. subst k'. now rewrite JsMapFacts.get_set_same.
    + apply String.eqb_neq in E.
      now rewrite JsMapFacts.get_set_other, JsMapFacts.get_delete_other.
  - unfold LRU.size, JsMap.size. simpl.
    rewrite (JsMapFacts.set_absent _ _ _ Gd), length_app. simpl.
    assert (Hlen : S (List.length (JsMap.delete (LRU.cache c) key))
                   = List.length (LRU.cache c))
      by (apply JsMapFacts.length_delete_present; [assumption|congruence]).
    lia.
  - unfold LRU.order. simpl.
    now rewrite (JsMapFacts.keys_set_absent _ _ _ Gd), JsMapFacts.keys_delete.
Qed.

Lemma X13_lru_hit_only_reorders_witness :
  let c := LRU.run (LRU.new 3 1000) [LRU.OpSet "1" "one" 0; LRU.OpSet "2" "two" 500] in
  fst (LRU.get c "1" 1000) = Some "one"
  /\ JsMap.get (LRU.cache (snd (LRU.get c "1" 1000))) "1"
     = Some {| value := "one"; timestamp := 0 |}
  /\ LRU.order (snd (LRU.get c "1" 1000)) = ["2"; "1"].
Proof.
  intros c.
  assert (Hwf : JsMap.wf (LRU.cache c)).
  { unfold JsMap.wf. simpl.
    repeat (apply NoDup_cons; [simpl; intuition discriminate|]). apply NoDup_nil. }
  destruct (X13_lru_hit_only_reorders string c "1" {| value := "one"; timestamp := 0 |}
              1000 Hwf eq_refl) as (Hres & Hsame & _ & Horder).
  { vm_compute. discriminate. }
  split; [exact Hres|]. split; [|exact Horder].
  rewrite Hsame. reflexivity.
Defined.

Lemma lru_get_keeps_or_expires {V} (s : LRU.LRUCache V) key k' now :
  JsMap.get (LRU.cache (snd (LRU.get s k' now))) key = JsMap.get (LRU.cache s) key
  \/ (k' = key
      /\ JsMap.get (LRU.cache (snd (LRU.get s k' now))) key = None
      /\ exists it, JsMap.get (LRU.cache s) key = Some it
                    /\ now - timestamp it > LRU.ttl s).
Proof.
  rewrite lru_get_unfold.
  destruct (JsMap.get (LRU.cache s) k') as [it|] eqn:G; [|now left].
  destruct (now - timestamp it >? LRU.ttl s) eqn:E; simpl.
  - destruct (String.eqb k' key) eqn:Ek.
    + apply String.eqb_eq in Ek. subst k'. right. split; [reflexivity|].
      split; [apply JsMapFacts.get_delete_same|].
      exists it. split; [assumption|]. apply Z.gtb_lt in E. lia.
    + apply String.eqb_neq in Ek. left. now apply JsMapFacts.get_delete_other.
  - destruct (String.eqb k' key) eqn:Ek.
    + apply String.eqb_eq in Ek. subst k'. left.
      now rewrite JsMapFacts.get_set_same.
    + apply String.eqb_neq in Ek. left.
      now rewrite JsMapFacts.get_set_other, JsMapFacts.get_delete_other.
Qed.

Lemma lru_reads_keep_entry {V} (reads : list (string * Z)) :
  forall (s : LRU.LRUCache V) key it,
    JsMap.get (LRU.cache s) key = Some it ->
    let s' := LRU.run s (readOps reads) in
    (JsMap.get (LRU.cache s') key = None \/ JsMap.get (LRU.cache s') key = Some it)
    /\ ((forall r, In r reads -> fst r = key -> snd r - timestamp it <= LRU.ttl s) ->
        JsMap.get (LRU.cache s') key = Some it).
Proof.
  unfold LRU.run.
  induction reads as [|[k' t'] reads IH]; intros s key it G; simpl.
  - split; [now right|now intros _].
  - destruct (lru_get_keeps_or_expires s key k' t') as [Hkeep|(-> & Hgone & it' & G' & Hold)].
    + rewrite <- Hkeep in G.
      destruct (IH (snd (LRU.get s k' t')) key it G) as (Hor & Hall).
      split; [exact Hor|].
      intros Hreads. apply Hall. intros r Hr Hk.
      pose proof (LRUFacts.ttl_step s (LRU.OpGet k' t')) as Httl. simpl in Httl.
      rewrite Httl. apply Hreads; [now right|assumption].
    + split.
      * left. clear IH G G' Hold.
        revert Hgone. generalize (snd (LRU.get s key t')). clear s.
        induction reads as [|[k2 t2] reads IH2]; intros s Hgone; simpl; [assumption|].
        apply IH2.
        destruct (lru_get_keeps_or_expires s key k2 t2) as [Hkeep|(_ & Hg & _)];
          [now rewrite Hkeep|assumption].
      * intros Hreads. rewrite G in G'. injection G' as <-.
        specialize (Hreads (key, t') (or_introl eq_refl) eq_refl). simpl in Hreads. lia.
Qed.

Lemma lru_ttl_run {V} (ops : list (LRU.Op V)) : forall s,
  LRU.ttl (LRU.run s ops) = LRU.ttl s.
Proof.
  unfold LRU.run. induction ops as [|op ops IH]; intros s; simpl; [reflexivity|].
  now rewrite IH, LRUFacts.ttl_step.
Qed.

(** X14.  Reads neither evict nor extend a lifetime.  After
    [set(key, v)] at time [t0] and any sequence of [get] calls on any
    keys, a [get(key)] later than [t0 + ttl] returns [null], however
    often the key was read in between; and when every read of the key,
    the last one included, came no later than [t0 + ttl], it returns
    [v], however many other keys were read. *)
Theorem X14_lru_reads_keep_lifetime :
  forall (V : Type) (c : LRU.LRUCache V) (key : string) (v : V) (t0 t : Z)
         (reads : list (string * Z)),
    let s := LRU.run (LRU.set c key v t0) (readOps reads) in
    (t - t0 > LRU.ttl c -> fst (LRU.get s key t) = None)
    /\ ((forall r, In r reads -> fst r = key -> snd r - t0 <= LRU.ttl c) ->
        t - t0 <= LRU.ttl c ->
        fst (LRU.get s key t) = Some v).
Proof.
  intros V c key v t0 t reads s.
  assert (G0 : JsMap.get (LRU.cache (LRU.set c key v t0)) key
               = Some {| value := v; timestamp := t0 |}).
  { rewrite LRUFacts.set_unfold. simpl. apply JsMapFacts.get_set_same. }
  destruct (lru_reads_keep_entry reads (LRU.set c key v t0) key _ G0) as (Hor & Hall).
  fold s in Hor, Hall.
  assert (Httl : LRU.ttl s = LRU.ttl c) by (subst s; now rewrite lru_ttl_run).
  split.
  - intros Hold. rewrite lru_get_unfold.
    destruct Hor as [-> | ->]; [reflexivity|].
    simpl. rewrite Httl. now rewrite (Zgtb_true _ _ Hold).
  - intros Hreads Hfresh. rewrite lru_get_unfold, (Hall Hreads).
    simpl. rewrite Httl. now rewrite (Zgtb_false _ _ Hfresh).
Qed.

Lemma X14_lru_reads_keep_lifetime_witness :
  let s := LRU.run (LRU.set (LRU.new 3 1000) "k" "v" 0)
             (readOps [("k", 400); ("other", 2000); ("k", 900)]) in
  fst (LRU.get s "k" 1001) = None /\ fst (LRU.get s "k" 1000) = Some "v".
Proof.
  intros s.
  destruct (X14_lru_reads_keep_lifetime string (LRU.new 3 1000) "k" "v" 0 1001
              [("k", 400); ("other", 2000); ("k", 900)]) as (Hold & _).
  destruct (X14_lru_reads_keep_lifetime string (LRU.new 3 1000) "k" "v" 0 1000
              [("k", 400); ("other", 2000); ("k", 900)]) as (_ & Hfresh).
  split.
  - apply Hold. reflexivity.
  - apply Hfresh.
    + intros r [<-|[<-|[<-|[]]]] Hk; simpl; try discriminate Hk; vm_compute; discriminate.
    + vm_compute. discriminate.
Defined.

(** ** Writes of the LRU store *)

(** X15.  An insert of a new key into a store below its capacity evicts
    nothing: every entry is kept, the new key goes to the most recent
    end with the fresh timestamp, and [size()] grows by one. *)
Theorem X15_lru_insert_below_capacity :
  forall (V : Type) (c : LRU.LRUCache V) (key : string) (v : V) (now : Z),
    JsMap.get (LRU.cache c) key = None ->
    LRU.size c < LRU.capacity c ->
    let c' := LRU.set c key v now in
    LRU.size c' = LRU.size c + 1
    /\ JsMap.get (LRU.cache c') key = Some {| value := v; timestamp := now |}
    /\ (forall k', k' <> key ->
          JsMap.get (LRU.cache c') k' = JsMap.get (LRU.cache c) k')
    /\ LRU.order c' = LRU.order c ++ [key].
Proof.
  intros V c key v now G Hroom c'. subst c'.
  rewrite LRUFacts.set_unfold, (JsMapFacts.delete_absent _ _ G).
  rewrite evicted_below_capacity by exact Hroom.
  unfold LRU.size, LRU.order. simpl.
  split; [|split; [|split]].
  - rewrite (JsMapFacts.set_absent _ _ _ G). unfold JsMap.size.
    rewrite length_app. simpl. lia.
  - apply JsMapFacts.get_set_same.
  - intros k' N. apply JsMapFacts.get_set_other. congruence.
  - now apply JsMapFacts.keys_set_absent.
Qed.

Lemma X15_lru_insert_below_capacity_witness :
  let c := LRU.run (LRU.new 3 1000) [LRU.OpSet "1" "one" 0; LRU.OpSet "2" "two" 1] in
  LRU.size (LRU.set c "3" "three" 2) = 3
  /\ LRU.order (LRU.set c "3" "three" 2) = ["1"; "2"; "3"].
Proof.
  intros c.
  destruct (X15_lru_insert_below_capacity string c "3" "three" 2 eq_refl eq_refl)
    as (Hsize & _ & _ & Horder).
  split; [exact Hsize|exact Horder].
Defined.

(** X16.  A [set] removes at most the oldest entry, and only from a
    full store: when a key other than the written one had an entry
    before the call and has none after it, that key was the first key
    of the map (the written key set aside) and the map, without the
    written key, had reached the capacity. *)
Theorem X16_lru_set_removes_only_oldest :
  forall (V : Type) (c : LRU.LRUCache V) (key k' : string) (v : V) (now : Z),
    k' <> key ->
    JsMap.get (LRU.cache c) k' <> None ->
    JsMap.get (LRU.cache (LRU.set c key v now)) k' = None ->
    JsMap.first_key (JsMap.delete (LRU.cache c) key) = Some k'
    /\ JsMap.size (JsMap.delete (LRU.cache c) key) >= LRU.capacity c.
Proof.
  intros V c key k' v now N Hbefore Hafter.
  rewrite LRUFacts.set_unfold in Hafter. simpl in Hafter.
  rewrite JsMapFacts.get_set_other in Hafter by congruence.
  unfold LRU.evicted in Hafter.
  set (m1 := JsMap.delete (LRU.cache c) key) in *.
  assert (G1 : JsMap.get m1 k' = JsMap.get (LRU.cache c) k')
    by (subst m1; apply JsMapFacts.get_delete_other; congruence).
  destruct (JsMap.size m1 >=? LRU.capacity c) eqn:Efull.
  - destruct (JsMap.first_key m1) as [fk|] eqn:Efirst.
    + destruct (String.eqb fk k') eqn:Ek.
      * apply String.eqb_eq in Ek. subst fk. split; [reflexivity|].
        rewrite Z.geb_leb in Efull. apply Z.leb_le in Efull. lia.
      * apply String.eqb_neq in Ek.
        rewrite JsMapFacts.get_delete_other in Hafter by assumption. congruence.
    + congruence.
  - congruence.
Qed.

Lemma X16_lru_set_removes_only_oldest_witness :
  let c := LRU.run (LRU.new 2 1000) [LRU.OpSet "1" "one" 0; LRU.OpSet "2" "two" 1] in
  JsMap.first_key (JsMap.delete (LRU.cache c) "3") = Some "1"
  /\ JsMap.size (JsMap.delete (LRU.cache c) "3") >= LRU.capacity c.
Proof.
  intros c.
  apply (X16_lru_set_removes_only_oldest string c "3" "1" "three" 2);
    [discriminate|discriminate|reflexivity].
Defined.

(** X17.  [delete(key)] removes the entry of that key and nothing else,
    also right after a [set]: the next [get(key)] returns [null] at
    any time, the other keys keep their entries, [size()] does not
    grow, and deleting again changes nothing.  After [clear()] the
    store is empty and every [get] returns [null]. *)
Theorem X17_lru_delete_and_clear :
  forall (V : Type) (c : LRU.LRUCache V) (key k' : string) (v : V) (now t : Z),
    fst (LRU.get (LRU.delete (LRU.set c key v now) key) key t) = None
    /\ fst (LRU.get (LRU.delete c key) key t) = None
    /\ (k' <> key ->
        JsMap.get (LRU.cache (LRU.delete c key)) k' = JsMap.get (LRU.cache c) k')
    /\ LRU.size (LRU.delete c key) <= LRU.size c
    /\ LRU.delete (LRU.delete c key) key = LRU.delete c key
    /\ LRU.size (LRU.clear c) = 0
    /\ fst (LRU.get (LRU.clear c) k' t) = None.
Proof.
  intros V c key k' v now t.
  assert (Hgone : forall c0 : LRU.LRUCache V,
             fst (LRU.get (LRU.delete c0 key) key t) = None).
  { intros c0. rewrite lru_get_unfold. unfold LRU.delete. simpl.
    now rewrite JsMapFacts.get_delete_same. }
  split; [apply Hgone|]. split; [apply Hgone|]. split; [|split; [|split; [|split]]].
  - intros N. unfold LRU.delete. simpl. apply JsMapFacts.get_delete_other. congruence.
  - unfold LRU.size, LRU.delete, JsMap.size. simpl.
    pose proof (JsMapFacts.length_delete_le (LRU.cache c) key). lia.
  - unfold LRU.delete. simpl. now rewrite delete_delete.
  - reflexivity.
  - reflexivity.
Qed.

Lemma X17_lru_delete_and_clear_witness :
  JsMap.get (LRU.cache (LRU.delete (LRU.run (LRU.new 3 1000) scenarioOps) "1")) "4"
  = Some {| value := "four"; timestamp := 4 |}.
Proof.
  destruct (X17_lru_delete_and_clear string (LRU.run (LRU.new 3 1000) scenarioOps)
              "1" "4" "x" 0 0) as (_ & _ & Hframe & _).
  rewrite Hframe; [reflexivity|discriminate].
Defined.

(** ** The e-mail content cache *)

Lemma emailKey_inj a b : emailKey a = emailKey b -> a = b.
Proof. unfold emailKey. simpl. intros E. now injection E. Qed.

Lemma lru_get_fst_same {V} (c c' : LRU.LRUCache V) key t :
  LRU.ttl c' = LRU.ttl c ->
  JsMap.get (LRU.cache c') key = JsMap.get (LRU.cache c) key ->
  fst (LRU.get c' key t) = fst (LRU.get c key t).
Proof.
  intros Httl G. rewrite !lru_get_unfold, G, Httl.
  destruct (JsMap.get (LRU.cache c) key) as [it|]; [|reflexivity].
  now destruct (t - timestamp it >? LRU.ttl c).
Qed.

Lemma lru_set_other_kept_or_gone {V} (c : LRU.LRUCache V) key k v now :
  k <> key ->
  JsMap.get (LRU.cache (LRU.set c key v now)) k = JsMap.get (LRU.cache c) k
  \/ JsMap.get (LRU.cache (LRU.set c key v now)) k = None.
Proof.
  intros N. rewrite LRUFacts.set_unfold. simpl.
  rewrite JsMapFacts.get_set_other by congruence.
  unfold LRU.evicted.
  set (m1 := JsMap.delete (LRU.cache c) key).
  assert (G1 : JsMap.get m1 k = JsMap.get (LRU.cache c) k)
    by (subst m1; apply JsMapFacts.get_delete_other; congruence).
  destruct (JsMap.size m1 >=? LRU.capacity c); [|now left].
  destruct (JsMap.first_key m1) as [fk|]; [|now left].
  destruct (String.eqb fk k) eqn:Ek.
  - apply String.eqb_eq in Ek. subst fk. right. apply JsMapFacts.get_delete_same.
  - apply String.eqb_neq in Ek. left. now rewrite JsMapFacts.get_delete_other.
Qed.

(** X18.  Content cached under one e-mail id is never handed out for
    another id.  Caching content for [id'] leaves what a lookup of a
    different [id] returns as it was, or turns it into [null] (an
    eviction); invalidating [id'] leaves it as it was; invalidating
    [id] itself makes the lookup return [null]; and a lookup of [id]
    within the TTL of its own write returns the content written. *)
Theorem X18_email_content_is_per_id :
  forall (V : Type) (c : LRU.LRUCache V) (id id' : string) (content : V) (t0 t : Z),
    (t - t0 <= LRU.ttl c ->
     fst (getCachedEmailContent id t (cacheEmailContent id content t0 c)) = Some content)
    /\ fst (getCachedEmailContent id t (invalidateEmailContentCache id c)) = None
    /\ (id' <> id ->
        fst (getCachedEmailContent id t (invalidateEmailContentCache id' c))
        = fst (getCachedEmailContent id t c))
    /\ (id' <> id ->
        fst (getCachedEmailContent id t (cacheEmailContent id' content t0 c))
          = fst (getCachedEmailContent id t c)
        \/ fst (getCachedEmailContent id t (cacheEmailContent id' content t0 c)) = None).
Proof.
  intros V c id id' content t0 t.
  unfold getCachedEmailContent, cacheEmailContent, invalidateEmailContentCache.
  split; [|split; [|split]].
  - intros Hfresh. rewrite LRUFacts.set_unfold, lru_get_unfold. simpl.
    rewrite JsMapFacts.get_set_same. simpl. now rewrite (Zgtb_false _ _ Hfresh).
  - rewrite lru_get_unfold. unfold LRU.delete. simpl.
    now rewrite JsMapFacts.get_delete_same.
  - intros N. apply lru_get_fst_same; [reflexivity|].
    unfold LRU.delete. simpl. apply JsMapFacts.get_delete_other.
    intros E. apply emailKey_inj in E. congruence.
  - intros N.
    assert (Nk : emailKey id <> emailKey id')
      by (intros E; apply emailKey_inj in E; congruence).
    destruct (lru_set_other_kept_or_gone c (emailKey id') (emailKey id) content t0 Nk)
      as [Hkept|Hgone].
    + left. now apply lru_get_fst_same.
    + right. rewrite lru_get_unfold. now rewrite Hgone.
Qed.

Lemma X18_email_content_is_per_id_witness :
  fst (getCachedEmailContent "7" 3600000
         (cacheEmailContent "7" "body" 0 emailContentCache)) = Some "body"
  /\ fst (getCachedEmailContent "7" 1
            (invalidateEmailContentCache "17"
               (cacheEmailContent "7" "body" 0 emailContentCache))) = Some "body".
Proof.
  destruct (X18_email_content_is_per_id string emailContentCache "7" "17" "body"
              0 3600000) as (Hround & _ & _ & _).
  destruct (X18_email_content_is_per_id string
              (cacheEmailContent "7" "body" 0 emailContentCache) "7" "17" "body"
              0 1) as (_ & _ & Hinv & _).
  split.
  - apply Hround. vm_compute. discriminate.
  - rewrite Hinv; [reflexivity|discriminate].
Defined.

Lemma execEmail_capacity {V} (c : LRU.LRUCache V) call :
  LRU.capacity (execEmail c call) = LRU.capacity c.
Proof.
  destruct call as [id content now|id now|id]; simpl.
  - reflexivity.
  - apply (LRUFacts.capacity_step c (LRU.OpGet (emailKey id) now)).
  - reflexivity.
Qed.

Lemma execEmail_size {V} (c : LRU.LRUCache V) call :
  LRU.size c <= Z.max (LRU.capacity c) 1 ->
  LRU.size (execEmail c call) <= Z.max (LRU.capacity c) 1.
Proof.
  intros Hb. destruct call as [id content now|id now|id]; simpl.
  - now apply LRUFacts.size_set_bound.
  - unfold getCachedEmailContent.
    pose proof (LRUFacts.size_get_bound c (emailKey id) now). lia.
  - unfold invalidateEmailContentCache, LRU.delete, LRU.size, JsMap.size in *. simpl.
    pose proof (JsMapFacts.length_delete_le (LRU.cache c) (emailKey id)). lia.
Qed.

(** X19.  The module's e-mail content cache never holds more than 1000
    entries, whatever sequence of [cacheEmailContent],
    [getCachedEmailContent] and [invalidateEmailContentCache] calls it
    receives. *)
Theorem X19_email_cache_is_bounded :
  forall (V : Type) (calls : list (EmailCall V)),
    LRU.size (execEmailAll calls emailContentCache) <= 1000.
Proof.
  intros V calls.
  assert (Hgen : forall c : LRU.LRUCache V,
             LRU.size c <= Z.max (LRU.capacity c) 1 ->
             LRU.size (execEmailAll calls c) <= Z.max (LRU.capacity c) 1).
  { unfold execEmailAll. induction calls as [|call calls IH]; intros c Hb; simpl;
      [assumption|].
    rewrite <- (execEmail_capacity c call). apply IH.
    rewrite execEmail_capacity. now apply execEmail_size. }
  specialize (Hgen emailContentCache).
  change (LRU.capacity (@emailContentCache V)) with 1000 in Hgen.
  change (LRU.size (@emailContentCache V)) with 0 in Hgen. lia.
Qed.

(** ** What a lookup costs and what it leaves alone *)



(** X21.  A lookup writes only in its own namespace: the three other
    maps of the cache object and the time of the last sweep are the
    same after the call as before, whether the call hit, loaded or
    failed. *)
Theorem X21_lookup_stays_in_its_namespace :
  forall (db : DB) (w : World) (address : option string) (tableName : string)
         (userId : Z) (statKey : string) (queryFn : DB -> outcome Z) (now now' : Z),
    (let c' := mem (snd (getCachedMailboxId db address now now' w)) in
     tableStructures c' = tableStructures (mem w) /\ userQuotas c' = userQuotas (mem w)
     /\ systemStats c' = systemStats (mem w) /\ lastClearTime c' = lastClearTime (mem w))
    /\ (let c' := mem (snd (getCachedTableStructure db tableName now now' w)) in
        mailboxIds c' = mailboxIds (mem w) /\ userQuotas c' = userQuotas (mem w)
        /\ systemStats c' = systemStats (mem w) /\ lastClearTime c' = lastClearTime (mem w))
    /\ (let c' := mem (snd (getCachedUserQuota db userId now now' w)) in
        tableStructures c' = tableStructures (mem w) /\ mailboxIds c' = mailboxIds (mem w)
        /\ systemStats c' = systemStats (mem w) /\ lastClearTime c' = lastClearTime (mem w))
    /\ (let c' := mem (snd (getCachedSystemStat db statKey queryFn now now' w)) in
        tableStructures c' = tableStructures (mem w) /\ mailboxIds c' = mailboxIds (mem w)
        /\ userQuotas c' = userQuotas (mem w) /\ lastClearTime c' = lastClearTime (mem w)).
Proof.
  intros db w address tableName userId statKey queryFn now now'.
  split; [|split; [|split]].
  - unfold getCachedMailboxId.
    destruct (isEmpty (normalized address)); [repeat split|].
    getter_cases; repeat split.
  - unfold getCachedTableStructure. getter_cases; repeat split.
  - unfold getCachedUserQuota. getter_cases; repeat split.
  - unfold getCachedSystemStat. getter_cases; repeat split.
Qed.

(** ** Truncation of message bodies *)

Module ReceiverFacts.
Import Receiver.

Lemma ascii7_not_surrogate u :
  (u < 0x80)%N -> isHighSurrogate u = false /\ isLowSurrogate u = false.
Proof.
  intros Hu. unfold isHighSurrogate, isLowSurrogate.
  assert (H1 : (0xD800 <=? u)%N = false) by (apply N.leb_gt; lia).
  assert (H2 : (0xDC00 <=? u)%N = false) by (apply N.leb_gt; lia).
  now rewrite H1, H2.
Qed.

Lemma scalarValues_ascii7 s : ascii7 s -> scalarValues s = s.
Proof.
  induction 1 as [|u r Hu Hr IH]; simpl; [reflexivity|].
  destruct (ascii7_not_surrogate u Hu) as (-> & ->). now rewrite IH.
Qed.

Lemma utf8Bytes_ascii7 u : (u < 0x80)%N -> utf8Bytes u = [u].
Proof.
  intros Hu. unfold utf8Bytes.
  assert (H : (u <? 0x80)%N = true) by (apply N.ltb_lt; lia). now rewrite H.
Qed.

Lemma encode_ascii7 s : ascii7 s -> encode s = s.
Proof.
  intros Hs. unfold encode. rewrite (scalarValues_ascii7 s Hs).
  induction Hs as [|u r Hu Hr IH]; simpl; [reflexivity|].
  now rewrite (utf8Bytes_ascii7 u Hu), IH.
Qed.

Lemma firstByte_ascii7 u : (u < 0x80)%N -> firstByte u = Emit u.
Proof.
  intros Hu. unfold firstByte.
  assert (H : (u <=? 0x7F)%N = true) by (apply N.leb_le; lia). now rewrite H.
Qed.

Lemma decodeCodePoints_ascii7 l : ascii7 l -> decodeCodePoints l initialState = l.
Proof.
  induction 1 as [|u r Hu Hr IH]; simpl; [reflexivity|].
  now rewrite (firstByte_ascii7 u Hu), IH.
Qed.

Lemma stripBOM_ascii7 l : ascii7 l -> stripBOM l = l.
Proof.
  intros Hl. destruct Hl as [|u r Hu Hr]; simpl; [reflexivity|].
  assert (H : (u =? 0xFEFF)%N = false) by (apply N.eqb_neq; lia). now rewrite H.
Qed.

Lemma codeUnits_ascii7 l : ascii7 l -> flat_map codeUnits l = l.
Proof.
  induction 1 as [|u r Hu Hr IH]; simpl; [reflexivity|].
  unfold codeUnits at 1.
  assert (H : (u <? 0x10000)%N = true) by (apply N.ltb_lt; lia).
  rewrite H. simpl. now rewrite IH.
Qed.

Lemma decode_ascii7 l : ascii7 l -> decode l = l.
Proof.
  intros Hl. unfold decode.
  now rewrite (decodeCodePoints_ascii7 l Hl), (stripBOM_ascii7 l Hl), codeUnits_ascii7.
Qed.

Lemma ascii7_firstn n l : ascii7 l -> ascii7 (firstn n l).
Proof.
  unfold ascii7. intros Hl. revert n.
  induction Hl as [|u r Hu Hr IH]; intros [|n]; simpl; constructor; auto.
Qed.

End ReceiverFacts.

(** X22.  On a string of ASCII characters [truncateByBytes] is
    [str.slice(0, maxBytes)]: for a limit that is not negative it
    returns the first [maxBytes] characters (the whole string when it
    is shorter), never more than [maxBytes] of them. *)
Theorem X22_truncate_ascii :
  forall (str : list N) (maxBytes : Z),
    Receiver.ascii7 str ->
    Receiver.truncateByBytes str maxBytes = Receiver.slice0 str maxBytes
    /\ (0 <= maxBytes ->
        Receiver.truncateByBytes str maxBytes = firstn (Z.to_nat maxBytes) str
        /\ Z.of_nat (List.length (Receiver.truncateByBytes str maxBytes)) <= maxBytes).
Proof.
  intros str maxBytes Hascii.
  assert (Hslice : Receiver.truncateByBytes str maxBytes = Receiver.slice0 str maxBytes).
  { unfold Receiver.truncateByBytes. destruct str as [|u r] eqn:Es.
    - unfold Receiver.slice0. now rewrite firstn_nil.
    - rewrite <- Es in *. rewrite (ReceiverFacts.encode_ascii7 str Hascii).
      destruct (Z.of_nat (List.length str) <=? maxBytes) eqn:Efit.
      + apply Z.leb_le in Efit. unfold Receiver.slice0.
        assert (Hpos : (maxBytes <? 0) = false) by (apply Z.ltb_ge; lia).
        rewrite Hpos, Z.min_r, Nat2Z.id by lia. now rewrite firstn_all.
      + apply ReceiverFacts.decode_ascii7.
        unfold Receiver.slice0. now apply ReceiverFacts.ascii7_firstn. }
  split; [exact Hslice|].
  intros Hpos. rewrite Hslice. unfold Receiver.slice0.
  assert (Hnn : (maxBytes <? 0) = false) by (apply Z.ltb_ge; lia).
  rewrite Hnn.
  destruct (Z.le_ge_cases maxBytes (Z.of_nat (List.length str))) as [Hle|Hge].
  - rewrite Z.min_l by lia. split; [reflexivity|].
    rewrite length_firstn. lia.
  - rewrite Z.min_r, Nat2Z.id by lia. rewrite firstn_all. split.
    + symmetry. apply firstn_all2. lia.
    + lia.
Qed.

Lemma X22_truncate_ascii_witness :
  Receiver.truncateByBytes [104; 101; 108; 108; 111]%N 3 = [104; 101; 108]%N.
Proof.
  assert (Hascii : Receiver.ascii7 [104; 101; 108; 108; 111]%N)
    by (repeat constructor).
  destruct (X22_truncate_ascii [104; 101; 108; 108; 111]%N 3 Hascii) as (_ & Hpos).
  destruct Hpos as (Hcut & _); [lia|]. exact Hcut.
Defined.

(** ** UTF-8: what the decoder makes of a cut encoding *)

Module Utf8Facts.
Import Receiver.
Local Open Scope N_scope.

Ltac arith := zify; Z.to_euclidean_division_equations; lia.

Lemma lor_shift6 a y : y < 64 -> N.lor (N.shiftl a 6) y = a * 64 + y.
Proof.
  intros Hy.
  assert (Hland : N.land (N.shiftl a 6) y = 0).
  { apply N.bits_inj. intros m. rewrite N.land_spec, N.bits_0.
    destruct (N.lt_ge_cases m 6) as [Hm|Hm].
    - now rewrite N.shiftl_spec_low.
    - replace y with (N.land y (N.ones 6)).
      + rewrite N.land_spec, (N.ones_spec_high 6 m Hm).
        now rewrite !Bool.andb_false_r.
      + rewrite N.land_ones. apply N.mod_small. exact Hy. }
  rewrite <- (N.lxor_lor _ _ Hland), <- (N.add_nocarry_lxor _ _ Hland).
  now rewrite N.shiftl_mul_pow2.
Qed.

Lemma continuation_value c b :
  N.lor (N.shiftl c 6) (N.land b 0x3F) = c * 64 + b mod 64.
Proof.
  change 0x3F with (N.ones 6). rewrite N.land_ones. change (2 ^ 6) with 64.
  apply lor_shift6. apply N.mod_lt. discriminate.
Qed.

Lemma decodeCodePoints_cons b rest st :
  decodeCodePoints (b :: rest) st =
  let fromStart :=
    match firstByte b with
    | Emit cp => cp :: decodeCodePoints rest initialState
    | Begin st' => decodeCodePoints rest st'
    | Invalid => 0xFFFD :: decodeCodePoints rest initialState
    end in
  if bytesNeeded st =? 0 then fromStart
  else if (lowerBoundary st <=? b) && (b <=? upperBoundary st) then
    let cp := N.lor (N.shiftl (codePoint st) 6) (N.land b 0x3F) in
    if bytesSeen st + 1 =? bytesNeeded st
    then cp :: decodeCodePoints rest initialState
    else decodeCodePoints rest
           {| codePoint := cp; bytesNeeded := bytesNeeded st;
              bytesSeen := bytesSeen st + 1;
              lowerBoundary := 0x80; upperBoundary := 0xBF |}
  else 0xFFFD :: fromStart.
Proof. reflexivity. Qed.

Lemma leb_true a b : a <= b -> (a <=? b) = true.
Proof. intros. now apply N.leb_le. Qed.
Lemma leb_false a b : b < a -> (a <=? b) = false.
Proof. intros. now apply N.leb_gt. Qed.
Lemma eqb_false a b : a <> b -> (a =? b) = false.
Proof. intros. now apply N.eqb_neq. Qed.

Lemma firstByte_1 b : b <= 0x7F -> firstByte b = Emit b.
Proof. intros H. unfold firstByte. now rewrite (leb_true _ _ H). Qed.

Lemma firstByte_2 b :
  0xC2 <= b -> b <= 0xDF ->
  firstByte b = Begin {| codePoint := b mod 32; bytesNeeded := 1; bytesSeen := 0;
                         lowerBoundary := 0x80; upperBoundary := 0xBF |}.
Proof.
  intros H1 H2. unfold firstByte.
  rewrite (leb_false b 0x7F) by lia.
  rewrite (leb_true _ _ H1), (leb_true _ _ H2).
  change 0x1F with (N.ones 5). now rewrite N.land_ones.
Qed.

Lemma firstByte_3 b :
  0xE0 <= b -> b <= 0xEF ->
  firstByte b = Begin {| codePoint := b mod 16; bytesNeeded := 2; bytesSeen := 0;
                         lowerBoundary := if b =? 0xE0 then 0xA0 else 0x80;
                         upperBoundary := if b =? 0xED then 0x9F else 0xBF |}.
Proof.
  intros H1 H2. unfold firstByte.
  rewrite (leb_false b 0x7F) by lia.
  rewrite (leb_false b 0xDF) by lia. rewrite Bool.andb_false_r.
  rewrite (leb_true _ _ H1), (leb_true _ _ H2).
  change 0xF with (N.ones 4). now rewrite N.land_ones.
Qed.

Lemma firstByte_4 b :
  0xF0 <= b -> b <= 0xF4 ->
  firstByte b = Begin {| codePoint := b mod 8; bytesNeeded := 3; bytesSeen := 0;
                         lowerBoundary := if b =? 0xF0 then 0x90 else 0x80;
                         upperBoundary := if b =? 0xF4 then 0x8F else 0xBF |}.
Proof.
  intros H1 H2. unfold firstByte.
  rewrite (leb_false b 0x7F) by lia.
  rewrite (leb_false b 0xDF) by lia. rewrite Bool.andb_false_r.
  rewrite (leb_false b 0xEF) by lia. rewrite Bool.andb_false_r.
  rewrite (leb_true _ _ H1), (leb_true _ _ H2).
  change 0x7 with (N.ones 3). now rewrite N.land_ones.
Qed.

Lemma step_start b rest st' :
  firstByte b = Begin st' ->
  decodeCodePoints (b :: rest) initialState = decodeCodePoints rest st'.
Proof. intros H. rewrite decodeCodePoints_cons. cbv zeta. now rewrite H. Qed.

Lemma step_emit b rest :
  b <= 0x7F ->
  decodeCodePoints (b :: rest) initialState = b :: decodeCodePoints rest initialState.
Proof. intros H. rewrite decodeCodePoints_cons. cbv zeta. now rewrite (firstByte_1 b H). Qed.

Lemma step_last c n s lo hi b rest :
  n <> 0 -> s + 1 = n -> lo <= b -> b <= hi ->
  decodeCodePoints (b :: rest)
    {| codePoint := c; bytesNeeded := n; bytesSeen := s;
       lowerBoundary := lo; upperBoundary := hi |}
  = (c * 64 + b mod 64) :: decodeCodePoints rest initialState.
Proof.
  intros Hn Hs Hlo Hhi. rewrite decodeCodePoints_cons. cbv zeta.
  cbn [bytesNeeded bytesSeen lowerBoundary upperBoundary codePoint].
  rewrite (eqb_false n 0 Hn), (leb_true _ _ Hlo), (leb_true _ _ Hhi).
  cbn [andb]. rewrite Hs, N.eqb_refl. now rewrite continuation_value.
Qed.

Lemma step_more c n s lo hi b rest :
  n <> 0 -> s + 1 <> n -> lo <= b -> b <= hi ->
  decodeCodePoints (b :: rest)
    {| codePoint := c; bytesNeeded := n; bytesSeen := s;
       lowerBoundary := lo; upperBoundary := hi |}
  = decodeCodePoints rest
      {| codePoint := c * 64 + b mod 64; bytesNeeded := n; bytesSeen := s + 1;
         lowerBoundary := 0x80; upperBoundary := 0xBF |}.
Proof.
  intros Hn Hs Hlo Hhi. rewrite decodeCodePoints_cons. cbv zeta.
  cbn [bytesNeeded bytesSeen lowerBoundary upperBoundary codePoint].
  rewrite (eqb_false n 0 Hn), (leb_true _ _ Hlo), (leb_true _ _ Hhi).
  cbn [andb]. rewrite (eqb_false _ _ Hs). now rewrite continuation_value.
Qed.

Lemma step_end c n s lo hi :
  n <> 0 ->
  decodeCodePoints []
    {| codePoint := c; bytesNeeded := n; bytesSeen := s;
       lowerBoundary := lo; upperBoundary := hi |} = [0xFFFD].
Proof.
  intros Hn. cbn [decodeCodePoints bytesNeeded]. now rewrite (eqb_false n 0 Hn).
Qed.

Lemma if_bounds (c : bool) (a b x : N) : (if c then a else b) = x -> (c = true /\ a = x) \/ (c = false /\ b = x).
Proof. destruct c; auto. Qed.

Ltac bounds :=
  repeat match goal with
  | |- context [if (?a =? ?b) then _ else _] =>
      let E := fresh "E" in destruct (a =? b) eqn:E;
      [apply N.eqb_eq in E | apply N.eqb_neq in E]
  end; arith.

Lemma utf8Bytes_cases cp :
  scalar cp ->
  (cp < 0x80 /\ utf8Bytes cp = [cp])
  \/ (0x80 <= cp < 0x800 /\ utf8Bytes cp = [0xC0 + cp / 0x40; 0x80 + cp mod 0x40])
  \/ (0x800 <= cp < 0x10000 /\
      utf8Bytes cp = [0xE0 + cp / 0x1000; 0x80 + (cp / 0x40) mod 0x40; 0x80 + cp mod 0x40])
  \/ (0x10000 <= cp < 0x110000 /\
      utf8Bytes cp = [0xF0 + cp / 0x40000; 0x80 + (cp / 0x1000) mod 0x40;
                      0x80 + (cp / 0x40) mod 0x40; 0x80 + cp mod 0x40]).
Proof.
  intros (Hmax & _). unfold utf8Bytes.
  destruct (cp <? 0x80) eqn:E1; [apply N.ltb_lt in E1; now left|apply N.ltb_ge in E1].
  destruct (cp <? 0x800) eqn:E2; [apply N.ltb_lt in E2; right; left; split; [lia|reflexivity]|apply N.ltb_ge in E2].
  destruct (cp <? 0x10000) eqn:E3; [apply N.ltb_lt in E3; right; right; left; split; [lia|reflexivity]|apply N.ltb_ge in E3].
  right; right; right. split; [lia|reflexivity].
Qed.

Lemma step_begin2 b rest :
  0xC2 <= b -> b <= 0xDF ->
  decodeCodePoints (b :: rest) initialState
  = decodeCodePoints rest {| codePoint := b mod 32; bytesNeeded := 1; bytesSeen := 0;
                             lowerBoundary := 0x80; upperBoundary := 0xBF |}.
Proof. intros H1 H2. apply step_start. now apply firstByte_2. Qed.

Lemma step_begin3 b rest :
  0xE0 <= b -> b <= 0xEF ->
  decodeCodePoints (b :: rest) initialState
  = decodeCodePoints rest {| codePoint := b mod 16; bytesNeeded := 2; bytesSeen := 0;
                             lowerBoundary := if b =? 0xE0 then 0xA0 else 0x80;
                             upperBoundary := if b =? 0xED then 0x9F else 0xBF |}.
Proof. intros H1 H2. apply step_start. now apply firstByte_3. Qed.

Lemma step_begin4 b rest :
  0xF0 <= b -> b <= 0xF4 ->
  decodeCodePoints (b :: rest) initialState
  = decodeCodePoints rest {| codePoint := b mod 8; bytesNeeded := 3; bytesSeen := 0;
                             lowerBoundary := if b =? 0xF0 then 0x90 else 0x80;
                             upperBoundary := if b =? 0xF4 then 0x8F else 0xBF |}.
Proof. intros H1 H2. apply step_start. now apply firstByte_4. Qed.

Lemma decode_scalar cp rest :
  scalar cp ->
  decodeCodePoints (utf8Bytes cp ++ rest) initialState = cp :: decodeCodePoints rest initialState.
Proof.
  intros Hs. pose proof Hs as (Hmax & Hsur).
  destruct (utf8Bytes_cases cp Hs) as [(H1 & ->)|[(H2 & ->)|[(H3 & ->)|(H4 & ->)]]];
    cbn [app].
  - apply step_emit. lia.
  - rewrite step_begin2 by arith.
    rewrite step_last by (try discriminate; try reflexivity; arith).
    f_equal. arith.
  - rewrite step_begin3 by arith.
    rewrite step_more by (try discriminate; bounds).
    rewrite step_last by (try discriminate; try reflexivity; arith).
    f_equal. arith.
  - rewrite step_begin4 by arith.
    rewrite step_more by (try discriminate; bounds).
    rewrite step_more by (try discriminate; arith).
    rewrite step_last by (try discriminate; try reflexivity; arith).
    f_equal. arith.
Qed.

Lemma decode_partial cp m :
  scalar cp -> (0 < m < List.length (utf8Bytes cp))%nat ->
  decodeCodePoints (firstn m (utf8Bytes cp)) initialState = [0xFFFD].
Proof.
  intros Hs. pose proof Hs as (Hmax & Hsur).
  destruct (utf8Bytes_cases cp Hs) as [(H1 & ->)|[(H2 & ->)|[(H3 & ->)|(H4 & ->)]]];
    cbn [List.length]; intros Hm.
  - lia.
  - destruct m as [|[|m]]; try lia. cbn [firstn].
    rewrite step_begin2 by arith. now apply step_end.
  - destruct m as [|[|[|m]]]; try lia; cbn [firstn].
    + rewrite step_begin3 by arith. now apply step_end.
    + rewrite step_begin3 by arith.
      rewrite step_more by (try discriminate; bounds). now apply step_end.
  - destruct m as [|[|[|[|m]]]]; try lia; cbn [firstn].
    + rewrite step_begin4 by arith. now apply step_end.
    + rewrite step_begin4 by arith.
      rewrite step_more by (try discriminate; bounds). now apply step_end.
    + rewrite step_begin4 by arith.
      rewrite step_more by (try discriminate; bounds).
      rewrite step_more by (try discriminate; arith). now apply step_end.
Qed.

Lemma decode_scalars (l : list N) tailBytes :
  Forall scalar l ->
  decodeCodePoints (flat_map utf8Bytes l ++ tailBytes) initialState
  = l ++ decodeCodePoints tailBytes initialState.
Proof.
  induction 1 as [|cp l Hcp Hl IH]; [reflexivity|].
  cbn [flat_map]. rewrite <- app_assoc, (decode_scalar cp _ Hcp), IH. reflexivity.
Qed.

(** Cutting an encoding after [n] bytes keeps some code points whole
    and at most a proper part of the next one. *)
Lemma firstn_encoding (cps : list N) : forall n : nat,
  (n < List.length (flat_map utf8Bytes cps))%nat ->
  exists k part,
    (k < List.length cps)%nat
    /\ firstn n (flat_map utf8Bytes cps) = flat_map utf8Bytes (firstn k cps) ++ part
    /\ (part = []
        \/ exists cp m, In cp cps /\ part = firstn m (utf8Bytes cp)
                        /\ (0 < m < List.length (utf8Bytes cp))%nat).
Proof.
  induction cps as [|cp cps IH]; intros n Hn; cbn [flat_map] in *; [simpl in Hn; lia|].
  rewrite length_app in Hn.
  destruct (Nat.lt_ge_cases n (List.length (utf8Bytes cp))) as [Hlt|Hge].
  - exists 0%nat, (firstn n (utf8Bytes cp)). split; [simpl; lia|]. split.
    + rewrite firstn_app. replace (n - List.length (utf8Bytes cp))%nat with 0%nat by lia.
      cbn [firstn flat_map app]. now rewrite app_nil_r.
    + destruct n as [|n]; [now left|right].
      exists cp, (S n). split; [now left|]. split; [reflexivity|lia].
  - destruct (IH (n - List.length (utf8Bytes cp))%nat ltac:(lia)) as (k & part & Hk & Hcut & Hpart).
    exists (S k), part. split; [simpl; lia|]. split.
    + rewrite firstn_app, Hcut, firstn_all2 by lia.
      cbn [firstn flat_map]. now rewrite app_assoc.
    + destruct Hpart as [->|(cp' & m & Hin & -> & Hm)]; [now left|right].
      exists cp', m. split; [now right|]. split; [reflexivity|assumption].
Qed.

Lemma scalarValues_single u r :
  isHighSurrogate u = false -> isLowSurrogate u = false ->
  scalarValues (u :: r) = u :: scalarValues r.
Proof. intros H1 H2. cbn [scalarValues]. now rewrite H1, H2. Qed.

Lemma scalarValues_pair u lo r :
  isHighSurrogate u = true -> isLowSurrogate lo = true ->
  scalarValues (u :: lo :: r)
  = (0x10000 + (u - 0xD800) * 0x400 + (lo - 0xDC00)) :: scalarValues r.
Proof. intros H1 H2. cbn [scalarValues]. now rewrite H1, H2. Qed.

Lemma wellFormed_ind2 (P : list N -> Prop) :
  P [] ->
  (forall u r, isHighSurrogate u = false -> isLowSurrogate u = false -> u < 0x10000 ->
               wellFormed r = true -> P r -> P (u :: r)) ->
  (forall u lo r, isHighSurrogate u = true -> isLowSurrogate lo = true ->
                  wellFormed r = true -> P r -> P (u :: lo :: r)) ->
  forall s, wellFormed s = true -> P s.
Proof.
  intros Hnil Hone Htwo s.
  assert (Hgen : forall n s, (List.length s <= n)%nat -> wellFormed s = true -> P s).
  { clear s. induction n as [|n IH]; intros s Hlen Hwf.
    - destruct s; [exact Hnil|simpl in Hlen; lia].
    - destruct s as [|u r]; [exact Hnil|].
      cbn [wellFormed] in Hwf. destruct (isHighSurrogate u) eqn:Eh.
      + destruct r as [|lo r']; [discriminate|].
        apply andb_true_iff in Hwf. destruct Hwf as (Hlo & Hr).
        apply Htwo; try assumption. apply IH; [simpl in Hlen; lia|assumption].
      + apply andb_true_iff in Hwf. destruct Hwf as (Hwf & Hr).
        apply andb_true_iff in Hwf. destruct Hwf as (Hl & Hu).
        apply negb_true_iff in Hl. apply N.ltb_lt in Hu.
        apply Hone; try assumption. apply IH; [simpl in Hlen; lia|assumption]. }
  apply (Hgen (List.length s)). lia.
Qed.

Lemma surrogate_ranges u :
  (isHighSurrogate u = true -> 0xD800 <= u <= 0xDBFF)
  /\ (isLowSurrogate u = true -> 0xDC00 <= u <= 0xDFFF)
  /\ (isHighSurrogate u = false -> isLowSurrogate u = false -> u < 0xD800 \/ 0xDFFF < u).
Proof.
  unfold isHighSurrogate, isLowSurrogate. split; [|split].
  - intros H. apply andb_true_iff in H. destruct H as (H1 & H2).
    apply N.leb_le in H1. apply N.leb_le in H2. lia.
  - intros H. apply andb_true_iff in H. destruct H as (H1 & H2).
    apply N.leb_le in H1. apply N.leb_le in H2. lia.
  - intros H1 H2. apply andb_false_iff in H1. apply andb_false_iff in H2.
    rewrite !N.leb_gt in H1, H2. lia.
Qed.

Lemma scalar_pair u lo :
  isHighSurrogate u = true -> isLowSurrogate lo = true ->
  scalar (0x10000 + (u - 0xD800) * 0x400 + (lo - 0xDC00))
  /\ codeUnits (0x10000 + (u - 0xD800) * 0x400 + (lo - 0xDC00)) = [u; lo].
Proof.
  intros Hu Hlo.
  destruct (surrogate_ranges u) as (Hh & _ & _). specialize (Hh Hu).
  destruct (surrogate_ranges lo) as (_ & Hl & _). specialize (Hl Hlo).
  split; [unfold scalar; lia|].
  unfold codeUnits.
  rewrite (proj2 (N.ltb_ge _ _)) by lia.
  f_equal; [arith|f_equal; arith].
Qed.

Lemma scalar_single u :
  isHighSurrogate u = false -> isLowSurrogate u = false -> u < 0x10000 ->
  scalar u /\ codeUnits u = [u].
Proof.
  intros Hh Hl Hu.
  destruct (surrogate_ranges u) as (_ & _ & Hr). specialize (Hr Hh Hl).
  split; [unfold scalar; lia|].
  unfold codeUnits. now rewrite (proj2 (N.ltb_lt _ _) Hu).
Qed.

Lemma wellFormed_scalars s : wellFormed s = true -> Forall scalar (scalarValues s).
Proof.
  revert s. apply wellFormed_ind2.
  - constructor.
  - intros u r Hh Hl Hu Hr IH. rewrite scalarValues_single by assumption.
    constructor; [now apply scalar_single|assumption].
  - intros u lo r Hh Hl Hr IH. rewrite scalarValues_pair by assumption.
    constructor; [now apply scalar_pair|assumption].
Qed.

Lemma wellFormed_single u r :
  isHighSurrogate u = false -> isLowSurrogate u = false -> u < 0x10000 ->
  wellFormed (u :: r) = wellFormed r.
Proof.
  intros Hh Hl Hu. cbn [wellFormed]. rewrite Hh, Hl.
  now rewrite (proj2 (N.ltb_lt _ _) Hu).
Qed.

Lemma wellFormed_pair u lo r :
  isHighSurrogate u = true -> isLowSurrogate lo = true ->
  wellFormed (u :: lo :: r) = wellFormed r.
Proof. intros Hh Hl. cbn [wellFormed]. now rewrite Hh, Hl. Qed.

(** A prefix of the code points of a well-formed string is the code
    points of a prefix of the string, itself well formed. *)
Lemma wellFormed_prefix s :
  wellFormed s = true ->
  forall k, exists j,
    scalarValues (firstn j s) = firstn k (scalarValues s)
    /\ flat_map codeUnits (firstn k (scalarValues s)) = firstn j s
    /\ wellFormed (firstn j s) = true
    /\ ((k < List.length (scalarValues s))%nat -> (j < List.length s)%nat).
Proof.
  revert s. apply (wellFormed_ind2 (fun s => forall k, exists j,
    scalarValues (firstn j s) = firstn k (scalarValues s)
    /\ flat_map codeUnits (firstn k (scalarValues s)) = firstn j s
    /\ wellFormed (firstn j s) = true
    /\ ((k < List.length (scalarValues s))%nat -> (j < List.length s)%nat))).
  - intros k. exists 0%nat. cbn [scalarValues]. rewrite !firstn_nil.
    repeat split. simpl. lia.
  - intros u r Hh Hl Hu Hr IH k. rewrite scalarValues_single by assumption.
    destruct k as [|k].
    + exists 0%nat. cbn [firstn flat_map List.length scalarValues]. repeat split; lia.
    + destruct (IH k) as (j & Hsv & Hcu & Hwfj & Hlt).
      exists (S j). cbn [firstn flat_map List.length].
      rewrite scalarValues_single, Hsv, Hcu by assumption.
      rewrite (proj2 (scalar_single u Hh Hl Hu)).
      rewrite wellFormed_single by assumption.
      repeat split; [assumption|lia].
  - intros u lo r Hh Hl Hr IH k. rewrite scalarValues_pair by assumption.
    destruct k as [|k].
    + exists 0%nat. cbn [firstn flat_map List.length scalarValues]. repeat split; lia.
    + destruct (IH k) as (j & Hsv & Hcu & Hwfj & Hlt).
      exists (S (S j)). cbn [firstn flat_map List.length].
      rewrite scalarValues_pair, Hsv, Hcu by assumption.
      rewrite (proj2 (scalar_pair u lo Hh Hl)).
      rewrite wellFormed_pair by assumption.
      repeat split; [assumption|lia].
Qed.

Lemma scalarValues_app p q :
  wellFormed p = true -> scalarValues (p ++ q) = scalarValues p ++ scalarValues q.
Proof.
  revert p. apply (wellFormed_ind2 (fun p => scalarValues (p ++ q)
                                             = scalarValues p ++ scalarValues q)).
  - reflexivity.
  - intros u r Hh Hl Hu Hr IH. cbn [app].
    now rewrite !scalarValues_single, IH by assumption.
  - intros u lo r Hh Hl Hr IH. cbn [app].
    now rewrite !scalarValues_pair, IH by assumption.
Qed.

Lemma Forall_firstn_keep {A} (P : A -> Prop) (l : list A) n :
  Forall P l -> Forall P (firstn n l).
Proof.
  intros Hl. revert n.
  induction Hl as [|x r Hx Hr IH]; intros [|n]; simpl; constructor; auto.
Qed.

Lemma scalar_replacement : scalar 0xFFFD.
Proof. unfold scalar. lia. Qed.

Lemma codeUnits_head_not_bom cp :
  scalar cp -> cp <> 0xFEFF ->
  exists u us, codeUnits cp = u :: us /\ u <> 0xFEFF.
Proof.
  intros (Hmax & _) Hne. unfold codeUnits.
  destruct (cp <? 0x10000) eqn:E.
  - exists cp, []. now split.
  - apply N.ltb_ge in E. eexists _, _. split; [reflexivity|]. arith.
Qed.

Lemma stripBOM_codeUnits (cps : list N) :
  Forall scalar cps ->
  flat_map codeUnits (stripBOM cps) = stripBOM (flat_map codeUnits cps).
Proof.
  intros Hs. destruct Hs as [|cp r Hcp Hr]; [reflexivity|].
  cbn [stripBOM flat_map]. destruct (cp =? 0xFEFF) eqn:E.
  - apply N.eqb_eq in E. subst cp. reflexivity.
  - apply N.eqb_neq in E. cbn [flat_map].
    destruct (codeUnits_head_not_bom cp Hcp E) as (u & us & -> & Hu).
    cbn [app stripBOM]. now rewrite (proj2 (N.eqb_neq _ _) Hu).
Qed.

Lemma length_utf8Bytes cp : (1 <= List.length (utf8Bytes cp) <= 4)%nat.
Proof.
  unfold utf8Bytes.
  destruct (cp <? 0x80); [simpl; lia|].
  destruct (cp <? 0x800); [simpl; lia|].
  destruct (cp <? 0x10000); simpl; lia.
Qed.

(** The truncation, for a limit below the encoded length. *)
Lemma truncate_cut (str : list N) (maxBytes : Z) :
  wellFormed str = true ->
  (0 <= maxBytes)%Z ->
  (maxBytes < Z.of_nat (List.length (encode str)))%Z ->
  exists (j : nat) (tail : list N),
    (j < List.length str)%nat
    /\ wellFormed (firstn j str) = true
    /\ truncateByBytes str maxBytes = stripBOM (firstn j str ++ tail)
    /\ ((tail = [] /\ Z.of_nat (List.length (encode (firstn j str))) = maxBytes)
        \/ (tail = [0xFFFD]
            /\ (maxBytes - 3 <= Z.of_nat (List.length (encode (firstn j str))) < maxBytes)%Z)).
Proof.
  intros Hwf Hpos Hcut.
  pose proof (wellFormed_scalars str Hwf) as Hscalars.
  assert (Hne : str <> []) by (intros ->; simpl in Hcut; lia).
  unfold truncateByBytes. destruct str as [|u0 r0] eqn:Es; [congruence|].
  rewrite <- Es in *. clear Hne.
  rewrite (proj2 (Z.leb_gt _ _)) by lia.
  cbv zeta. unfold slice0.
  rewrite (proj2 (Z.ltb_ge _ _)) by lia.
  rewrite Z.min_l by lia.
  set (n := Z.to_nat maxBytes).
  assert (Hn : (n < List.length (encode str))%nat) by (subst n; lia).
  unfold encode in Hn |- * at 1.
  destruct (firstn_encoding (scalarValues str) n Hn) as (k & part & Hk & Hfirst & Hpart).
  rewrite Hfirst. unfold decode.
  assert (Hpre : Forall scalar (firstn k (scalarValues str)))
    by now apply Forall_firstn_keep.
  rewrite (decode_scalars _ part Hpre).
  destruct (wellFormed_prefix str Hwf k) as (j & Hsv & Hcu & Hwfj & Hlt).
  assert (Hlen : (List.length (flat_map utf8Bytes (firstn k (scalarValues str)))
                  + List.length part = n)%nat).
  { rewrite <- length_app, <- Hfirst. apply firstn_length_le. lia. }
  assert (Henc : encode (firstn j str) = flat_map utf8Bytes (firstn k (scalarValues str)))
    by (unfold encode; now rewrite Hsv).
  exists j, (decodeCodePoints part initialState).
  split; [now apply Hlt|]. split; [exact Hwfj|].
  assert (Htail : (decodeCodePoints part initialState = [] /\ part = [])
                  \/ (decodeCodePoints part initialState = [0xFFFD]
                      /\ (1 <= List.length part <= 3)%nat)).
  { destruct Hpart as [->|(cp & m & Hin & -> & Hm)]; [left; now split|right].
    split.
    - apply decode_partial; [|assumption].
      rewrite Forall_forall in Hscalars. now apply Hscalars.
    - pose proof (length_utf8Bytes cp). rewrite length_firstn. lia. }
  split.
  - rewrite stripBOM_codeUnits.
    + rewrite flat_map_app, Hcu. f_equal. f_equal.
      destruct Htail as [(-> & _)|(-> & _)]; reflexivity.
    + apply Forall_app. split; [assumption|].
      destruct Htail as [(-> & _)|(-> & _)]; [constructor|].
      constructor; [apply scalar_replacement|constructor].
  - rewrite Henc. destruct Htail as [(-> & ->)|(-> & Hp)].
    + left. split; [reflexivity|]. simpl in Hlen. subst n. lia.
    + right. split; [reflexivity|]. subst n. lia.
Qed.

Lemma encode_app p q :
  wellFormed p = true -> encode (p ++ q) = encode p ++ encode q.
Proof.
  intros Hp. unfold encode. now rewrite (scalarValues_app p q Hp), flat_map_app.
Qed.

Lemma length_encode_stripBOM s :
  (List.length (encode (stripBOM s)) <= List.length (encode s))%nat.
Proof.
  destruct s as [|u r]; [simpl; lia|]. cbn [stripBOM].
  destruct (u =? 0xFEFF) eqn:E; [|lia].
  apply N.eqb_eq in E. subst u.
  change (0xFEFF :: r) with ([0xFEFF] ++ r).
  rewrite (encode_app [0xFEFF] r eq_refl), length_app. lia.
Qed.

Lemma codeUnits_scalarValues str :
  wellFormed str = true -> flat_map codeUnits (scalarValues str) = str.
Proof.
  revert str. apply wellFormed_ind2.
  - reflexivity.
  - intros u r Hh Hl Hu Hr IH. rewrite scalarValues_single by assumption.
    cbn [flat_map]. now rewrite (proj2 (scalar_single u Hh Hl Hu)), IH.
  - intros u lo r Hh Hl Hr IH. rewrite scalarValues_pair by assumption.
    cbn [flat_map]. now rewrite (proj2 (scalar_pair u lo Hh Hl)), IH.
Qed.

(** Encoding and decoding again gives the string back, but for a
    leading byte order mark. *)
Lemma decode_encode str :
  wellFormed str = true -> decode (encode str) = stripBOM str.
Proof.
  intros Hwf. unfold decode, encode.
  pose proof (wellFormed_scalars str Hwf) as Hs.
  rewrite <- (app_nil_r (flat_map utf8Bytes (scalarValues str))).
  rewrite (decode_scalars _ [] Hs).
  change (decodeCodePoints [] initialState) with (@nil N). rewrite app_nil_r.
  now rewrite (stripBOM_codeUnits _ Hs), codeUnits_scalarValues.
Qed.

End Utf8Facts.

(** X23.  When a well-formed string does not fit a non-negative limit,
    [truncateByBytes] returns a proper prefix of the string, followed
    by at most one replacement character U+FFFD (when the cut fell
    inside the bytes of a character) and without a leading byte order
    mark; the prefix itself encodes to no more than [maxBytes] bytes. *)
Theorem X23_truncate_keeps_a_prefix :
  forall (str : list N) (maxBytes : Z),
    Receiver.wellFormed str = true ->
    0 <= maxBytes ->
    maxBytes < Z.of_nat (List.length (Receiver.encode str)) ->
    exists (j : nat) (tail : list N),
      (j < List.length str)%nat
      /\ (tail = [] \/ tail = [0xFFFD%N])
      /\ Receiver.truncateByBytes str maxBytes
         = Receiver.stripBOM (firstn j str ++ tail)
      /\ Z.of_nat (List.length (Receiver.encode (firstn j str))) <= maxBytes.
Proof.
  intros str maxBytes Hwf Hpos Hcut.
  destruct (Utf8Facts.truncate_cut str maxBytes Hwf Hpos Hcut)
    as (j & tail & Hj & _ & Hres & Hcase).
  exists j, tail. split; [exact Hj|].
  destruct Hcase as [(-> & Hlen)|(-> & Hlen)].
  - split; [now left|]. split; [exact Hres|lia].
  - split; [now right|]. split; [exact Hres|lia].
Qed.

Lemma X23_truncate_keeps_a_prefix_witness :
  exists (j : nat) (tail : list N),
    (j < 3)%nat
    /\ (tail = [] \/ tail = [0xFFFD%N])
    /\ Receiver.truncateByBytes [0x61; 0x20AC; 0x62]%N 2
       = Receiver.stripBOM (firstn j [0x61; 0x20AC; 0x62]%N ++ tail)
    /\ Z.of_nat (List.length (Receiver.encode (firstn j [0x61; 0x20AC; 0x62]%N))) <= 2.
Proof.
  apply (X23_truncate_keeps_a_prefix [0x61; 0x20AC; 0x62]%N 2);
    [reflexivity|lia|vm_compute; reflexivity].
Defined.

(** X24.  For a well-formed string and a non-negative limit, the UTF-8
    encoding of what [truncateByBytes] returns is at most
    [maxBytes + 2] bytes long; the limit itself can be exceeded, since
    a cut character is replaced by U+FFFD, which takes three bytes. *)
Theorem X24_truncate_byte_bound :
  (forall (str : list N) (maxBytes : Z),
      Receiver.wellFormed str = true ->
      0 <= maxBytes ->
      Z.of_nat (List.length (Receiver.encode (Receiver.truncateByBytes str maxBytes)))
      <= maxBytes + 2)
  /\ (exists (str : list N) (maxBytes : Z),
        Receiver.wellFormed str = true /\ 0 <= maxBytes
        /\ Z.of_nat (List.length (Receiver.encode (Receiver.truncateByBytes str maxBytes)))
           = maxBytes + 2).
Proof.
  split.
  - intros str maxBytes Hwf Hpos.
    destruct (Z.lt_ge_cases maxBytes (Z.of_nat (List.length (Receiver.encode str))))
      as [Hcut|Hfit].
    + destruct (Utf8Facts.truncate_cut str maxBytes Hwf Hpos Hcut)
        as (j & tail & Hj & Hwfj & -> & Hcase).
      pose proof (Utf8Facts.length_encode_stripBOM (firstn j str ++ tail)) as Hbom.
      rewrite (Utf8Facts.encode_app _ tail Hwfj), length_app in Hbom.
      destruct Hcase as [(-> & Hlen)|(-> & Hlen)].
      * change (List.length (Receiver.encode [])) with 0%nat in Hbom. lia.
      * change (List.length (Receiver.encode [0xFFFD%N])) with 3%nat in Hbom. lia.
    + unfold Receiver.truncateByBytes. destruct str as [|u r] eqn:Es; [simpl; lia|].
      rewrite <- Es in *. rewrite (proj2 (Z.leb_le _ _)) by lia. lia.
  - exists [0xE9%N], 1. repeat split. lia.
Qed.

Lemma X24_truncate_byte_bound_witness :
  Z.of_nat (List.length (Receiver.encode
              (Receiver.truncateByBytes [0x4E2D; 0x6587; 0x21]%N 4))) <= 4 + 2.
Proof.
  destruct X24_truncate_byte_bound as (Hbound & _).
  apply (Hbound [0x4E2D; 0x6587; 0x21]%N 4); [reflexivity|lia].
Defined.

(** ** The preview of a received message *)

Module PreviewFacts.
Import Preview.
Local Open Scope N_scope.

Lemma space_not_angle c : isSpace c = true -> (c =? GT) = false /\ (c =? LT) = false.
Proof.
  intros Hs. split; apply N.eqb_neq; intros ->; discriminate Hs.
Qed.

Lemma tidy_collapse s : forall b, tidy b (collapse b s) = true.
Proof.
  induction s as [|c r IH]; intros b; cbn [collapse]; [reflexivity|].
  destruct (isSpace c) eqn:Ec.
  - destruct b; [apply IH|].
    cbn [tidy]. change (isSpace SPACE) with true. cbv iota.
    rewrite N.eqb_refl. cbn [negb andb]. apply IH.
  - cbn [tidy]. rewrite Ec. apply IH.
Qed.

Lemma tidy_trimStart s : forall b, tidy b s = true -> tidy true (trimStart s) = true.
Proof.
  induction s as [|c r IH]; intros b Ht; cbn [trimStart]; [reflexivity|].
  cbn [tidy] in Ht. destruct (isSpace c) eqn:Ec.
  - apply andb_true_iff in Ht. destruct Ht as (_ & Ht). now apply (IH true).
  - cbn [tidy]. now rewrite Ec.
Qed.

Lemma tidy_trimEnd s : forall b, tidy b s = true -> tidy b (trimEnd s) = true.
Proof.
  induction s as [|c r IH]; intros b Ht; cbn [trimEnd]; [reflexivity|].
  cbn [tidy] in Ht. destruct (trimEnd r) as [|c' t] eqn:Et.
  - destruct (isSpace c) eqn:Ec; [reflexivity|]. cbn [tidy]. now rewrite Ec.
  - cbn [tidy]. fold (tidy true (c' :: t)). fold (tidy false (c' :: t)).
    destruct (isSpace c) eqn:Ec.
    + apply andb_true_iff in Ht. destruct Ht as (Hc & Ht).
      rewrite Hc. cbn [andb]. now apply IH.
    + now apply IH.
Qed.

Lemma tidy_firstn s : forall n b, tidy b s = true -> tidy b (firstn n s) = true.
Proof.
  induction s as [|c r IH]; intros [|n] b Ht; cbn [firstn]; try reflexivity.
  cbn [tidy] in *. destruct (isSpace c).
  - apply andb_true_iff in Ht. destruct Ht as (Hc & Ht).
    rewrite Hc. cbn [andb]. now apply IH.
  - now apply IH.
Qed.

Lemma tidy_preview text html : tidy true (preview text html) = true.
Proof.
  unfold preview, previewBase, trim.
  apply tidy_firstn, tidy_trimEnd, (tidy_trimStart _ false), tidy_collapse.
Qed.

Lemma tidy_spaces s : forall b u,
  tidy b s = true -> In u s -> isSpace u = true -> u = SPACE.
Proof.
  induction s as [|c r IH]; intros b u Ht Hin Hu; [contradiction|].
  cbn [tidy] in Ht. destruct Hin as [->|Hin].
  - rewrite Hu in Ht. apply andb_true_iff in Ht. destruct Ht as (Hc & _).
    apply andb_true_iff in Hc. destruct Hc as (Hc & _). now apply N.eqb_eq in Hc.
  - destruct (isSpace c).
    + apply andb_true_iff in Ht. destruct Ht as (_ & Ht). now apply (IH true).
    + now apply (IH false).
Qed.

Lemma tidy_no_run s : forall b pre x y post,
  tidy b s = true -> s = pre ++ x :: y :: post ->
  isSpace x = true -> isSpace y = false.
Proof.
  induction s as [|c r IH]; intros b pre x y post Ht Hs Hx.
  - destruct pre; discriminate.
  - cbn [tidy] in Ht. destruct pre as [|p pre]; cbn [app] in Hs.
    + injection Hs as -> ->. rewrite Hx in Ht.
      apply andb_true_iff in Ht. destruct Ht as (_ & Ht).
      cbn [tidy] in Ht. destruct (isSpace y); [|reflexivity].
      rewrite andb_false_r in Ht. discriminate.
    + injection Hs as -> Hr. destruct (isSpace p).
      * apply andb_true_iff in Ht. destruct Ht as (_ & Ht). now apply (IH true pre x y post).
      * now apply (IH false pre x y post).
Qed.

Lemma existsb_gt_strip s : forall b,
  existsb (N.eqb GT) (stripTags b s) = true -> existsb (N.eqb GT) s = true.
Proof.
  induction s as [|c r IH]; intros b; cbn [stripTags existsb]; [trivial|].
  destruct b.
  - destruct (c =? GT) eqn:Ec.
    + apply N.eqb_eq in Ec. subst c. intros _. now rewrite N.eqb_refl.
    + intros H. rewrite (IH true H). apply orb_true_r.
  - destruct ((c =? LT) && startsTag r).
    + intros H. rewrite (IH true H). apply orb_true_r.
    + cbn [existsb]. intros H. apply orb_true_iff in H. destruct H as [H|H].
      * now rewrite H.
      * rewrite (IH false H). apply orb_true_r.
Qed.

Lemma startsTag_false_iff r :
  startsTag r = false <->
  r = [] \/ (exists r', r = GT :: r') \/ existsb (N.eqb GT) r = false.
Proof.
  unfold startsTag. destruct r as [|c r']; [split; auto|].
  split.
  - intros H. apply andb_false_iff in H. destruct H as [H|H].
    + apply negb_false_iff, N.eqb_eq in H. subst c. right. left. now exists r'.
    + right. now right.
  - intros [H|[(r2 & H)|H]]; [discriminate| |].
    + injection H as -> _. now rewrite N.eqb_refl.
    + rewrite H. apply andb_false_r.
Qed.

Lemma startsTag_strip r : startsTag r = false -> startsTag (stripTags false r) = false.
Proof.
  intros H. apply startsTag_false_iff in H. apply startsTag_false_iff.
  destruct H as [->|[(r' & ->)|H]].
  - now left.
  - right. left. cbn [stripTags].
    change ((GT =? LT) && startsTag r') with false. cbv iota. now eexists.
  - right. right. destruct (existsb (N.eqb GT) (stripTags false r)) eqn:E; [|reflexivity].
    apply existsb_gt_strip in E. congruence.
Qed.

Lemma tagFree_strip s :
  tagFree (stripTags false s) = true /\ tagFree (stripTags true s) = true.
Proof.
  induction s as [|c r (IHf & IHt)]; cbn [stripTags]; [now split|].
  split.
  - destruct ((c =? LT) && startsTag r) eqn:E; [exact IHt|].
    cbn [tagFree]. rewrite IHf, andb_true_r. apply negb_true_iff.
    apply andb_false_iff in E. destruct E as [E|E]; [now rewrite E|].
    rewrite (startsTag_strip r E). apply andb_false_r.
  - destruct (c =? GT); [|exact IHt].
    cbn [tagFree]. now rewrite IHf.
Qed.

Lemma existsb_gt_collapse s : forall b,
  existsb (N.eqb GT) (collapse b s) = existsb (N.eqb GT) s.
Proof.
  induction s as [|c r IH]; intros b; cbn [collapse existsb]; [reflexivity|].
  destruct (isSpace c) eqn:Ec.
  - destruct (space_not_angle c Ec) as (Hgt & _).
    rewrite (N.eqb_sym GT c), Hgt. cbn [orb].
    destruct b; [apply IH|]. cbn [existsb]. now rewrite IH.
  - cbn [existsb]. now rewrite IH.
Qed.

Lemma startsTag_collapse r : startsTag (collapse false r) = startsTag r.
Proof.
  destruct r as [|c r']; [reflexivity|].
  unfold startsTag. rewrite existsb_gt_collapse. cbn [collapse].
  destruct (isSpace c) eqn:Ec; [|reflexivity].
  destruct (space_not_angle c Ec) as (Hgt & _). now rewrite Hgt.
Qed.

Lemma tagFree_collapse s : forall b, tagFree s = true -> tagFree (collapse b s) = true.
Proof.
  induction s as [|c r IH]; intros b Ht; cbn [collapse]; [reflexivity|].
  cbn [tagFree] in Ht. apply andb_true_iff in Ht. destruct Ht as (Hc & Hr).
  destruct (isSpace c) eqn:Ec.
  - destruct b; [now apply IH|]. cbn [tagFree]. now rewrite (IH true Hr).
  - cbn [tagFree]. now rewrite startsTag_collapse, Hc, (IH false Hr).
Qed.

Lemma tagFree_tail c r : tagFree (c :: r) = true -> tagFree r = true.
Proof. cbn [tagFree]. intros H. now apply andb_true_iff in H. Qed.

Lemma tagFree_trimStart s : tagFree s = true -> tagFree (trimStart s) = true.
Proof.
  induction s as [|c r IH]; intros Ht; cbn [trimStart]; [reflexivity|].
  destruct (isSpace c); [|assumption]. apply IH. now apply (tagFree_tail c).
Qed.

Lemma startsTag_prefix p q : startsTag p = true -> startsTag (p ++ q) = true.
Proof.
  destruct p as [|c p']; [discriminate|]. unfold startsTag. cbn [app].
  intros H. apply andb_true_iff in H. destruct H as (Hc & Hex).
  rewrite Hc. cbn [andb]. change (c :: p' ++ q) with ((c :: p') ++ q).
  rewrite existsb_app, Hex. reflexivity.
Qed.

Lemma tagFree_prefix p q : tagFree (p ++ q) = true -> tagFree p = true.
Proof.
  induction p as [|c p' IH]; [reflexivity|]. cbn [app tagFree].
  intros H. apply andb_true_iff in H. destruct H as (Hc & Hr).
  rewrite (IH Hr), andb_true_r. apply negb_true_iff. apply negb_true_iff in Hc.
  apply andb_false_iff in Hc. destruct Hc as [Hc|Hc]; [now rewrite Hc|].
  destruct (startsTag p') eqn:Ep; [|apply andb_false_r].
  rewrite (startsTag_prefix p' q Ep) in Hc. discriminate.
Qed.

Lemma trimEnd_prefix s : exists suffix, s = trimEnd s ++ suffix.
Proof.
  induction s as [|c r (suffix & IH)]; [now exists []|]. cbn [trimEnd].
  destruct (trimEnd r) as [|c' t] eqn:Et.
  - destruct (isSpace c); [now exists (c :: r)|].
    exists r. reflexivity.
  - exists suffix. cbn [app]. f_equal. exact IH.
Qed.

Lemma tagFree_trimEnd s : tagFree s = true -> tagFree (trimEnd s) = true.
Proof.
  intros Ht. destruct (trimEnd_prefix s) as (suffix & Hs).
  rewrite Hs in Ht. now apply tagFree_prefix in Ht.
Qed.

Lemma tagFree_firstn n s : tagFree s = true -> tagFree (firstn n s) = true.
Proof.
  intros Ht. rewrite <- (firstn_skipn n s) in Ht. now apply tagFree_prefix in Ht.
Qed.

Lemma tagFree_spec s :
  tagFree s = true -> forall pre r, s = pre ++ LT :: r -> startsTag r = false.
Proof.
  intros Ht pre. revert s Ht.
  induction pre as [|p pre IH]; intros s Ht r ->; cbn [app tagFree] in Ht.
  - apply andb_true_iff in Ht. destruct Ht as (Hc & _).
    rewrite N.eqb_refl in Hc. cbn [andb] in Hc. now apply negb_true_iff in Hc.
  - apply andb_true_iff in Ht. destruct Ht as (_ & Hr). now apply (IH _ Hr).
Qed.

Lemma tagFree_preview html : tagFree (preview [] html) = true.
Proof.
  unfold preview, previewBase, trim.
  apply tagFree_firstn, tagFree_trimEnd, tagFree_trimStart, tagFree_collapse.
  apply tagFree_strip.
Qed.

End PreviewFacts.

(** X25.  The preview of a message has at most 120 code units, holds no
    white space other than the space character, never two white space
    characters in a row, and does not begin with white space (it may
    end with a space, where the cut at 120 fell). *)
Theorem X25_preview_is_tidy :
  forall (text html : list N),
    let p := Preview.preview text html in
    (List.length p <= 120)%nat
    /\ (forall u, In u p -> Preview.isSpace u = true -> u = Preview.SPACE)
    /\ (forall pre x y post, p = pre ++ x :: y :: post ->
          Preview.isSpace x = true -> Preview.isSpace y = false)
    /\ (forall c r, p = c :: r -> Preview.isSpace c = false).
Proof.
  intros text html p.
  pose proof (PreviewFacts.tidy_preview text html) as Ht. fold p in Ht.
  split; [|split; [|split]].
  - subst p. unfold Preview.preview. apply firstn_le_length.
  - intros u. now apply (PreviewFacts.tidy_spaces p true).
  - intros pre x y post. now apply (PreviewFacts.tidy_no_run p true).
  - intros c r Hp. rewrite Hp in Ht. cbn [Preview.tidy] in Ht.
    destruct (Preview.isSpace c); [|reflexivity].
    rewrite andb_false_r in Ht. discriminate.
Qed.

Lemma X25_preview_is_tidy_witness :
  Preview.preview [0x20; 0x48; 0x69; 0x0A; 0x09; 0x21]%N [] = [0x48; 0x69; 0x20; 0x21]%N
  /\ Preview.isSpace 0x21%N = false.
Proof.
  destruct (X25_preview_is_tidy [0x20; 0x48; 0x69; 0x0A; 0x09; 0x21]%N [])
    as (_ & _ & Hrun & _).
  split; [reflexivity|].
  apply (Hrun [0x48; 0x69]%N 0x20%N 0x21%N []); reflexivity.
Defined.

(** X26.  A preview computed from the HTML part (the text part being
    empty) holds no complete tag: after a [<] of the preview there is
    never a match of [[^>]+>], that is, the [<] is at the end, is
    directly followed by [>], or no [>] comes after it. *)
Theorem X26_html_preview_has_no_tag :
  forall (html pre r : list N),
    Preview.preview [] html = pre ++ Preview.LT :: r ->
    Preview.startsTag r = false.
Proof.
  intros html pre r Hp.
  apply (PreviewFacts.tagFree_spec (Preview.preview [] html)
           (PreviewFacts.tagFree_preview html) pre r Hp).
Qed.

Lemma X26_html_preview_has_no_tag_witness :
  Preview.preview [] [0x3C; 0x70; 0x3E; 0x61; 0x3C; 0x3E; 0x62; 0x3C; 0x2F; 0x70; 0x3E]%N
    = [0x61; 0x3C; 0x3E; 0x62]%N
  /\ Preview.startsTag [0x3E; 0x62]%N = false.
Proof.
  split; [reflexivity|].
  apply (X26_html_preview_has_no_tag
           [0x3C; 0x70; 0x3E; 0x61; 0x3C; 0x3E; 0x62; 0x3C; 0x2F; 0x70; 0x3E]%N
           [0x61]%N [0x3E; 0x62]%N).
  reflexivity.
Defined.

(** X27.  Overwriting a key that is present never evicts another key,
    at any fill level up to the capacity: [set] leaves every other
    entry and [size()] as they were and moves the key, with its new
    value and timestamp, to the most recent end. *)
Theorem X27_lru_overwrite_never_evicts :
  forall (V : Type) (c : LRU.LRUCache V) (key : string) (v : V) (now : Z),
    JsMap.wf (LRU.cache c) ->
    LRU.size c <= LRU.capacity c ->
    JsMap.get (LRU.cache c) key <> None ->
    let c' := LRU.set c key v now in
    LRU.size c' = LRU.size c
    /\ JsMap.get (LRU.cache c') key = Some {| value := v; timestamp := now |}
    /\ (forall k', k' <> key ->
          JsMap.get (LRU.cache c') k' = JsMap.get (LRU.cache c) k')
    /\ LRU.order c'
       = filter (fun k' => negb (String.eqb k' key)) (LRU.order c) ++ [key].
Proof.
  intros V c key v now Hwf Hroom G c'. subst c'.
  rewrite LRUFacts.set_unfold.
  assert (Hlen : S (List.length (JsMap.delete (LRU.cache c) key))
                 = List.length (LRU.cache c))
    by (now apply JsMapFacts.length_delete_present).
  rewrite evicted_below_capacity
    by (unfold LRU.size, JsMap.size in *; lia).
  assert (Gd : JsMap.get (JsMap.delete (LRU.cache c) key) key = None)
    by apply JsMapFacts.get_delete_same.
  unfold LRU.size, LRU.order. simpl.
  split; [|split; [|split]].
  - rewrite (JsMapFacts.set_absent _ _ _ Gd). unfold JsMap.size.
    rewrite length_app. simpl. lia.
  - apply JsMapFacts.get_set_same.
  - intros k' N.
    rewrite JsMapFacts.get_set_other, JsMapFacts.get_delete_other; congruence.
  - rewrite (JsMapFacts.keys_set_absent _ _ _ Gd). now rewrite JsMapFacts.keys_delete.
Qed.

Lemma X27_lru_overwrite_never_evicts_witness :
  let c := LRU.run (LRU.new 5 1000) [LRU.OpSet "1" "one" 0; LRU.OpSet "2" "two" 1] in
  LRU.size (LRU.set c "1" "uno" 2) = 2
  /\ LRU.order (LRU.set c "1" "uno" 2) = ["2"; "1"].
Proof.
  intros c.
  assert (Hwf : JsMap.wf (LRU.cache c)).
  { unfold JsMap.wf. simpl.
    repeat (apply NoDup_cons; [simpl; intuition discriminate|]). apply NoDup_nil. }
  destruct (X27_lru_overwrite_never_evicts string c "1" "uno" 2 Hwf)
    as (Hsize & _ & _ & Horder).
  - vm_compute. discriminate.
  - discriminate.
  - split; [exact Hsize|exact Horder].
Defined.
